(** * mem0-falkordb-ts: a shallow embedding of the graph-memory engine and
      of the Cypher dialect translator, with the properties of its
      specification.

    Layout:
    - [Js]: JavaScript strings as sequences of UTF-16 code units, values,
      truthiness and string conversion;
    - [Regex]: a backtracking matcher in the style of the ECMAScript
      specification (continuation passing, leftmost match, greedy and lazy
      quantifiers, capture groups, word boundaries) and the global
      [String.prototype.replace];
    - [CypherTranslator]: src/CypherTranslator.ts;
    - [BM25], [FalkorDBGraph], [FalkorMemoryGraph]: src/FalkorMemoryGraph.ts
      and src/FalkorDBGraph.ts. *)

From Stdlib Require Import Reals Lra Lia List String Ascii NArith ZArith Bool
  DecimalString Sorting Permutation.
From stdpp Require Import base gmap list strings.
Import ListNotations.

Local Open Scope N_scope.

(* ------------------------------------------------------------------ *)
(** * JavaScript strings and values *)
(* ------------------------------------------------------------------ *)

Module Js.

(** A string is its sequence of UTF-16 code units. *)
Abbreviation jstring := (list N).

(** Source literals are ASCII; [js] turns one into code units. *)
Definition js (s : string) : jstring :=
  map N_of_ascii (list_ascii_of_string s).

Definition between (lo hi c : N) : bool := (lo <=? c) && (c <=? hi).

(** [\d] *)
Definition is_digit (c : N) : bool := between 48 57 c.

(** [\w] (no [u] flag): [A-Za-z0-9_]. *)
Definition is_word (c : N) : bool :=
  between 97 122 c || between 65 90 c || is_digit c || (c =? 95).

(** [\s]: WhiteSpace and LineTerminator code units. *)
Definition is_space (c : N) : bool :=
  between 9 13 c || (c =? 32) || (c =? 160) || (c =? 5760)
  || between 8192 8202 c || (c =? 8232) || (c =? 8233) || (c =? 8239)
  || (c =? 8287) || (c =? 12288) || (c =? 65279).

(** Canonicalize of the [i] flag without [u]: only ASCII letters fold
    onto ASCII letters (a code unit above 127 never canonicalizes to one
    below 128). *)
Definition upper (c : N) : N := if between 97 122 c then c - 32 else c.

Definition eq_ci (a c : N) : bool := upper a =? upper c.

(** Values held by parameter maps and query rows.  Numbers are idealised
    as reals; nested arrays and objects are never mutated by the code
    modelled here and are kept by value. *)
#[warnings="-register-all"] Inductive value :=
| VUndefined
| VNull
| VBool (b : bool)
| VNum (r : R)
| VStr (s : jstring)
| VArr (l : list value)
| VObj (fields : list (jstring * value)).

(** ToBoolean. *)
Definition truthy (v : value) : bool :=
  match v with
  | VUndefined | VNull => false
  | VBool b => b
  | VNum r => if Req_dec_T r 0 then false else true
  | VStr s => match s with [] => false | _ => true end
  | VArr _ | VObj _ => true
  end.

Fixpoint join (sep : jstring) (l : list jstring) : jstring :=
  match l with
  | [] => []
  | [x] => x
  | x :: tl => x ++ sep ++ join sep tl
  end.

Section ToString.
(** Number::toString is left to the runtime. *)
Variable Number_toString : R -> jstring.

(** ToString, as applied by template literals and [String(...)]. *)
Fixpoint ToString (v : value) : jstring :=
  match v with
  | VUndefined => js "undefined"
  | VNull => js "null"
  | VBool true => js "true"
  | VBool false => js "false"
  | VNum r => Number_toString r
  | VStr s => s
  | VArr l =>
      join (js ",")
        (map (fun x => match x with
                       | VUndefined | VNull => []
                       | _ => ToString x
                       end) l)
  | VObj _ => js "[object Object]"
  end.
End ToString.

(** Thrown values: the name of the error and its message. *)
Inductive exn := Exn (name message : jstring).

Definition SyntaxError : exn := Exn (js "SyntaxError") [].
Definition TypeError : exn := Exn (js "TypeError") [].

(** [error.message || String(error)] *)
Definition exn_text (e : exn) : jstring :=
  match e with
  | Exn name [] => name
  | Exn _ message => message
  end.

Inductive result (A : Type) :=
| Ok (a : A)
| Throw (e : exn).
Arguments Ok {A} a.
Arguments Throw {A} e.

(** The decimal digits of a natural number. *)
Definition decimal (n : N) : jstring := js (NilZero.string_of_uint (N.to_uint n)).

(** [s.replace(/ /g, "_")] *)
Definition spaces_to_underscores (s : jstring) : jstring :=
  map (fun c => if c =? 32 then 95 else c) s.

(** [s.split(" ")]: cut at every single space; empty pieces are kept. *)
Fixpoint split_space_aux (cur : jstring) (s : jstring) : list jstring :=
  match s with
  | [] => [rev cur]
  | c :: tl =>
      if c =? 32 then rev cur :: split_space_aux [] tl
      else split_space_aux (c :: cur) tl
  end.

Definition split_space (s : jstring) : list jstring := split_space_aux [] s.

(** [haystack] contains [needle] at its start, code units compared by [eqc]. *)
Fixpoint starts_with (eqc : N -> N -> bool) (needle s : jstring) : bool :=
  match needle, s with
  | [], _ => true
  | _ :: _, [] => false
  | a :: n', c :: s' => eqc a c && starts_with eqc n' s'
  end.

(** [needle] occurs somewhere in [s]. *)
Fixpoint contains (eqc : N -> N -> bool) (needle s : jstring) : bool :=
  starts_with eqc needle s
  || match s with
     | [] => false
     | _ :: s' => contains eqc needle s'
     end.

End Js.

Import Js.

(* ------------------------------------------------------------------ *)
(** * Regular expressions: backtracking matcher and global replace *)
(* ------------------------------------------------------------------ *)

Module Regex.

Inductive regex :=
| Eps
| Chr (p : N -> bool)            (* one code unit of a class *)
| Seq (r1 r2 : regex)
| Alt (r1 r2 : regex)            (* r1|r2, r1 tried first *)
| Star (greedy : bool) (r : regex) (* r* and r*? *)
| Group (i : nat) (r : regex)    (* capturing group number i *)
| WordB.                         (* \b *)

Definition Plus (r : regex) : regex := Seq r (Star true r).   (* r+ *)
Definition Opt (r : regex) : regex := Alt r Eps.               (* r? *)

Fixpoint seqs (l : list regex) : regex :=
  match l with
  | [] => Eps
  | [r] => r
  | r :: tl => Seq r (seqs tl)
  end.

Definition chr (c : string) : regex :=
  match js c with
  | [a] => Chr (N.eqb a)
  | _ => Eps
  end.

(** A literal, code unit by code unit; [lit_ci] under the [i] flag. *)
Definition lit (s : string) : regex := seqs (map (fun a => Chr (N.eqb a)) (js s)).
Definition lit_ci (s : string) : regex := seqs (map (fun a => Chr (eq_ci a)) (js s)).

(** The matcher state: the code unit before the current position (for
    [\b]), the input still to read, and the captures made so far. *)
Record mstate := MState {
  prev : option N;
  rest : jstring;
  caps : list (nat * jstring)
}.

Definition word_before (st : mstate) : bool :=
  match prev st with Some c => is_word c | None => false end.

Definition word_after (st : mstate) : bool :=
  match rest st with c :: _ => is_word c | [] => false end.

(** What was read between two states of one run. *)
Definition consumed (st st' : mstate) : jstring :=
  firstn (length (rest st) - length (rest st')) (rest st).

Definition set_cap (i : nat) (s : jstring) (st : mstate) : mstate :=
  MState (prev st) (rest st) ((i, s) :: caps st).

Fixpoint cap (i : nat) (cs : list (nat * jstring)) : jstring :=
  match cs with
  | [] => []
  | (j, s) :: tl => if Nat.eqb i j then s else cap i tl
  end.

(** [r*] and [r*?] over a body matcher: at most [n] further
    iterations; an iteration that reads nothing is rejected, so one
    iteration per code unit left is enough. *)
Fixpoint star_loop (body : (mstate -> option mstate) -> mstate -> option mstate)
    (greedy : bool) (k : mstate -> option mstate) (n : nat) (st : mstate)
  : option mstate :=
  match n with
  | O => k st
  | S n' =>
      let again st' :=
        if (length (rest st') <? length (rest st))%nat
        then star_loop body greedy k n' st' else None in
      if greedy then
        match body again st with
        | Some x => Some x
        | None => k st
        end
      else
        match k st with
        | Some x => Some x
        | None => body again st
        end
  end.

(** [rmatch r k st]: match [r] at [st], then continue with [k]; the first
    success in backtracking order is returned. *)
Fixpoint rmatch (r : regex) (k : mstate -> option mstate) (st : mstate)
  : option mstate :=
  match r with
  | Eps => k st
  | Chr p =>
      match rest st with
      | c :: tl => if p c then k (MState (Some c) tl (caps st)) else None
      | [] => None
      end
  | Seq r1 r2 => rmatch r1 (rmatch r2 k) st
  | Alt r1 r2 =>
      match rmatch r1 k st with
      | Some x => Some x
      | None => rmatch r2 k st
      end
  | Star greedy r1 => star_loop (rmatch r1) greedy k (length (rest st)) st
  | Group i r1 =>
      rmatch r1 (fun st' => k (set_cap i (consumed st st') st')) st
  | WordB => if xorb (word_before st) (word_after st) then k st else None
  end.

(** The code unit before the position reached by reading [w]. *)
Definition after (pv : option N) (w : jstring) : option N :=
  match rev w with c :: _ => Some c | [] => pv end.

(** [tl] does not go on with a code unit of class [p]. *)
Definition stops (p : N -> bool) (tl : jstring) : bool :=
  match tl with c :: _ => negb (p c) | [] => true end.

(** The text read so far ends in a word character. *)
Definition ends_word (pre : jstring) : bool :=
  match after None pre with Some c => is_word c | None => false end.

(** No proper suffix of [needle] starts [s]: an occurrence of [needle]
    cannot begin before [s] and end inside it. *)
Definition straddle_free (eqc : N -> N -> bool) (needle s : jstring) : bool :=
  forallb (fun j => negb (starts_with eqc (skipn j needle) s))
          (seq 1 (length needle - 1)).

(** Two states at the same position of the input. *)
Definition same_pos (s s' : mstate) : Prop :=
  prev s = prev s' /\ rest s = rest s'.

(** A match attempt at one position of the input. *)
Definition match_at (r : regex) (pv : option N) (s : jstring) : option mstate :=
  rmatch r Some (MState pv s []).

(** The pattern matches at some position of [s] ([pv] is the code unit
    before [s]). *)
Fixpoint has_match (r : regex) (pv : option N) (s : jstring) : bool :=
  match match_at r pv s with
  | Some _ => true
  | None =>
      match s with
      | [] => false
      | c :: tl => has_match r (Some c) tl
      end
  end.

(** The pattern matches at no position inside [e], read in front of [tl]
    (a match may run over into [tl], but starts in [e]). *)
Fixpoint no_match_within (r : regex) (pv : option N) (e tl : jstring) : bool :=
  match e with
  | [] => true
  | c :: e' =>
      match match_at r pv (e ++ tl) with
      | Some _ => false
      | None => no_match_within r (Some c) e' tl
      end
  end.

Section Replace.
Context {St : Type}.
(** The replacer sees the captures and may update a state of its own. *)
Variable r : regex.
Variable f : St -> list (nat * jstring) -> jstring * St.

(** [replace_loop] scans left to right: at a match the replacement is
    emitted and the scan resumes after it, otherwise one code unit is
    copied.  The fuel bounds the number of positions. *)
Fixpoint replace_loop (fuel : nat) (pv : option N) (s : jstring) (acc : St)
  : jstring * St :=
  match fuel with
  | O => (s, acc)
  | S fuel' =>
      match match_at r pv s with
      | Some st' =>
          let (rep, acc1) := f acc (caps st') in
          if (length (rest st') <? length s)%nat then
            let (out, acc2) := replace_loop fuel' (prev st') (rest st') acc1 in
            (rep ++ out, acc2)
          else
            match s with
            | [] => (rep, acc1)
            | c :: tl =>
                let (out, acc2) := replace_loop fuel' (Some c) tl acc1 in
                (rep ++ c :: out, acc2)
            end
      | None =>
          match s with
          | [] => ([], acc)
          | c :: tl =>
              let (out, acc2) := replace_loop fuel' (Some c) tl acc in
              (c :: out, acc2)
          end
      end
  end.

(** The scan from a position inside a string. *)
Definition replace_from (pv : option N) (s : jstring) (acc : St) : jstring * St :=
  replace_loop (S (length s)) pv s acc.

(** [s.replace(/r/g, f)] *)
Definition replace (s : jstring) (acc : St) : jstring * St :=
  replace_from None s acc.
End Replace.

End Regex.

Import Regex.

(* ------------------------------------------------------------------ *)
(** * src/CypherTranslator.ts *)
(* ------------------------------------------------------------------ *)

Module CypherTranslator.

(** Parameter objects live in a heap, so that a call can be observed to
    mutate, or not, the object it was handed. *)
Abbreviation loc := positive.
Abbreviation params := (gmap jstring value).
Abbreviation heap := (gmap loc params).

(** [/\belementId\s*\(/g] *)
Definition elementId_re : regex :=
  seqs [WordB; lit "elementId"; Star true (Chr is_space); chr "("].

(** [/\bround\s*\(([\s\S]*?),\s*(\d+)\s*\)\s*AS\b/g] *)
Definition round_tail : regex :=
  seqs [chr ","; Star true (Chr is_space); Group 2 (Plus (Chr is_digit));
        Star true (Chr is_space); chr ")"; Star true (Chr is_space);
        lit "AS"; WordB].

Definition round_re : regex :=
  seqs [WordB; lit "round"; Star true (Chr is_space); chr "(";
        Group 1 (Star false (Chr (fun _ => true))); round_tail].

(** [\{[^}]*\}] *)
Definition braces : regex :=
  seqs [chr "{"; Star true (Chr (fun c => negb (c =? 125))); chr "}"].

Definition ws : regex := Star true (Chr is_space).
Definition ws1 : regex := Plus (Chr is_space).
Definition ident : regex := Plus (Chr is_word).

(** [/CALL\s+apoc\.merge\.relationship\s*\(\s*(\w+)\s*,\s*\$(\w+)\s*,
     \s*\{[^}]*\}\s*,\s*(\{[^}]*\}|\$\w+)\s*,\s*(\w+)
     (?:\s*,\s*\{[^}]*\})?\s*\)\s*YIELD\s+(\w+)/gis] *)
Definition apocPattern : regex :=
  seqs [lit_ci "CALL"; ws1; lit_ci "apoc.merge.relationship"; ws; chr "(";
        ws; Group 1 ident; ws; chr ",";
        ws; chr "$"; Group 2 ident; ws; chr ",";
        ws; braces; ws; chr ",";
        ws; Group 3 (Alt braces (Seq (chr "$") ident)); ws; chr ",";
        ws; Group 4 ident;
        Opt (seqs [ws; chr ","; ws; braces]);
        ws; chr ")"; ws; lit_ci "YIELD"; ws1; Group 5 ident].

(** elementId(expr) -> id(expr) *)
Definition translateElementId (query : jstring) : jstring :=
  fst (replace elementId_re (fun (u : unit) _ => (js "id(", u)) query tt).

(** round(expr, precision) -> round(expr) *)
Definition translateRound (query : jstring) : jstring :=
  fst (replace round_re
         (fun (u : unit) cs => (js "round(" ++ cap 1 cs ++ js ") AS", u))
         query tt).

Section WithRuntime.
Variable Number_toString : R -> jstring.

(** The replacer of the APOC rewrite: it reads, and deletes, a property
    of the object at [p]. *)
Definition apocReplacer (p : loc) (h : heap) (cs : list (nat * jstring))
  : jstring * heap :=
  let sourceVar := cap 1 cs in
  let relTypeParam := cap 2 cs in
  let targetVar := cap 4 cs in
  let yieldVar := cap 5 cs in
  let obj := default ∅ (h !! p) in
  let relType := default VUndefined (obj !! relTypeParam) in
  let h1 := if truthy relType then <[p := delete relTypeParam obj]> h else h in
  let safeRelType :=
    if truthy relType
    then js "`" ++ ToString Number_toString relType ++ js "`"
    else js "`RELATED_TO`" in
  (js "MERGE (" ++ sourceVar ++ js ")-[" ++ yieldVar ++ js ":" ++ safeRelType
     ++ js "]->(" ++ targetVar ++ js ")", h1).

Definition translateApocMergeRelationship (query : jstring) (p : loc) (h : heap)
  : jstring * heap :=
  replace apocPattern (apocReplacer p) query h.

(** [translate]: the parameters are spread into a fresh object, which
    the third rewrite may mutate and which is returned. *)
Definition translate (query : jstring) (p : loc) (h : heap)
  : jstring * loc * heap :=
  let translatedParams := fresh (dom h) in
  let h0 := <[translatedParams := default ∅ (h !! p)]> h in
  let translated := translateElementId query in
  let translated := translateRound translated in
  let (translated, h1) :=
    translateApocMergeRelationship translated translatedParams h0 in
  (translated, translatedParams, h1).
End WithRuntime.

(** Inputs of the examples: the runtime's number printer is not exercised
    by them. *)
Definition print_number (r : R) : jstring := js "NaN".

Definition the_params : loc := 1%positive.

(** [{ relType: "KNOWS", other: "value" }] at [the_params]. *)
Definition knows_heap : heap :=
  {[ the_params := <[js "relType" := VStr (js "KNOWS")]>
                     (<[js "other" := VStr (js "value")]> ∅) ]}.

(** [{ relType: "" }] at [the_params]. *)
Definition empty_type_heap : heap :=
  {[ the_params := <[js "relType" := VStr []]> ∅ ]}.

(** [{ name: "Alice" }] at [the_params]. *)
Definition alice_heap : heap :=
  {[ the_params := <[js "name" := VStr (js "Alice")]> ∅ ]}.

(** The query text of [_searchSourceNode] (src/FalkorMemoryGraph.ts),
    as it is handed to [translate]. *)
Definition searchSourceNode_text : jstring := js "
      MATCH (source_candidate)
      WHERE source_candidate.embedding IS NOT NULL
      AND source_candidate.user_id = $user_id

      WITH source_candidate,
          round(
              reduce(dot = 0.0, i IN range(0, size(source_candidate.embedding)-1) |
                  dot + source_candidate.embedding[i] * $source_embedding[i]) /
              (sqrt(reduce(l2 = 0.0, i IN range(0, size(source_candidate.embedding)-1) |
                  l2 + source_candidate.embedding[i] * source_candidate.embedding[i])) *
              sqrt(reduce(l2 = 0.0, i IN range(0, size($source_embedding)-1) |
                  l2 + $source_embedding[i] * $source_embedding[i])))
              , 4) AS source_similarity
      WHERE source_similarity >= $threshold

      WITH source_candidate, source_similarity
      ORDER BY source_similarity DESC
      LIMIT 1

      RETURN elementId(source_candidate) as element_id
    ".

(** Its pieces around the call of [round]. *)
Definition searchSourceNode_pre : jstring := js "
      MATCH (source_candidate)
      WHERE source_candidate.embedding IS NOT NULL
      AND source_candidate.user_id = $user_id

      WITH source_candidate,
          ".

Definition searchSourceNode_expr : jstring := js "
              reduce(dot = 0.0, i IN range(0, size(source_candidate.embedding)-1) |
                  dot + source_candidate.embedding[i] * $source_embedding[i]) /
              (sqrt(reduce(l2 = 0.0, i IN range(0, size(source_candidate.embedding)-1) |
                  l2 + source_candidate.embedding[i] * source_candidate.embedding[i])) *
              sqrt(reduce(l2 = 0.0, i IN range(0, size($source_embedding)-1) |
                  l2 + $source_embedding[i] * $source_embedding[i])))
              ".

Definition searchSourceNode_post : jstring := js " source_similarity
      WHERE source_similarity >= $threshold

      WITH source_candidate, source_similarity
      ORDER BY source_similarity DESC
      LIMIT 1

      RETURN elementId(source_candidate) as element_id
    ".

Definition apoc_call : jstring :=
  js "CALL apoc.merge.relationship(a, $relType, {}, {}, b) YIELD rel".

(** ** Where the elementId pattern matches *)

(** [\s*\(] read at the start of [s]: what follows the parenthesis. *)
Fixpoint open_paren (s : jstring) : option jstring :=
  match s with
  | [] => None
  | c :: tl =>
      if is_space c then open_paren tl
      else if c =? 40 then Some tl else None
  end.

(** The code unit before a position is a word character. *)
Definition word_opt (pv : option N) : bool :=
  match pv with Some c => is_word c | None => false end.

(** A call [elementId<spaces>(] that starts at a word boundary: what
    follows its parenthesis. *)
Definition elementId_at (pv : option N) (s : jstring) : option jstring :=
  if negb (word_opt pv) && starts_with N.eqb (js "elementId") s
  then open_paren (skipn 9 s) else None.

(** The rewriting of [translateElementId] resumed inside a text, after
    the code unit [pv]. *)
Definition translateElementId_from (pv : option N) (s : jstring) : jstring :=
  fst (replace_from elementId_re (fun (u : unit) _ => (js "id(", u)) pv s tt).

(** An identifier: one word character or more. *)
Definition is_ident (x : jstring) : bool :=
  match x with [] => false | _ :: _ => forallb is_word x end.

End CypherTranslator.

Import CypherTranslator.

(* ------------------------------------------------------------------ *)
(** * src/FalkorMemoryGraph.ts: class BM25 *)
(* ------------------------------------------------------------------ *)

Module BM25.

Local Open Scope R_scope.

Abbreviation doc := (list jstring).

Record t := Make {
  documents : list doc;
  k1 : R;
  b : R;
  docLengths : list nat;
  avgDocLength : R;
  docFreq : gmap jstring nat;
  idf : gmap jstring R
}.

(** [new Set(doc)]: the distinct terms, in order of first occurrence. *)
Fixpoint distinct (seen : list jstring) (d : doc) : list jstring :=
  match d with
  | [] => []
  | term :: tl =>
      if bool_decide (term ∈ seen) then distinct seen tl
      else term :: distinct (term :: seen) tl
  end.

(** [this.docFreq.set(term, (this.docFreq.get(term) || 0) + 1)] *)
Definition bump (df : gmap jstring nat) (term : jstring) : gmap jstring nat :=
  <[term := (default 0%nat (df !! term) + 1)%nat]> df.

(** The inverse document frequency of a term found in [freq] of [N] documents. *)
Definition idf_of (N freq : nat) : R :=
  ln ((INR N - INR freq + 0.5) / (INR freq + 0.5) + 1).

(** [computeIdf] *)
Definition computeIdf (docs : list doc) : gmap jstring nat * gmap jstring R :=
  let N := length docs in
  let df := fold_left (fun df d => fold_left bump (distinct [] d) df) docs ∅ in
  (df, (idf_of N) <$> df).

(** [new BM25(documents, k1 = 1.5, b = 0.75)] *)
Definition new_with (docs : list doc) (k1 b : R) : t :=
  let lens := map (@length jstring) docs in
  let avg := INR (fold_left Nat.add lens 0%nat) / INR (length docs) in
  let '(df, idf) := computeIdf docs in
  Make docs k1 b lens avg df idf.

Definition new (docs : list doc) : t := new_with docs 1.5 0.75.

(** [doc.filter((t) => t === term).length] *)
Definition tf (term : jstring) (d : doc) : nat :=
  length (filter (fun t => t = term) d).

(** One term's share of a document's score. *)
Definition term_score (m : t) (docLength : nat) (d : doc) (term : jstring) : R :=
  let f := INR (tf term d) in
  let i := default 0 (idf m !! term) in
  (i * f * (k1 m + 1)) /
  (f + k1 m * (1 - b m + (b m * INR docLength) / avgDocLength m)).

(** [score(query, doc, index)] *)
Definition score (m : t) (query : list jstring) (d : doc) (index : nat) : R :=
  let docLength := default 0%nat (docLengths m !! index) in
  fold_left (fun s term => s + term_score m docLength d term) query 0.

(** [Array.prototype.sort] with the comparator [(a, b) => b.score - a.score]:
    a stable sort by descending score. *)
Fixpoint insert_desc {A} (key : A -> R) (x : A) (l : list A) : list A :=
  match l with
  | [] => [x]
  | y :: tl =>
      if Rlt_dec (key x) (key y) then y :: insert_desc key x tl
      else x :: y :: tl
  end.

Definition sort_desc {A} (key : A -> R) (l : list A) : list A :=
  fold_right (insert_desc key) [] l.

(** [search(query)] *)
Definition search (m : t) (query : list jstring) : list doc :=
  let scores := imap (fun idx d => (d, score m query d idx)) (documents m) in
  map fst (sort_desc snd scores).

(** The score the specification gives a document: the sum over the query
    terms of idf * tf * (k1 + 1) / (tf + k1 * (1 - b + b * docLen/avgDocLen)),
    with idf = ln((N - df + 0.5)/(df + 0.5) + 1), df the number of documents
    that hold the term, k1 = 1.5 and b = 0.75. *)
Definition df_spec (docs : list doc) (term : jstring) : nat :=
  length (filter (fun d => term ∈ d) docs).

Definition avg_spec (docs : list doc) : R :=
  INR (list_sum (map (@length jstring) docs)) / INR (length docs).

Definition sum_R (l : list R) : R := fold_right Rplus 0 l.

Definition score_spec (docs : list doc) (query : list jstring) (d : doc) : R :=
  sum_R
    (map (fun term =>
            idf_of (length docs) (df_spec docs term) * INR (tf term d) * (1.5 + 1) /
            (INR (tf term d)
             + 1.5 * (1 - 0.75 + 0.75 * INR (length d) / avg_spec docs)))
         query).

End BM25.

(* ------------------------------------------------------------------ *)
(** * The graph queries the engine sends *)
(* ------------------------------------------------------------------ *)

Module Cypher.

(** The clauses of the queries written in src/FalkorMemoryGraph.ts.  The
    parts the code splices into the text (labels, relationship types) are
    arguments of the clauses; everything else is passed as a parameter. *)
Inductive expr :=
| EParam (name : string)         (* $name *)
| ETimestamp                     (* timestamp() *)
| ELit (n : nat).                (* an integer literal *)

(** [(var:label {key: expr, ...})]; a bare [(var)] has no label and no
    properties. *)
Record node_pattern := NodeP {
  np_var : string;
  np_label : option jstring;
  np_props : list (string * expr)
}.

Inductive cond :=
| IsNotNull (var prop : string)            (* var.prop IS NOT NULL *)
| PropEq (var prop : string) (e : expr)    (* var.prop = e *)
| IdEq (var : string) (e : expr)           (* id(var) = e *)
| Ge (alias : string) (e : expr).          (* alias >= e *)

Inductive column :=
| CProp (var prop : string)                (* var.prop *)
| CType (r : string)                       (* type(r) *)
| CElementId (var : string)                (* elementId(var) *)
| CAlias (alias : string).

Inductive clause :=
| Match (n : node_pattern)
| MatchPath (n : node_pattern) (r : string) (rtype : option jstring)
    (m : node_pattern)                     (* MATCH (n)-[r:T]->(m) *)
| Where (cs : list cond)
| WithSimilarity (var param alias : string)
    (* WITH var, round(<cosine of var.embedding and $param>, 4) AS alias *)
| With (vars : list string)
| OrderByDesc (alias : string)
| Limit (e : expr)
| Merge (n : node_pattern) (on_create on_match : list (string * expr))
    (* MERGE (n) ON CREATE SET n.k = e, ... ON MATCH SET n.k = e, ... *)
| MergePath (src r : string) (rtype : jstring) (dst : string)
    (on_create : list (string * expr))
    (* MERGE (src)-[r:T]->(dst) ON CREATE SET r.k = e, ... *)
| Delete (r : string)
| DetachDelete (var : string)
| Return (cols : list (column * string))   (* RETURN col AS alias, ... *)
| Union.

Abbreviation query := (list clause).

Definition bare (v : string) : node_pattern := NodeP v None [].

Definition expr_is_param (name : string) (e : expr) : bool :=
  match e with EParam p => String.eqb p name | _ => false end.

(** The pattern restricts its node to [user_id: $user_id]. *)
Definition pattern_of_tenant (n : node_pattern) : bool :=
  existsb (fun kv => String.eqb (fst kv) "user_id" && expr_is_param "user_id" (snd kv))
          (np_props n).

(** The conditions restrict [var] to [var.user_id = $user_id]. *)
Definition conds_of_tenant (var : string) (cs : list cond) : bool :=
  existsb (fun c => match c with
                    | PropEq v p e =>
                        String.eqb v var && String.eqb p "user_id"
                        && expr_is_param "user_id" e
                    | _ => false
                    end) cs.

(** Every node a reading query starts from is restricted to the tenant:
    a bare [MATCH (v)] is followed by a [WHERE] that holds
    [v.user_id = $user_id], and a pattern that introduces its first node
    carries [user_id: $user_id].  [seen] are the variables bound so far. *)
Fixpoint reads_tenant_only (seen : list string) (q : query) : bool :=
  match q with
  | [] => true
  | Match n :: tl =>
      match np_props n, tl with
      | [], Where cs :: tl' =>
          conds_of_tenant (np_var n) cs && reads_tenant_only (np_var n :: seen) tl'
      | [], _ => false
      | _ :: _, _ => pattern_of_tenant n && reads_tenant_only (np_var n :: seen) tl
      end
  | MatchPath n r _ m :: tl =>
      (existsb (String.eqb (np_var n)) seen || existsb (String.eqb (np_var m)) seen
       || (pattern_of_tenant n && pattern_of_tenant m))
      && reads_tenant_only (np_var n :: np_var m :: seen) tl
  | Union :: tl => reads_tenant_only [] tl
  | _ :: tl => reads_tenant_only seen tl
  end.

End Cypher.

(* ------------------------------------------------------------------ *)
(** * A property graph and the meaning of the writing clauses *)
(* ------------------------------------------------------------------ *)

Module GraphStore.
Import Cypher.

Abbreviation params := (gmap string value).
Abbreviation props := (gmap string value).

Record node := Node {
  node_id : N;
  node_labels : list jstring;
  node_props : props
}.

Record rel := Rel {
  rel_id : N;
  rel_type : jstring;
  rel_src : N;
  rel_dst : N;
  rel_props : props
}.

(** [now] is what [timestamp()] returns. *)
Record store := Store {
  nodes : list node;
  rels : list rel;
  next_id : N;
  now : value
}.

Inductive entity := ENode (id : N) | ERel (id : N).

(** One result row: the variables bound so far. *)
Abbreviation row := (list (string * entity)).

(** Equality of property values, as [MERGE] compares them. *)
Fixpoint value_eqb (a c : value) : bool :=
  match a, c with
  | VUndefined, VUndefined => true
  | VNull, VNull => true
  | VBool x, VBool y => Bool.eqb x y
  | VNum x, VNum y => if Req_dec_T x y then true else false
  | VStr x, VStr y => bool_decide (x = y)
  | VArr x, VArr y =>
      (fix all2 (l1 l2 : list value) : bool :=
         match l1, l2 with
         | [], [] => true
         | v1 :: t1, v2 :: t2 => value_eqb v1 v2 && all2 t1 t2
         | _, _ => false
         end) x y
  | VObj x, VObj y =>
      (fix all2 (l1 l2 : list (jstring * value)) : bool :=
         match l1, l2 with
         | [], [] => true
         | (k1, v1) :: t1, (k2, v2) :: t2 =>
             bool_decide (k1 = k2) && value_eqb v1 v2 && all2 t1 t2
         | _, _ => false
         end) x y
  | _, _ => false
  end.

Definition eval (ps : params) (s : store) (e : expr) : value :=
  match e with
  | EParam p => default VNull (ps !! p)
  | ETimestamp => now s
  | ELit n => VNum (INR n)
  end.

Fixpoint lookup_var (v : string) (r : row) : option entity :=
  match r with
  | [] => None
  | (x, e) :: tl => if String.eqb x v then Some e else lookup_var v tl
  end.

(** [SET n.k = e, ...] *)
Definition set_props (ps : params) (s : store) (sets : list (string * expr))
    (p : props) : props :=
  fold_left (fun p kv => <[fst kv := eval ps s (snd kv)]> p) sets p.

Definition node_matches (ps : params) (s : store) (pat : node_pattern) (n : node)
  : bool :=
  match np_label pat with
  | Some l => bool_decide (l ∈ node_labels n)
  | None => true
  end
  && forallb (fun kv =>
                match node_props n !! fst kv with
                | Some v => value_eqb v (eval ps s (snd kv))
                | None => false
                end) (np_props pat).

(** The store at another time. *)
Definition at_time (t : value) (s : store) : store :=
  Store (nodes s) (rels s) (next_id s) t.

Section Semantics.
(** How the store compares [id(n)] with a parameter value. *)
Variable id_matches : N -> value -> bool.

(** [MERGE (n:L {k: e, ...}) ON CREATE SET ... ON MATCH SET ...] for one
    row: every node that fits the pattern is bound (and updated by ON
    MATCH); when none fits, one is created. *)
Definition merge_node (ps : params) (pat : node_pattern)
    (on_create on_match : list (string * expr)) (r : row) (s : store)
  : list row * store :=
  match filter (fun n => node_matches ps s pat n = true) (nodes s) with
  | [] =>
      let id := next_id s in
      let base := set_props ps s (np_props pat) ∅ in
      let n := Node id (match np_label pat with Some l => [l] | None => [] end)
                    (set_props ps s on_create base) in
      ([(np_var pat, ENode id) :: r],
       Store (nodes s ++ [n]) (rels s) (id + 1) (now s))
  | found =>
      (map (fun n => (np_var pat, ENode (node_id n)) :: r) found,
       Store (map (fun n => if node_matches ps s pat n
                            then Node (node_id n) (node_labels n)
                                      (set_props ps s on_match (node_props n))
                            else n) (nodes s))
             (rels s) (next_id s) (now s))
  end.

(** [MERGE (src)-[r:T]->(dst) ON CREATE SET ...] for one row with both
    ends bound. *)
Definition merge_path (ps : params) (src rv : string) (rtype : jstring)
    (dst : string) (on_create : list (string * expr)) (r : row) (s : store)
  : option (list row * store) :=
  match lookup_var src r, lookup_var dst r with
  | Some (ENode a), Some (ENode c) =>
      match filter (fun e => bool_decide (rel_type e = rtype)
                             && (rel_src e =? a) && (rel_dst e =? c) = true)
                   (rels s) with
      | [] =>
          let id := next_id s in
          let e := Rel id rtype a c (set_props ps s on_create ∅) in
          Some ([(rv, ERel id) :: r],
                Store (nodes s) (rels s ++ [e]) (id + 1) (now s))
      | found => Some (map (fun e => (rv, ERel (rel_id e)) :: r) found, s)
      end
  | _, _ => None
  end.

(** A clause run over all rows, one after the other. *)
Fixpoint per_row (f : row -> store -> option (list row * store))
    (rows : list row) (s : store) : option (list row * store) :=
  match rows with
  | [] => Some ([], s)
  | r :: tl =>
      match f r s with
      | Some (out, s1) =>
          match per_row f tl s1 with
          | Some (outs, s2) => Some (out ++ outs, s2)
          | None => None
          end
      | None => None
      end
  end.

Definition cond_holds (ps : params) (s : store) (r : row) (c : cond)
  : option bool :=
  match c with
  | IdEq v e =>
      match lookup_var v r with
      | Some (ENode id) => Some (id_matches id (eval ps s e))
      | _ => None
      end
  | _ => None
  end.

Fixpoint conds_hold (ps : params) (s : store) (r : row) (cs : list cond)
  : option bool :=
  match cs with
  | [] => Some true
  | c :: tl =>
      match cond_holds ps s r c, conds_hold ps s r tl with
      | Some x, Some y => Some (x && y)
      | _, _ => None
      end
  end.

Fixpoint filter_rows (ps : params) (s : store) (cs : list cond) (rows : list row)
  : option (list row) :=
  match rows with
  | [] => Some []
  | r :: tl =>
      match conds_hold ps s r cs, filter_rows ps s cs tl with
      | Some true, Some out => Some (r :: out)
      | Some false, Some out => Some out
      | _, _ => None
      end
  end.

(** The clauses the adding queries are made of; reading clauses other
    than [MATCH (v) WHERE id(v) = e] are not given a meaning here. *)
Definition exec_clause (ps : params) (c : clause) (st : list row * store)
  : option (list row * store) :=
  let '(rows, s) := st in
  match c with
  | Match (NodeP v None []) =>
      Some (flat_map (fun r => map (fun n => (v, ENode (node_id n)) :: r) (nodes s))
                     rows, s)
  | Where cs =>
      match filter_rows ps s cs rows with
      | Some out => Some (out, s)
      | None => None
      end
  | Merge pat on_create on_match =>
      per_row (fun r s => Some (merge_node ps pat on_create on_match r s)) rows s
  | MergePath src rv rtype dst on_create =>
      per_row (merge_path ps src rv rtype dst on_create) rows s
  | Return _ => Some (rows, s)
  | _ => None
  end.

Fixpoint exec_clauses (ps : params) (q : query) (st : list row * store)
  : option (list row * store) :=
  match q with
  | [] => Some st
  | c :: tl =>
      match exec_clause ps c st with
      | Some st1 => exec_clauses ps tl st1
      | None => None
      end
  end.

(** A query starts from one empty row. *)
Definition exec (ps : params) (q : query) (s : store) : option (list row * store) :=
  exec_clauses ps q ([[]], s).
End Semantics.

Definition empty_store (t : value) : store := Store [] [] 0 t.

(** ** What a query writes *)

Definition not_user_id (kv : string * expr) : bool :=
  negb (String.eqb (fst kv) "user_id").

(** A node is only ever merged on [{<key>: ..., user_id: $user_id}], and
    no [SET] touches [user_id]. *)
Definition writes_tenant (c : clause) : bool :=
  match c with
  | Merge (NodeP _ _ [(k, _); (k2, e2)]) oc om =>
      negb (String.eqb k "user_id") && String.eqb k2 "user_id"
      && expr_is_param "user_id" e2 && forallb not_user_id (oc ++ om)
  | Merge _ _ _ => false
  | MergePath _ _ _ _ oc => forallb not_user_id oc
  | _ => true
  end.

(** A row binds every variable of [seen] to a node. *)
Definition binds (seen : list string) (r : row) : Prop :=
  forall v, existsb (String.eqb v) seen = true ->
            exists id, lookup_var v r = Some (ENode id).

(** Every variable a clause relies on is bound to a node by an earlier
    clause. *)
Fixpoint well_bound (seen : list string) (q : query) : bool :=
  match q with
  | [] => true
  | Match (NodeP v None []) :: tl => well_bound (v :: seen) tl
  | Where cs :: tl =>
      forallb (fun c => match c with
                        | IdEq v _ => existsb (String.eqb v) seen
                        | _ => false
                        end) cs
      && well_bound seen tl
  | Merge pat _ _ :: tl => well_bound (np_var pat :: seen) tl
  | MergePath a rv _ c _ :: tl =>
      existsb (String.eqb a) seen && existsb (String.eqb c) seen
      && negb (existsb (String.eqb rv) seen) && well_bound seen tl
  | Return _ :: tl => well_bound seen tl
  | _ => false
  end.

(** The labels of the nodes a query may create, and the relationships
    it may create. *)
Definition merged_labels (q : query) : list (option jstring) :=
  flat_map (fun c => match c with Merge pat _ _ => [np_label pat] | _ => [] end) q.

Definition merged_paths (q : query) : list (string * jstring * string) :=
  flat_map (fun c => match c with
                     | MergePath a _ t c _ => [(a, t, c)]
                     | _ => []
                     end) q.

(** No clause deletes. *)
Definition only_merges (q : query) : bool :=
  forallb (fun c => match c with
                    | Delete _ | DetachDelete _ => false
                    | _ => true
                    end) q.

(** Running a merge again, at any later time, changes nothing. *)
Definition idempotent (c : clause) : Prop :=
  match c with
  | Merge pat oc om =>
      forall ps r s rows1 s1,
        merge_node ps pat oc om r s = (rows1, s1) ->
        forall t, exists rows2,
          merge_node ps pat oc om r (at_time t s1) = (rows2, at_time t s1)
  | MergePath a rv ty c oc =>
      forall ps r s rows1 s1,
        merge_path ps a rv ty c oc r s = Some (rows1, s1) ->
        forall t, exists rows2,
          merge_path ps a rv ty c oc r (at_time t s1) = Some (rows2, at_time t s1)
  | _ => True
  end.

(** From [s] to [s']: nodes kept their [user_id] or are new and carry
    the tenant's; relationships are old or carry no [user_id]. *)
Definition tenant_growth (u : value) (s s' : store) : Prop :=
  (forall n, n ∈ nodes s' ->
     (exists n0, n0 ∈ nodes s /\ node_id n0 = node_id n
                 /\ node_props n0 !! "user_id" = node_props n !! "user_id")
     \/ node_props n !! "user_id" = Some u) /\
  (forall e, e ∈ rels s' -> e ∈ rels s \/ rel_props e !! "user_id" = None).

(** A node that is not the tenant's: it has no [user_id], or another
    one. *)
Definition foreign (u : value) (n : node) : bool :=
  match node_props n !! "user_id" with
  | Some v => negb (value_eqb v u)
  | None => true
  end.

(** From [s] to [s']: the nodes that are not the tenant's, and all the
    relationships, are still there as they were. *)
Definition others_kept (u : value) (s s' : store) : Prop :=
  (forall n, n ∈ nodes s -> foreign u n = true -> n ∈ nodes s') /\
  (forall e, e ∈ rels s -> e ∈ rels s').

(** From [s] to [s']: every node is still there under its identifier,
    with its labels and all its properties but the embedding, and every
    relationship is still there. *)
Definition persists (s s' : store) : Prop :=
  (forall n, n ∈ nodes s ->
     exists n', n' ∈ nodes s' /\ node_id n' = node_id n
                /\ node_labels n' = node_labels n
                /\ forall k, k <> "embedding"%string ->
                             node_props n' !! k = node_props n !! k) /\
  (forall e, e ∈ rels s -> e ∈ rels s').

(** A [SET] that writes nothing but the embedding. *)
Definition only_embedding (sets : list (string * expr)) : bool :=
  forallb (fun kv => String.eqb (fst kv) "embedding") sets.

End GraphStore.

(* ------------------------------------------------------------------ *)
(** * src/FalkorDBGraph.ts *)
(* ------------------------------------------------------------------ *)

Module FalkorDBGraph.

Record FalkorDBConfig := Config {
  host : jstring;
  port : N;
  password : option jstring;
  username : option jstring;
  graphName : option jstring
}.

(** The wrapper: its configuration, the connection once made (its URL),
    and the graph selected on it. *)
Record t := Graph {
  config : FalkorDBConfig;
  client : option jstring;
  graph : option jstring;
  initialized : bool
}.

(** [new FalkorDBGraph(config)] *)
Definition new (cfg : FalkorDBConfig) : t := Graph cfg None None false.

(** [s || d] on an optional string. *)
Definition str_or (s : option jstring) (d : jstring) : jstring :=
  match s with
  | Some (c :: tl) => c :: tl
  | _ => d
  end.

Definition nonempty (s : option jstring) : bool :=
  match s with Some (_ :: _) => true | _ => false end.

Definition url_of (cfg : FalkorDBConfig) : jstring :=
  let port := if port cfg =? 0 then 6379 else port cfg in
  let host := str_or (Some (host cfg)) (js "localhost") in
  if nonempty (username cfg) && nonempty (password cfg) then
    js "redis://" ++ str_or (username cfg) [] ++ js ":" ++ str_or (password cfg) []
      ++ js "@" ++ host ++ js ":" ++ decimal port
  else if nonempty (password cfg) then
    js "redis://:" ++ str_or (password cfg) [] ++ js "@" ++ host ++ js ":"
      ++ decimal port
  else js "redis://" ++ host ++ js ":" ++ decimal port.

(** [this.config.graphName || "mem0"] *)
Definition selected_name (cfg : FalkorDBConfig) : jstring :=
  str_or (graphName cfg) (js "mem0").

Section WithDriver.
(** The falkordb driver: its state, connecting, querying a named graph
    ([None] when the reply has no [data]), closing. *)
Variable driver : Type.
Variable connect : jstring -> driver -> result unit * driver.
Variable graph_query :
  jstring -> jstring -> CypherTranslator.params -> driver
  -> result (option (list (gmap jstring value))) * driver.
Variable client_close : driver -> result unit * driver.
Variable Number_toString : R -> jstring.

(** [init()] *)
Definition init (g : t) (d : driver) : result t * driver :=
  if initialized g then (Ok g, d)
  else
    let url := url_of (config g) in
    match connect url d with
    | (Ok _, d1) =>
        (Ok (Graph (config g) (Some url) (Some (selected_name (config g))) true), d1)
    | (Throw e, d1) => (Throw e, d1)
    end.

(** [query(cypher, params?)]: the parameters are an object of the heap,
    or missing. *)
Definition query (g : t) (cypher : jstring) (params : option CypherTranslator.loc)
    (h : CypherTranslator.heap) (d : driver)
  : result (list (gmap jstring value)) * t * CypherTranslator.heap * driver :=
  match init g d with
  | (Throw e, d1) => (Throw e, g, h, d1)
  | (Ok g1, d1) =>
      let '(p, h0) :=
        match params with
        | Some p => (p, h)
        | None => let p := fresh (dom h) in (p, <[p := ∅]> h)
        end in
      let '(translatedQuery, translatedParams, h1) :=
        CypherTranslator.translate Number_toString cypher p h0 in
      match graph_query (default [] (graph g1)) translatedQuery
              (default ∅ (h1 !! translatedParams)) d1 with
      | (Ok data, d2) => (Ok (default [] data), g1, h1, d2)
      | (Throw e, d2) =>
          (Throw (Exn (js "Error")
                    (js "FalkorDB query failed: " ++ exn_text e ++ [10]
                       ++ js "Query: " ++ translatedQuery)),
           g1, h1, d2)
      end
  end.

(** [close()] *)
Definition close (g : t) (d : driver) : result t * driver :=
  match client g with
  | Some c =>
      match client_close d with
      | (Ok _, d1) => (Ok (Graph (config g) (Some c) (graph g) false), d1)
      | (Throw e, d1) => (Throw e, d1)
      end
  | None => (Ok g, d)
  end.
End WithDriver.

(** The configuration of the README: no graph name given. *)
Definition default_config : FalkorDBConfig :=
  Config (js "localhost") 6379 None None None.

(** A driver that records the graph, the text and the parameters of
    every query, and returns no rows. *)
Abbreviation driver_log := (list (jstring * jstring * CypherTranslator.params)).

Definition log_connect (url : jstring) (d : driver_log) : result unit * driver_log :=
  (Ok tt, d).

Definition log_query (g q : jstring) (ps : CypherTranslator.params) (d : driver_log)
  : result (option (list (gmap jstring value))) * driver_log :=
  (Ok (Some []), d ++ [(g, q, ps)]).

(** The text of [deleteAll] and the parameters of a tenant, as an object
    of the heap. *)
Definition deleteAll_text : jstring :=
  js "MATCH (n {user_id: $user_id}) DETACH DELETE n".

Definition tenant_heap (tenant : string) : CypherTranslator.heap :=
  {[ 1%positive := {[ js "user_id" := VStr (js tenant) ]} ]}.

(** ** The wrappers a program can come to hold *)

Section Lifetime.
Variable driver : Type.
Variable connect : jstring -> driver -> result unit * driver.
Variable graph_query :
  jstring -> jstring -> CypherTranslator.params -> driver
  -> result (option (list (gmap jstring value))) * driver.
Variable client_close : driver -> result unit * driver.
Variable Number_toString : R -> jstring.

(** The wrapper the constructor returns for [cfg], and what [init],
    [query] and [close] leave of a wrapper, whatever the heap and the
    driver were at each call.  A call that throws out of [init] or
    [close] leaves the wrapper as it was. *)
Inductive reachable (cfg : FalkorDBConfig) : t -> Prop :=
| reach_new : reachable cfg (new cfg)
| reach_init g d g1 d1 :
    reachable cfg g ->
    init driver connect g d = (Ok g1, d1) ->
    reachable cfg g1
| reach_query g cypher ps h d r g1 h1 d1 :
    reachable cfg g ->
    query driver connect graph_query Number_toString g cypher ps h d
      = (r, g1, h1, d1) ->
    reachable cfg g1
| reach_close g d g1 d1 :
    reachable cfg g ->
    close driver client_close g d = (Ok g1, d1) ->
    reachable cfg g1.
End Lifetime.

(** A wrapper of [cfg] is either not connected yet, or connected to the
    URL of [cfg] with the graph named by [cfg] selected. *)
Definition connected_as (cfg : FalkorDBConfig) (g : t) : Prop :=
  config g = cfg /\
  ((client g = None /\ graph g = None /\ initialized g = false) \/
   (client g = Some (url_of cfg) /\ graph g = Some (selected_name cfg))).

(** A driver that records what it is asked: connections, queries and
    closings. *)
Inductive event :=
| Connected (url : jstring)
| Queried (graph text : jstring) (ps : CypherTranslator.params)
| Closed.

Definition trace_connect (url : jstring) (d : list event)
  : result unit * list event := (Ok tt, d ++ [Connected url]).

Definition trace_query (g q : jstring) (ps : CypherTranslator.params)
    (d : list event)
  : result (option (list (gmap jstring value))) * list event :=
  (Ok (Some []), d ++ [Queried g q ps]).

Definition trace_close (d : list event) : result unit * list event :=
  (Ok tt, d ++ [Closed]).

(** A driver whose server refuses every query. *)
Definition failing_query (g q : jstring) (ps : CypherTranslator.params)
    (d : list event)
  : result (option (list (gmap jstring value))) * list event :=
  (Throw (Exn (js "Error") (js "syntax error")), d ++ [Queried g q ps]).

(** A driver whose server knows the graph mem0 only. *)
Definition mem0_only_query (g q : jstring) (ps : CypherTranslator.params)
    (d : list event)
  : result (option (list (gmap jstring value))) * list event :=
  if bool_decide (g = js "mem0") then trace_query g q ps d
  else failing_query g q ps d.

End FalkorDBGraph.

(* ------------------------------------------------------------------ *)
(** * src/FalkorMemoryGraph.ts: class FalkorMemoryGraph *)
(* ------------------------------------------------------------------ *)

Module FalkorMemoryGraph.
Import Cypher GraphStore.

Record EntityTriple := Triple {
  source : jstring;
  relationship : jstring;
  destination : jstring
}.

Record SearchOutputItem := Item {
  item_source : jstring;
  source_id : jstring;
  item_relationship : jstring;
  relation_id : jstring;
  item_destination : jstring;
  destination_id : jstring;
  similarity : value
}.

(** What [JSON.parse] returns. *)
#[warnings="-register-all"] Inductive json :=
| JNull
| JBool (b : bool)
| JNum (r : R)
| JStr (s : jstring)
| JArr (l : list json)
| JObj (fields : list (jstring * json)).

Fixpoint json_value (j : json) : value :=
  match j with
  | JNull => VNull
  | JBool b => VBool b
  | JNum r => VNum r
  | JStr s => VStr s
  | JArr l => VArr (map json_value l)
  | JObj fs => VObj (map (fun kv => (fst kv, json_value (snd kv))) fs)
  end.

(** A value read from parsed JSON: [None] is [undefined]. *)
Definition js_value (o : option json) : value :=
  match o with Some j => json_value j | None => VUndefined end.

(** The last binding of a key is the one [JSON.parse] keeps. *)
Fixpoint field (k : jstring) (fs : list (jstring * json)) : option json :=
  match fs with
  | [] => None
  | (k', v) :: tl =>
      match field k tl with
      | Some w => Some w
      | None => if bool_decide (k' = k) then Some v else None
      end
  end.

(** [x.k] for the property names the code reads (none is an index or
    [length]): a TypeError on [null] and [undefined], [undefined] on
    anything that is not an object with that key. *)
Definition get_prop (x : option json) (k : string) : result (option json) :=
  match x with
  | None | Some JNull => Throw TypeError
  | Some (JObj fs) => Ok (field (js k) fs)
  | Some _ => Ok None
  end.

(** [for (const item of x)]: arrays and strings are iterable (a string
    yields its characters, here one per code unit). *)
Definition iterate (x : option json) : result (list json) :=
  match x with
  | Some (JArr l) => Ok l
  | Some (JStr s) => Ok (map (fun c => JStr [c]) s)
  | _ => Throw TypeError
  end.

(** An object used as a map: its entries in insertion order. *)
Abbreviation object A := (list (jstring * A)).

Fixpoint obj_set {A} (k : jstring) (v : A) (o : object A) : object A :=
  match o with
  | [] => [(k, v)]
  | (k', v') :: tl =>
      if bool_decide (k' = k) then (k, v) :: tl else (k', v') :: obj_set k v tl
  end.

Fixpoint obj_get {A} (k : jstring) (o : object A) : option A :=
  match o with
  | [] => None
  | (k', v) :: tl => if bool_decide (k' = k) then Some v else obj_get k tl
  end.

(** [Object.keys(o)] *)
Definition keys {A} (o : object A) : list jstring := map fst o.

Record ToolCall := Call {
  name : jstring;
  arguments : jstring
}.

(** The model answers with plain text or with a response that may hold
    tool calls. *)
Inductive LLMResponse :=
| Text (s : jstring)
| Response (content role : jstring) (toolCalls : option (list ToolCall)).

Inductive tool := EXTRACT_ENTITIES_TOOL | RELATIONS_TOOL | DELETE_MEMORY_TOOL_GRAPH.

Record message := Msg {
  role : jstring;
  content : jstring
}.

Abbreviation record := (gmap string value).
Abbreviation filters := (gmap string value).

(** [filters["userId"]] *)
Definition userId_of (f : filters) : value := default VUndefined (f !! "userId").

Definition embedding_value (e : list R) : value := VArr (map VNum e).

(** [[item.source, item.relationship, item.destination]] *)
Definition doc3 (item : SearchOutputItem) : BM25.doc :=
  [item_source item; item_relationship item; item_destination item].

(** The four ways [_addEntities] persists a triple. *)
Inductive branch := SourceExists | DestinationExists | BothExist | NeitherExists.

Section Engine.
(** The collaborators: the runtime's builtins, the model, the embedder
    and the graph store behind [FalkorDBGraph.query]; [world] is all the
    state they keep. *)
Variable world : Type.
Variable JSON_parse : jstring -> option json.
Variable toLowerCase : jstring -> jstring.
Variable Number_toString : R -> jstring.
Variable String_replace : jstring -> jstring -> jstring -> jstring.
Variable EXTRACT_RELATIONS_PROMPT : jstring.
Variable DELETE_RELATIONS_SYSTEM_PROMPT : jstring.
Variable customPrompt : option jstring.
Variable generateResponse : list message -> tool -> world -> result LLMResponse * world.
Variable embed : jstring -> world -> result (list R) * world.
Variable graph_query : query -> params -> world -> result (list record) * world.

(** Steps that may throw and that change the collaborators' state. *)
Definition M (A : Type) : Type := world -> result A * world.

Definition ret {A} (a : A) : M A := fun w => (Ok a, w).

Definition bind {A B} (m : M A) (k : A -> M B) : M B :=
  fun w => match m w with
           | (Ok a, w1) => k a w1
           | (Throw e, w1) => (Throw e, w1)
           end.

Definition lift {A} (r : result A) : M A := fun w => (r, w).

Notation "x <- m ;; k" := (bind m (fun x => k))
  (at level 100, m at next level, right associativity).

Fixpoint for_each {A B} (f : A -> M B) (l : list A) : M (list B) :=
  match l with
  | [] => ret []
  | x :: tl => y <- f x ;; ys <- for_each f tl ;; ret (y :: ys)
  end.

Definition str := ToString Number_toString.

(** [s.toLowerCase().replace(/ /g, "_")] *)
Definition normalize (s : jstring) : jstring :=
  spaces_to_underscores (toLowerCase s).

(** [x.toLowerCase().replace(/ /g, "_")] on a value that need not be a
    string. *)
Definition normalize_json (x : option json) : result jstring :=
  match x with
  | Some (JStr s) => Ok (normalize s)
  | _ => Throw TypeError
  end.

(** ** _retrieveNodesFromData *)

(** The loop over [args.entities]; the map filled so far survives a throw. *)
Fixpoint collect_items (items : list json) (m : object (option json))
  : object (option json) * result unit :=
  match items with
  | [] => (m, Ok tt)
  | item :: tl =>
      match get_prop (Some item) "entity", get_prop (Some item) "entity_type" with
      | Ok k, Ok v => collect_items tl (obj_set (str (js_value k)) v m)
      | Throw e, _ | _, Throw e => (m, Throw e)
      end
  end.

(** The loop over the tool calls. *)
Fixpoint collect_calls (calls : list ToolCall) (m : object (option json))
  : object (option json) * result unit :=
  match calls with
  | [] => (m, Ok tt)
  | call :: tl =>
      if bool_decide (name call = js "extract_entities") then
        match JSON_parse (arguments call) with
        | None => (m, Throw SyntaxError)
        | Some args =>
            match get_prop (Some args) "entities" with
            | Throw e => (m, Throw e)
            | Ok ents =>
                match iterate ents with
                | Throw e => (m, Throw e)
                | Ok items =>
                    match collect_items items m with
                    | (m1, Ok _) => collect_calls tl m1
                    | (m1, Throw e) => (m1, Throw e)
                    end
                end
            end
        end
      else collect_calls tl m
  end.

(** The [try { ... } catch (e) { console.error(...) }] block: whatever
    is thrown inside is dropped. *)
Definition try_collect (searchResults : LLMResponse) : object (option json) :=
  match searchResults with
  | Response _ _ (Some calls) => fst (collect_calls calls [])
  | _ => []
  end.

(** [Object.fromEntries(Object.entries(m).map(([k, v]) => [..., ...]))] *)
Fixpoint normalize_entries (es : object (option json)) (out : object jstring)
  : result (object jstring) :=
  match es with
  | [] => Ok out
  | (k, v) :: tl =>
      match normalize_json v with
      | Ok v1 => normalize_entries tl (obj_set (normalize k) v1 out)
      | Throw e => Throw e
      end
  end.

Definition entity_system_prompt (userId : value) : jstring :=
  js "You are a smart assistant who understands entities and their types in a given text. If user message contains self reference such as 'I', 'me', 'my' etc. then use "
    ++ str userId
    ++ js " as the source entity. Extract all the entities from the text. ***DO NOT*** answer the question itself if the given text is a question.".

Definition _retrieveNodesFromData (data : jstring) (f : filters)
  : M (object jstring) :=
  searchResults <-
    generateResponse [Msg (js "system") (entity_system_prompt (userId_of f));
                      Msg (js "user") data] EXTRACT_ENTITIES_TOOL ;;
  lift (normalize_entries (try_collect searchResults) []).

(** ** _removeSpacesFromEntities *)

Definition triple_of_json (item : json) : result EntityTriple :=
  match get_prop (Some item) "source", get_prop (Some item) "relationship",
        get_prop (Some item) "destination" with
  | Ok s, Ok r, Ok d =>
      match normalize_json s, normalize_json r, normalize_json d with
      | Ok s1, Ok r1, Ok d1 => Ok (Triple s1 r1 d1)
      | _, _, _ => Throw TypeError
      end
  | _, _, _ => Throw TypeError
  end.

Fixpoint _removeSpacesFromEntities (entityList : list json)
  : result (list EntityTriple) :=
  match entityList with
  | [] => Ok []
  | item :: tl =>
      match triple_of_json item with
      | Ok t =>
          match _removeSpacesFromEntities tl with
          | Ok ts => Ok (t :: ts)
          | Throw e => Throw e
          end
      | Throw e => Throw e
      end
  end.

(** ** _establishNodesRelationsFromData *)

Definition json_truthy (x : option json) : bool := truthy (js_value x).

(** [entities = args.entities || []], as the list [.map] then runs on. *)
Definition entities_or_empty (x : option json) : result (list json) :=
  if json_truthy x then
    match x with
    | Some (JArr l) => Ok l
    | _ => Throw TypeError
    end
  else Ok [].

(** What the code reads out of the model's answer: only the first tool
    call, and nothing guards [JSON.parse]. *)
Definition parse_relations (extractedEntities : LLMResponse)
  : result (list EntityTriple) :=
  match extractedEntities with
  | Response _ _ (Some (toolCall :: _)) =>
      match arguments toolCall with
      | [] => _removeSpacesFromEntities []
      | _ :: _ =>
          match JSON_parse (arguments toolCall) with
          | None => Throw SyntaxError
          | Some args =>
              match get_prop (Some args) "entities" with
              | Throw e => Throw e
              | Ok ents =>
                  match entities_or_empty ents with
                  | Ok l => _removeSpacesFromEntities l
                  | Throw e => Throw e
                  end
              end
          end
      end
  | _ => _removeSpacesFromEntities []
  end.

Definition relations_messages (data : jstring) (f : filters)
    (entityTypeMap : object jstring) : list message :=
  match customPrompt with
  | Some (c :: p) =>
      [Msg (js "system")
         (String_replace
            (String_replace EXTRACT_RELATIONS_PROMPT (js "USER_ID") (str (userId_of f)))
            (js "CUSTOM_PROMPT") (js "4. " ++ (c :: p))
          ++ [10] ++ js "Please provide your response in JSON format.");
       Msg (js "user") data]
  | _ =>
      [Msg (js "system")
         (String_replace EXTRACT_RELATIONS_PROMPT (js "USER_ID") (str (userId_of f))
          ++ [10] ++ js "Please provide your response in JSON format.");
       Msg (js "user")
         (js "List of entities: " ++ join (js ",") (keys entityTypeMap)
            ++ js ". " ++ [10; 10] ++ js "Text: " ++ data)]
  end.

Definition _establishNodesRelationsFromData (data : jstring) (f : filters)
    (entityTypeMap : object jstring) : M (list EntityTriple) :=
  extractedEntities <-
    generateResponse (relations_messages data f entityTypeMap) RELATIONS_TOOL ;;
  lift (parse_relations extractedEntities).

(** ** _searchGraphDb *)

Definition get (r : record) (k : string) : value := default VUndefined (r !! k).

(** A column the interface declares a string: the store returns names
    and relationship types as strings. *)
Definition text (v : value) : jstring :=
  match v with VStr s => s | _ => str v end.

(** One direction of the similarity search: the edges that leave [n]
    ([outgoing]) or that reach it. *)
Definition similar_edges (outgoing : bool) : query :=
  [Match (bare "n");
   Where [IsNotNull "n" "embedding"; PropEq "n" "user_id" (EParam "user_id")];
   WithSimilarity "n" "n_embedding" "similarity";
   Where [Ge "similarity" (EParam "threshold")];
   if outgoing then MatchPath (bare "n") "r" None (bare "m")
   else MatchPath (bare "m") "r" None (bare "n");
   if outgoing then
     Return [(CProp "n" "name", "source"); (CElementId "n", "source_id");
             (CType "r", "relationship"); (CElementId "r", "relation_id");
             (CProp "m" "name", "destination"); (CElementId "m", "destination_id");
             (CAlias "similarity", "similarity")]
   else
     Return [(CProp "m" "name", "source"); (CElementId "m", "source_id");
             (CType "r", "relationship"); (CElementId "r", "relation_id");
             (CProp "n" "name", "destination"); (CElementId "n", "destination_id");
             (CAlias "similarity", "similarity")]].

Definition searchGraphDb_query : query :=
  similar_edges true ++ [Union] ++ similar_edges false
    ++ [OrderByDesc "similarity"; Limit (EParam "limit")].

(** [this.threshold = 0.7] *)
Definition threshold : R := 0.7%R.

Definition searchGraphDb_params (nEmbedding : list R) (f : filters) (limit : nat)
  : params :=
  <["n_embedding" := embedding_value nEmbedding]>
    (<["threshold" := VNum threshold]>
       (<["user_id" := userId_of f]>
          (<["limit" := VNum (INR limit)]> ∅))).

Definition item_of_record (r : record) : SearchOutputItem :=
  Item (text (get r "source")) (str (get r "source_id"))
       (text (get r "relationship")) (str (get r "relation_id"))
       (text (get r "destination")) (str (get r "destination_id"))
       (get r "similarity").

Fixpoint _searchGraphDb (nodeList : list jstring) (f : filters) (limit : nat)
  : M (list SearchOutputItem) :=
  match nodeList with
  | [] => ret []
  | node :: tl =>
      nEmbedding <- embed node ;;
      result <- graph_query searchGraphDb_query
                  (searchGraphDb_params nEmbedding f limit) ;;
      more <- _searchGraphDb tl f limit ;;
      ret (map item_of_record result ++ more)
  end.

(** ** _getDeleteEntitiesFromSearchOutput *)

Definition memory_line (item : SearchOutputItem) : jstring :=
  item_source item ++ js " -- " ++ item_relationship item ++ js " -- "
    ++ item_destination item.

Fixpoint parse_deletions (calls : list ToolCall) : result (list json) :=
  match calls with
  | [] => Ok []
  | item :: tl =>
      if bool_decide (name item = js "delete_graph_memory") then
        match JSON_parse (arguments item) with
        | None => Throw SyntaxError
        | Some j =>
            match parse_deletions tl with
            | Ok js => Ok (j :: js)
            | Throw e => Throw e
            end
        end
      else parse_deletions tl
  end.

Definition _getDeleteEntitiesFromSearchOutput
    (searchOutput : list SearchOutputItem) (data : jstring) (f : filters)
  : M (list EntityTriple) :=
  let searchOutputString := join [10] (map memory_line searchOutput) in
  let systemPrompt :=
    String_replace DELETE_RELATIONS_SYSTEM_PROMPT (js "USER_ID") (str (userId_of f)) in
  let userPrompt :=
    js "Here are the existing memories: " ++ searchOutputString ++ js " "
      ++ [10; 10] ++ js " New Information: " ++ data in
  memoryUpdates <-
    generateResponse [Msg (js "system") systemPrompt; Msg (js "user") userPrompt]
      DELETE_MEMORY_TOOL_GRAPH ;;
  lift (match memoryUpdates with
        | Response _ _ (Some calls) =>
            match parse_deletions calls with
            | Ok toBeDeleted => _removeSpacesFromEntities toBeDeleted
            | Throw e => Throw e
            end
        | _ => _removeSpacesFromEntities []
        end).

(** ** _deleteEntities *)

Definition deleteEntities_query (relationship : jstring) : query :=
  [MatchPath
     (NodeP "n" None [("name", EParam "source_name"); ("user_id", EParam "user_id")])
     "r" (Some relationship)
     (NodeP "m" None [("name", EParam "dest_name"); ("user_id", EParam "user_id")]);
   Delete "r";
   Return [(CProp "n" "name", "source"); (CProp "m" "name", "target");
           (CType "r", "relationship")]].

Definition deleteEntities_params (item : EntityTriple) (userId : value) : params :=
  <["source_name" := VStr (source item)]>
    (<["dest_name" := VStr (destination item)]>
       (<["user_id" := userId]> ∅)).

Definition _deleteEntities (toBeDeleted : list EntityTriple) (userId : value)
  : M (list (list record)) :=
  for_each (fun item =>
              graph_query (deleteEntities_query (relationship item))
                (deleteEntities_params item userId))
           toBeDeleted.

(** ** _searchSourceNode, _searchDestinationNode *)

Definition searchNode_query (candidate embedding alias : string) : query :=
  [Match (bare candidate);
   Where [IsNotNull candidate "embedding";
          PropEq candidate "user_id" (EParam "user_id")];
   WithSimilarity candidate embedding alias;
   Where [Ge alias (EParam "threshold")];
   With [candidate; alias];
   OrderByDesc alias;
   Limit (ELit 1);
   Return [(CElementId candidate, "element_id")]].

Definition searchNode_params (embedding : string) (e : list R) (userId : value)
    (threshold : R) : params :=
  <[embedding := embedding_value e]>
    (<["user_id" := userId]> (<["threshold" := VNum threshold]> ∅)).

Definition element_ids (result : list record) : list jstring :=
  map (fun r => str (get r "element_id")) result.

(** [_searchSourceNode(sourceEmbedding, userId, threshold = 0.9)] *)
Definition _searchSourceNode_at (sourceEmbedding : list R) (userId : value)
    (threshold : R) : M (list jstring) :=
  result <- graph_query
              (searchNode_query "source_candidate" "source_embedding"
                 "source_similarity")
              (searchNode_params "source_embedding" sourceEmbedding userId threshold) ;;
  ret (element_ids result).

Definition _searchSourceNode (sourceEmbedding : list R) (userId : value)
  : M (list jstring) :=
  _searchSourceNode_at sourceEmbedding userId 0.9%R.

(** [_searchDestinationNode(destinationEmbedding, userId, threshold = 0.9)] *)
Definition _searchDestinationNode_at (destinationEmbedding : list R)
    (userId : value) (threshold : R) : M (list jstring) :=
  result <- graph_query
              (searchNode_query "destination_candidate" "destination_embedding"
                 "destination_similarity")
              (searchNode_params "destination_embedding" destinationEmbedding
                 userId threshold) ;;
  ret (element_ids result).

Definition _searchDestinationNode (destinationEmbedding : list R) (userId : value)
  : M (list jstring) :=
  _searchDestinationNode_at destinationEmbedding userId 0.9%R.

(** ** _addEntities *)

(** [entityTypeMap[name] || "unknown"] *)
Definition type_of (entityTypeMap : object jstring) (name : jstring) : jstring :=
  match obj_get name entityTypeMap with
  | Some (c :: t) => c :: t
  | _ => js "unknown"
  end.

Definition returns_triple (s r d : string) : clause :=
  Return [(CProp s "name", "source"); (CType r, "relationship");
          (CProp d "name", "target")].

(** The branch taken on the two search results. *)
Definition branch_of (sourceNodeSearchResult destinationNodeSearchResult : list jstring)
  : branch :=
  match destinationNodeSearchResult, sourceNodeSearchResult with
  | [], _ :: _ => SourceExists
  | _ :: _, [] => DestinationExists
  | _ :: _, _ :: _ => BothExist
  | [], [] => NeitherExists
  end.

(** [result[0]?.elementId] *)
Definition first_id (l : list jstring) : value :=
  match l with x :: _ => VStr x | [] => VUndefined end.

(** The query and the parameters of one triple. *)
Definition add_request (item : EntityTriple) (userId : value)
    (entityTypeMap : object jstring) (sourceEmbedding destEmbedding : list R)
    (sourceNodeSearchResult destinationNodeSearchResult : list jstring)
  : query * params :=
  let sourceType := type_of entityTypeMap (source item) in
  let destinationType := type_of entityTypeMap (destination item) in
  match branch_of sourceNodeSearchResult destinationNodeSearchResult with
  | SourceExists =>
      ([Match (bare "source"); Where [IdEq "source" (EParam "source_id")];
        Merge (NodeP "destination" (Some destinationType)
                 [("name", EParam "destination_name"); ("user_id", EParam "user_id")])
              [("created", ETimestamp); ("embedding", EParam "destination_embedding")]
              [];
        MergePath "source" "r" (relationship item) "destination"
                  [("created", ETimestamp)];
        returns_triple "source" "r" "destination"],
       <["source_id" := first_id sourceNodeSearchResult]>
         (<["destination_name" := VStr (destination item)]>
            (<["destination_embedding" := embedding_value destEmbedding]>
               (<["user_id" := userId]> ∅))))
  | DestinationExists =>
      ([Match (bare "destination");
        Where [IdEq "destination" (EParam "destination_id")];
        Merge (NodeP "source" (Some sourceType)
                 [("name", EParam "source_name"); ("user_id", EParam "user_id")])
              [("created", ETimestamp); ("embedding", EParam "source_embedding")]
              [];
        MergePath "source" "r" (relationship item) "destination"
                  [("created", ETimestamp)];
        returns_triple "source" "r" "destination"],
       <["destination_id" := first_id destinationNodeSearchResult]>
         (<["source_name" := VStr (source item)]>
            (<["source_embedding" := embedding_value sourceEmbedding]>
               (<["user_id" := userId]> ∅))))
  | BothExist =>
      ([Match (bare "source"); Where [IdEq "source" (EParam "source_id")];
        Match (bare "destination");
        Where [IdEq "destination" (EParam "destination_id")];
        MergePath "source" "r" (relationship item) "destination"
                  [("created_at", ETimestamp); ("updated_at", ETimestamp)];
        returns_triple "source" "r" "destination"],
       <["source_id" := first_id sourceNodeSearchResult]>
         (<["destination_id" := first_id destinationNodeSearchResult]>
            (<["user_id" := userId]> ∅)))
  | NeitherExists =>
      ([Merge (NodeP "n" (Some sourceType)
                 [("name", EParam "source_name"); ("user_id", EParam "user_id")])
              [("created", ETimestamp); ("embedding", EParam "source_embedding")]
              [("embedding", EParam "source_embedding")];
        Merge (NodeP "m" (Some destinationType)
                 [("name", EParam "dest_name"); ("user_id", EParam "user_id")])
              [("created", ETimestamp); ("embedding", EParam "dest_embedding")]
              [("embedding", EParam "dest_embedding")];
        MergePath "n" "rel" (relationship item) "m" [("created", ETimestamp)];
        returns_triple "n" "rel" "m"],
       <["source_name" := VStr (source item)]>
         (<["dest_name" := VStr (destination item)]>
            (<["source_embedding" := embedding_value sourceEmbedding]>
               (<["dest_embedding" := embedding_value destEmbedding]>
                  (<["user_id" := userId]> ∅)))))
  end.

(** The body of the loop of [_addEntities]. *)
Definition add_one (userId : value) (entityTypeMap : object jstring)
    (item : EntityTriple) : M (list record) :=
  sourceEmbedding <- embed (source item) ;;
  destEmbedding <- embed (destination item) ;;
  sourceNodeSearchResult <- _searchSourceNode sourceEmbedding userId ;;
  destinationNodeSearchResult <- _searchDestinationNode destEmbedding userId ;;
  let '(cypher, ps) :=
    add_request item userId entityTypeMap sourceEmbedding destEmbedding
      sourceNodeSearchResult destinationNodeSearchResult in
  graph_query cypher ps.

Definition _addEntities (toBeAdded : list EntityTriple) (userId : value)
    (entityTypeMap : object jstring) : M (list (list record)) :=
  for_each (add_one userId entityTypeMap) toBeAdded.

(** ** The public operations *)

Record AddResult := Added {
  deleted_entities : list (list record);
  added_entities : list (list record);
  relations : list EntityTriple
}.

Definition add (data : jstring) (f : filters) : M AddResult :=
  entityTypeMap <- _retrieveNodesFromData data f ;;
  toBeAdded <- _establishNodesRelationsFromData data f entityTypeMap ;;
  searchOutput <- _searchGraphDb (keys entityTypeMap) f 100 ;;
  toBeDeleted <- _getDeleteEntitiesFromSearchOutput searchOutput data f ;;
  deletedEntities <- _deleteEntities toBeDeleted (userId_of f) ;;
  addedEntities <- _addEntities toBeAdded (userId_of f) entityTypeMap ;;
  ret (Added deletedEntities addedEntities toBeAdded).

(** The re-ranking of [search] on the hits of the recall phase. *)
Definition rerank (query : jstring) (searchOutput : list SearchOutputItem)
  : list EntityTriple :=
  match searchOutput with
  | [] => []
  | _ :: _ =>
      let searchOutputsSequence := map doc3 searchOutput in
      let bm25 := BM25.new searchOutputsSequence in
      let tokenizedQuery := split_space query in
      let rerankedResults := firstn 5 (BM25.search bm25 tokenizedQuery) in
      map (fun item => Triple (nth 0 item []) (nth 1 item []) (nth 2 item []))
          rerankedResults
  end.

(** [search(query, filters, limit = 100)] *)
Definition search (query : jstring) (f : filters) (limit : nat)
  : M (list EntityTriple) :=
  entityTypeMap <- _retrieveNodesFromData query f ;;
  searchOutput <- _searchGraphDb (keys entityTypeMap) f limit ;;
  ret (rerank query searchOutput).

Definition deleteAll_query : query :=
  [Match (NodeP "n" None [("user_id", EParam "user_id")]); DetachDelete "n"].

Definition deleteAll_params (f : filters) : params :=
  <["user_id" := userId_of f]> ∅.

Definition deleteAll (f : filters) : M unit :=
  _ <- graph_query deleteAll_query (deleteAll_params f) ;;
  ret tt.

Definition getAll_query : query :=
  [MatchPath (NodeP "n" None [("user_id", EParam "user_id")]) "r" None
             (NodeP "m" None [("user_id", EParam "user_id")]);
   Return [(CProp "n" "name", "source"); (CType "r", "relationship");
           (CProp "m" "name", "target")];
   Limit (EParam "limit")].

Definition getAll_params (f : filters) (limit : nat) : params :=
  <["user_id" := userId_of f]> (<["limit" := VNum (INR limit)]> ∅).

Definition getAll (f : filters) (limit : nat) : M (list record) :=
  result <- graph_query getAll_query (getAll_params f limit) ;;
  ret (map (fun r => <["source" := get r "source"]>
                       (<["relationship" := get r "relationship"]>
                          (<["target" := get r "target"]> ∅))) result).
End Engine.

(** ** Collaborators for the examples *)

(** A reader for the JSON texts of the examples: strings without
    escapes, [null], [true], [false], arrays and objects; anything else
    is refused, as [JSON.parse] refuses what is not JSON. *)
Fixpoint skip_ws (s : jstring) : jstring :=
  match s with
  | c :: tl => if (c =? 32) || (c =? 9) || (c =? 10) || (c =? 13)
               then skip_ws tl else s
  | [] => []
  end.

Fixpoint read_string (s acc : jstring) : option (jstring * jstring) :=
  match s with
  | [] => None
  | c :: tl =>
      if c =? 34 then Some (rev acc, tl)
      else if (c =? 92) || (c <? 32) then None
      else read_string tl (c :: acc)
  end.

Fixpoint read_value (fuel : nat) (s : jstring) : option (json * jstring) :=
  match fuel with
  | O => None
  | S n =>
      match skip_ws s with
      | 34 :: tl =>
          match read_string tl [] with
          | Some (x, r) => Some (JStr x, r)
          | None => None
          end
      | 110 :: 117 :: 108 :: 108 :: tl => Some (JNull, tl)
      | 116 :: 114 :: 117 :: 101 :: tl => Some (JBool true, tl)
      | 102 :: 97 :: 108 :: 115 :: 101 :: tl => Some (JBool false, tl)
      | 91 :: tl =>
          match skip_ws tl with
          | 93 :: r => Some (JArr [], r)
          | _ =>
              match read_elements n tl with
              | Some (l, r) => Some (JArr l, r)
              | None => None
              end
          end
      | 123 :: tl =>
          match skip_ws tl with
          | 125 :: r => Some (JObj [], r)
          | _ =>
              match read_members n tl with
              | Some (l, r) => Some (JObj l, r)
              | None => None
              end
          end
      | _ => None
      end
  end
with read_elements (fuel : nat) (s : jstring) : option (list json * jstring) :=
  match fuel with
  | O => None
  | S n =>
      match read_value n s with
      | Some (v, r) =>
          match skip_ws r with
          | 44 :: r1 =>
              match read_elements n r1 with
              | Some (l, r2) => Some (v :: l, r2)
              | None => None
              end
          | 93 :: r1 => Some ([v], r1)
          | _ => None
          end
      | None => None
      end
  end
with read_members (fuel : nat) (s : jstring)
  : option (list (jstring * json) * jstring) :=
  match fuel with
  | O => None
  | S n =>
      match skip_ws s with
      | 34 :: tl =>
          match read_string tl [] with
          | Some (k, r) =>
              match skip_ws r with
              | 58 :: r1 =>
                  match read_value n r1 with
                  | Some (v, r2) =>
                      match skip_ws r2 with
                      | 44 :: r3 =>
                          match read_members n r3 with
                          | Some (l, r4) => Some ((k, v) :: l, r4)
                          | None => None
                          end
                      | 125 :: r3 => Some ([(k, v)], r3)
                      | _ => None
                      end
                  | None => None
                  end
              | _ => None
              end
          | None => None
          end
      | _ => None
      end
  end.

Definition read_json (s : jstring) : option json :=
  match read_value (S (length s)) s with
  | Some (j, r) => match skip_ws r with [] => Some j | _ => None end
  | None => None
  end.

(** [toLowerCase] on ASCII letters. *)
Definition ascii_lower (s : jstring) : jstring :=
  map (fun c => if between 65 90 c then c + 32 else c) s.

(** A model that answers every request with the same response, an
    embedder that returns the empty vector, and a store that returns no
    rows; the world counts the requests made. *)
Definition canned_model (r : LLMResponse) (ms : list message) (t : tool) (w : nat)
  : result LLMResponse * nat := (Ok r, S w).

Definition null_embedder (s : jstring) (w : nat) : result (list R) * nat :=
  (Ok [], S w).

Definition empty_store_query (q : Cypher.query) (ps : GraphStore.params) (w : nat)
  : result (list record) * nat := (Ok [], S w).

(** The triple alice -[works_at]-> acme, and the request that adds it
    when neither end resolves. *)
Definition alice_works_at_acme : EntityTriple :=
  Triple (js "alice") (js "works_at") (js "acme").

Definition alice_request : Cypher.query * GraphStore.params :=
  add_request alice_works_at_acme (VStr (js "alice"))
    [(js "alice", js "person")] [] [] [] [].

(** A store that never finds a node by its identifier. *)
Definition no_id_matches (id : N) (v : value) : bool := false.

(** A response whose only tool call carries arguments that are not JSON. *)
Definition malformed_response (tool_name : string) : LLMResponse :=
  Response [] (js "assistant") (Some [Call (js tool_name) (js "{not json")]).

Definition alice : filters := {[ "userId" := VStr (js "alice") ]}.

Definition quoted (s : string) : jstring := [34] ++ js s ++ [34].

(** [{"entities":[{"entity":"Alice","entity_type":"person"}]}] *)
Definition alice_entities_text : jstring :=
  js "{" ++ quoted "entities" ++ js ":[{" ++ quoted "entity" ++ js ":"
    ++ quoted "Alice" ++ js "," ++ quoted "entity_type" ++ js ":"
    ++ quoted "person" ++ js "}]}".

Definition alice_entities_response : LLMResponse :=
  Response [] (js "assistant")
    (Some [Call (js "extract_entities") alice_entities_text]).

(** A store that answers every query with the one edge
    alice -[works_at]-> acme. *)
Definition one_edge_store (q : Cypher.query) (ps : GraphStore.params) (w : nat)
  : result (list record) * nat :=
  (Ok [ <["source" := VStr (js "alice")]>
          (<["relationship" := VStr (js "works_at")]>
             (<["destination" := VStr (js "acme")]> ∅)) ], S w).

(** ** Shapes of the data the engine handles *)

(** No code unit of [s] is a space. *)
Definition spaceless (s : jstring) : bool :=
  forallb (fun c => negb (c =? 32)) s.

Definition triple_spaceless (t : EntityTriple) : bool :=
  spaceless (source t) && spaceless (relationship t) && spaceless (destination t).

Definition is_string (x : option json) : bool :=
  match x with Some (JStr _) => true | _ => false end.

(** An object whose [source], [relationship] and [destination] are
    strings. *)
Definition is_triple_json (item : json) : bool :=
  match item with
  | JObj fs =>
      is_string (field (js "source") fs)
      && is_string (field (js "relationship") fs)
      && is_string (field (js "destination") fs)
  | _ => false
  end.

(** The triple a hit of the recall phase stands for. *)
Definition triple_of_item (item : SearchOutputItem) : EntityTriple :=
  Triple (item_source item) (item_relationship item) (item_destination item).

(** A model that answers by the tool it is offered. *)
Definition model_by_tool (answer : tool -> LLMResponse) (ms : list message)
    (t : tool) (w : nat) : result LLMResponse * nat := (Ok (answer t), S w).

(** A response without tool calls. *)
Definition no_tool_calls : LLMResponse := Response [] (js "assistant") None.

(** [{"entities":[{"entity":"Alice"}]}]: an entity without a type. *)
Definition untyped_entity_text : jstring :=
  js "{" ++ quoted "entities" ++ js ":[{" ++ quoted "entity" ++ js ":"
    ++ quoted "Alice" ++ js "}]}".

Definition untyped_entity_response : LLMResponse :=
  Response [] (js "assistant")
    (Some [Call (js "extract_entities") untyped_entity_text]).

(** [{"source":"Alice Smith","relationship":"works at","destination":"Acme"}] *)
Definition works_at_text : jstring :=
  js "{" ++ quoted "source" ++ js ":" ++ quoted "Alice Smith" ++ js ","
    ++ quoted "relationship" ++ js ":" ++ quoted "works at" ++ js ","
    ++ quoted "destination" ++ js ":" ++ quoted "Acme" ++ js "}".

(** [{"entities":[<works_at_text>]}] *)
Definition works_at_relations_text : jstring :=
  js "{" ++ quoted "entities" ++ js ":[" ++ works_at_text ++ js "]}".

(** A model that names the entity Alice, relates Alice Smith to Acme and
    asks for no deletion. *)
Definition works_at_answers (t : tool) : LLMResponse :=
  match t with
  | EXTRACT_ENTITIES_TOOL => alice_entities_response
  | RELATIONS_TOOL =>
      Response [] (js "assistant")
        (Some [Call (js "establish_relationships") works_at_relations_text])
  | DELETE_MEMORY_TOOL_GRAPH => no_tool_calls
  end.

(** A store that holds one node, of the tenant bob. *)
Definition bob_node : node :=
  Node 0 [js "person"]
    (<["name" := VStr (js "bob")]> (<["user_id" := VStr (js "bob")]> ∅)).

Definition bob_store : store := Store [bob_node] [] 1 VNull.

(** ** What a triple looks like once it is stored *)

(** A node that stands for the entity [name] of the tenant [u], with
    the label [label]. *)
Definition named_as (name : jstring) (u : value) (label : jstring) (n : node)
  : Prop :=
  label ∈ node_labels n /\
  node_props n !! "name" = Some (VStr name) /\
  exists v, node_props n !! "user_id" = Some v /\ value_eqb v u = true.

(** An end of the relationship [_addEntities] asked for: the node the
    store finds under the identifier the search returned, when the
    search returned one, and otherwise a node that stands for the
    entity. *)
Definition end_ok (id_matches : N -> value -> bool) (u : value)
    (name label : jstring) (ids : list jstring) (n : node) : Prop :=
  match ids with
  | [] => named_as name u label n
  | _ :: _ => id_matches (node_id n) (first_id ids) = true
  end.

(** The store holds a relationship of type [ty] from a node that
    satisfies [phi_a] to a node that satisfies [phi_c]. *)
Definition stored (phi_a phi_c : node -> Prop) (ty : jstring) (s : store) : Prop :=
  exists a c e,
    a ∈ nodes s /\ c ∈ nodes s /\ e ∈ rels s /\
    rel_type e = ty /\ rel_src e = node_id a /\ rel_dst e = node_id c /\
    phi_a a /\ phi_c c.

(** ** Collaborators that count the calls made to them *)

Record calls := Calls {
  asked : nat;      (* requests to the model *)
  embedded : nat;   (* texts embedded *)
  queried : nat     (* queries sent to the store *)
}.

Definition counting_model (answer : list message -> tool -> LLMResponse)
    (ms : list message) (t : tool) (w : calls) : result LLMResponse * calls :=
  (Ok (answer ms t), Calls (S (asked w)) (embedded w) (queried w)).

Definition counting_embedder (vec : jstring -> list R) (s : jstring) (w : calls)
  : result (list R) * calls :=
  (Ok (vec s), Calls (asked w) (S (embedded w)) (queried w)).

Definition counting_store (rows : Cypher.query -> GraphStore.params -> list record)
    (q : Cypher.query) (ps : GraphStore.params) (w : calls)
  : result (list record) * calls :=
  (Ok (rows q ps), Calls (asked w) (embedded w) (S (queried w))).

(** The calls made between two states of the counters. *)
Definition spent (a e q : nat) (w w' : calls) : Prop :=
  asked w' = (asked w + a)%nat /\ embedded w' = (embedded w + e)%nat
  /\ queried w' = (queried w + q)%nat.

End FalkorMemoryGraph.

(* ------------------------------------------------------------------ *)
(** * src/FalkorMemoryGraph.ts: the constructor *)
(* ------------------------------------------------------------------ *)

Module Construction.

Section WithFactories.
(** What mem0ai provides: the options a provider takes, the embedders
    and models its factories build.  A factory may refuse a provider. *)
Variable Options : Type.
Variable Embedder : Type.
Variable LLM : Type.
Variable EmbedderFactory_create : jstring -> Options -> result Embedder.
Variable LLMFactory_create : jstring -> Options -> result LLM.

Record ProviderConfig := Provider {
  provider : jstring;
  options : Options
}.

(** [FalkorGraphStoreConfig]; the constructor tests [config] and
    [llm] for presence. *)
Record FalkorGraphStoreConfig := GraphStoreConfig {
  store_config : option FalkorDBGraph.FalkorDBConfig;
  store_llm : option ProviderConfig;
  store_customPrompt : option jstring
}.

(** The fields of [FalkorMemoryConfig] the constructor reads. *)
Record FalkorMemoryConfig := MemoryConfig {
  embedder : ProviderConfig;
  llm : option ProviderConfig;
  customPrompt : option jstring;
  graphStore : option FalkorGraphStoreConfig
}.

Record FalkorMemoryGraph := MemoryGraph {
  config : FalkorMemoryConfig;
  graph : FalkorDBGraph.t;
  embeddingModel : Embedder;
  the_llm : LLM;
  structuredLlm : LLM;
  threshold : R
}.

(** [x?.provider], when it is a non-empty string. *)
Definition provider_of (x : option ProviderConfig) : option jstring :=
  match x with
  | Some c => match provider c with [] => None | _ :: _ => Some (provider c) end
  | None => None
  end.

(** The provider the two models are created for. *)
Definition llmProvider (cfg : FalkorMemoryConfig) : jstring :=
  let llmProvider := js "openai" in
  let llmProvider := default llmProvider (provider_of (llm cfg)) in
  default llmProvider
    (provider_of (match graphStore cfg with
                  | Some gs => store_llm gs
                  | None => None
                  end)).

(** [new FalkorMemoryGraph(config)] *)
Definition new (cfg : FalkorMemoryConfig) : result FalkorMemoryGraph :=
  match match graphStore cfg with
        | Some gs => store_config gs
        | None => None
        end with
  | None => Throw (Exn (js "Error") (js "FalkorDB configuration is missing"))
  | Some db =>
      let graph := FalkorDBGraph.new db in
      match EmbedderFactory_create (provider (embedder cfg))
              (options (embedder cfg)) with
      | Throw e => Throw e
      | Ok embeddingModel =>
          match llm cfg with
          | None => Throw TypeError
          | Some l =>
              match LLMFactory_create (llmProvider cfg) (options l) with
              | Throw e => Throw e
              | Ok m1 =>
                  match LLMFactory_create (llmProvider cfg) (options l) with
                  | Throw e => Throw e
                  | Ok m2 =>
                      Ok (MemoryGraph cfg graph embeddingModel m1 m2 0.7%R)
                  end
              end
          end
      end
  end.

(** The configuration with other options under [graphStore.llm]. *)
Definition with_store_llm_options (o : Options) (cfg : FalkorMemoryConfig)
  : FalkorMemoryConfig :=
  MemoryConfig (embedder cfg) (llm cfg) (customPrompt cfg)
    (match graphStore cfg with
     | Some gs =>
         Some (GraphStoreConfig (store_config gs)
                 (match store_llm gs with
                  | Some l => Some (Provider (provider l) o)
                  | None => None
                  end)
                 (store_customPrompt gs))
     | None => None
     end).
End WithFactories.

(** Factories that build the pair they are given. *)
Definition echo_factory (p : jstring) (o : jstring) : result (jstring * jstring) :=
  Ok (p, o).

(** A configuration whose graph store names its own model. *)
Definition two_models_config : FalkorMemoryConfig jstring :=
  MemoryConfig jstring
    (Provider jstring (js "openai") (js "embedder options"))
    (Some (Provider jstring (js "openai") (js "main options")))
    None
    (Some (GraphStoreConfig jstring (Some FalkorDBGraph.default_config)
             (Some (Provider jstring (js "anthropic") (js "graph options")))
             None)).

End Construction.

(* ------------------------------------------------------------------ *)
(** * demo/inspect-graphs.ts *)
(* ------------------------------------------------------------------ *)

Module InspectGraphs.

Section WithDb.
(** The connection, and [db.list()]. *)
Variable db : Type.
Variable db_list : db -> result (list jstring) * db.

(** [getAllMem0Graphs(db, prefix = "mem0")] *)
Definition getAllMem0Graphs (prefix : jstring) (d : db)
  : result (list jstring) * db :=
  match db_list d with
  | (Ok allGraphs, d1) =>
      (Ok (List.filter (fun g => starts_with N.eqb (prefix ++ js "_") g)
             allGraphs), d1)
  | (Throw e, d1) => (Throw e, d1)
  end.
End WithDb.

(** [extractUserId(graphName, prefix = "mem0")] *)
Definition extractUserId (graphName prefix : jstring) : jstring :=
  let p := prefix ++ js "_" in
  if starts_with N.eqb p graphName then skipn (length p) graphName
  else graphName.

(** A server that holds the graphs given. *)
Definition list_of (graphs : list jstring) (d : unit)
  : result (list jstring) * unit := (Ok graphs, d).

End InspectGraphs.

(* ================================================================== *)
(** * Properties *)
(* ================================================================== *)

Import Js Regex.

Module RegexFacts.

(** ** Continuations that agree give the same match *)

Lemma star_loop_ext body body' g k k' n st :
  (forall c c' s, (forall s', c s' = c' s') -> body c s = body' c' s) ->
  (forall s, k s = k' s) ->
  star_loop body g k n st = star_loop body' g k' n st.
Proof.
  intros Hb Hk. revert st. induction n as [|n IH]; intros st; simpl; [apply Hk|].
  assert (E : body (fun st' => if (length (rest st') <? length (rest st))%nat
                               then star_loop body g k n st' else None) st
            = body' (fun st' => if (length (rest st') <? length (rest st))%nat
                                then star_loop body' g k' n st' else None) st).
  { apply Hb. intros s'. destruct (_ <? _)%nat; [apply IH | reflexivity]. }
  rewrite E, Hk. reflexivity.
Qed.

Lemma rmatch_ext r : forall k k' st,
  (forall s, k s = k' s) -> rmatch r k st = rmatch r k' st.
Proof.
  induction r as [|p|r1 IH1 r2 IH2|r1 IH1 r2 IH2|g r1 IH1|i r1 IH1|];
    intros k k' st Hk; simpl.
  - apply Hk.
  - destruct (rest st) as [|c tl]; [reflexivity|]. destruct (p c); [apply Hk | reflexivity].
  - apply IH1. intros s. apply IH2, Hk.
  - rewrite (IH1 k k' st Hk), (IH2 k k' st Hk). reflexivity.
  - apply star_loop_ext; [|exact Hk]. intros c c' s Hc. apply IH1, Hc.
  - apply IH1. intros s. apply Hk.
  - destruct (xorb _ _); [apply Hk | reflexivity].
Qed.

(** ** A run whose continuation always fails, fails *)

Lemma rmatch_none r : forall s, rmatch r (fun _ => None) s = None.
Proof.
  induction r as [|p|r1 IH1 r2 IH2|r1 IH1 r2 IH2|g r1 IH1|i r1 IH1|];
    intros s; simpl; auto.
  - destruct (rest s) as [|c tl]; auto. destruct (p c); auto.
  - erewrite rmatch_ext; [apply IH1|]. intros; apply IH2.
  - rewrite IH1, IH2. reflexivity.
  - generalize (length (rest s)). intros n. revert s.
    induction n as [|n IHn]; intros s; simpl; auto.
    erewrite (rmatch_ext r1 _ (fun _ => None)).
    + rewrite IH1. destruct g; reflexivity.
    + intros s'. destruct (_ <? _)%nat; auto.
  - destruct (xorb _ _); auto.
Qed.

(** ** A quantifier never needs more iterations than code units left *)

Lemma star_loop_done r g k n st :
  length (rest st) = 0%nat ->
  star_loop (rmatch r) g k n st = k st.
Proof.
  intros H0. destruct n as [|n]; [reflexivity|]. simpl.
  erewrite (rmatch_ext r _ (fun _ => None)).
  - rewrite rmatch_none. destruct g; [reflexivity | destruct (k st); reflexivity].
  - intros s'. destruct (Nat.ltb_spec (length (rest s')) (length (rest st)));
      [lia | reflexivity].
Qed.

Lemma star_loop_fuel r g k : forall n m st,
  (length (rest st) <= n)%nat -> (length (rest st) <= m)%nat ->
  star_loop (rmatch r) g k n st = star_loop (rmatch r) g k m st.
Proof.
  induction n as [|n IH]; intros m st Hn Hm.
  - rewrite (star_loop_done r g k m) by lia. reflexivity.
  - destruct m as [|m].
    + rewrite (star_loop_done r g k (S n)) by lia. reflexivity.
    + simpl.
      erewrite (rmatch_ext r _ (fun st' => if (length (rest st') <? length (rest st))%nat
                                  then star_loop (rmatch r) g k m st' else None)).
      * reflexivity.
      * intros s'. destruct (Nat.ltb_spec (length (rest s')) (length (rest st))); [|reflexivity].
        apply IH; lia.
Qed.

(** ** Quantified classes: one equation per shape of the input *)

Lemma star_chr_nil g p k pv cs :
  rmatch (Star g (Chr p)) k (MState pv [] cs) = k (MState pv [] cs).
Proof. reflexivity. Qed.

Lemma star_chr_cons g p k pv c tl cs :
  rmatch (Star g (Chr p)) k (MState pv (c :: tl) cs) =
  if g then
    if p c then
      match rmatch (Star g (Chr p)) k (MState (Some c) tl cs) with
      | Some x => Some x
      | None => k (MState pv (c :: tl) cs)
      end
    else k (MState pv (c :: tl) cs)
  else
    match k (MState pv (c :: tl) cs) with
    | Some x => Some x
    | None => if p c then rmatch (Star g (Chr p)) k (MState (Some c) tl cs) else None
    end.
Proof.
  cbn [rmatch rest length star_loop caps].
  destruct (Nat.ltb_spec (length tl) (S (length tl))) as [_|]; [|lia].
  destruct g; destruct (p c); reflexivity.
Qed.

Lemma after_cons pv c w : after pv (c :: w) = after (Some c) w.
Proof.
  unfold after. simpl. destruct (rev w) as [|x l] eqn:E; simpl; [reflexivity|reflexivity].
Qed.

Lemma after_app pv w c : after pv (w ++ [c]) = Some c.
Proof. unfold after. rewrite rev_app_distr. reflexivity. Qed.

(** A greedy class quantifier reads a whole run when what follows succeeds. *)
Lemma star_greedy_run p k x : forall w pv tl cs,
  forallb p w = true -> stops p tl = true ->
  k (MState (after pv w) tl cs) = Some x ->
  rmatch (Star true (Chr p)) k (MState pv (w ++ tl) cs) = Some x.
Proof.
  induction w as [|c w IH]; intros pv tl cs Hw Hs Hk.
  - simpl app. destruct tl as [|c tl]; [rewrite star_chr_nil; exact Hk|].
    rewrite star_chr_cons. simpl in Hs. apply negb_true_iff in Hs. rewrite Hs. exact Hk.
  - simpl in Hw. apply andb_prop in Hw as [Hc Hw].
    simpl app. rewrite star_chr_cons, Hc.
    rewrite (IH (Some c) tl cs Hw Hs); [reflexivity|].
    rewrite <- (after_cons pv). exact Hk.
Qed.

(** A lazy any-character quantifier stops at the first position where
    what follows succeeds. *)
Lemma star_lazy_run k x : forall w pv tl cs,
  (forall w1 c w2, w = w1 ++ c :: w2 ->
     k (MState (after pv w1) (c :: w2 ++ tl) cs) = None) ->
  k (MState (after pv w) tl cs) = Some x ->
  rmatch (Star false (Chr (fun _ => true))) k (MState pv (w ++ tl) cs) = Some x.
Proof.
  induction w as [|c w IH]; intros pv tl cs Hn Hk.
  - simpl app. destruct tl as [|c tl]; [rewrite star_chr_nil; exact Hk|].
    rewrite star_chr_cons. unfold after in Hk; simpl in Hk. rewrite Hk. reflexivity.
  - simpl app. rewrite star_chr_cons.
    pose proof (Hn [] c w eq_refl) as H0. unfold after in H0; simpl in H0.
    rewrite H0. apply IH.
    + intros w1 c' w2 E. rewrite <- (after_cons pv).
      apply (Hn (c :: w1) c' w2). rewrite E. reflexivity.
    + rewrite <- (after_cons pv). exact Hk.
Qed.

(** ** Captures do not influence whether a run succeeds *)

Lemma rmatch_pos r : forall k k' st st',
  same_pos st st' ->
  (forall s s', same_pos s s' -> k s = None <-> k' s' = None) ->
  rmatch r k st = None <-> rmatch r k' st' = None.
Proof.
  induction r as [|p|r1 IH1 r2 IH2|r1 IH1 r2 IH2|g r1 IH1|i r1 IH1|];
    intros k k' st st' [Hp Hr] Hk; simpl.
  - apply Hk. split; assumption.
  - rewrite <- Hr. destruct (rest st) as [|c tl]; [tauto|].
    destruct (p c); [|tauto]. apply Hk. split; reflexivity.
  - apply IH1; [split; assumption|]. intros s s' Hs. apply IH2; assumption.
  - pose proof (IH1 k k' st st' (conj Hp Hr) Hk) as H1.
    pose proof (IH2 k k' st st' (conj Hp Hr) Hk) as H2.
    destruct (rmatch r1 k st), (rmatch r1 k' st'); try tauto;
      destruct H1 as [H1a H1b]; try (specialize (H1a eq_refl)); try (specialize (H1b eq_refl));
      discriminate.
  - rewrite <- Hr. generalize (length (rest st)). intros n.
    revert st st' Hp Hr. induction n as [|n IHn]; intros st st' Hp Hr; simpl.
    + apply Hk. split; assumption.
    + assert (Hb : rmatch r1 (fun s => if (length (rest s) <? length (rest st))%nat
                                       then star_loop (rmatch r1) g k n s else None) st = None
               <-> rmatch r1 (fun s => if (length (rest s) <? length (rest st'))%nat
                                       then star_loop (rmatch r1) g k' n s else None) st' = None).
      { apply IH1; [split; assumption|]. intros s s' [Hsp Hsr].
        rewrite <- Hr, <- Hsr. destruct (_ <? _)%nat; [|tauto]. apply IHn; assumption. }
      pose proof (Hk st st' (conj Hp Hr)) as Hk0.
      destruct g.
      * destruct (rmatch r1 _ st), (rmatch r1 _ st'); try tauto;
          destruct Hb as [Ha Hb]; try (specialize (Ha eq_refl)); try (specialize (Hb eq_refl));
          discriminate.
      * destruct (k st), (k' st'); try tauto;
          destruct Hk0 as [Ha Hb']; try (specialize (Ha eq_refl)); try (specialize (Hb' eq_refl));
          discriminate.
  - apply IH1; [split; assumption|]. intros s s' [Hsp Hsr].
    apply Hk. unfold set_cap; split; simpl; assumption.
  - unfold word_before, word_after. rewrite <- Hp, <- Hr.
    destruct (xorb _ _); [|tauto]. apply Hk. split; assumption.
Qed.

(** A failed attempt stays failed whatever was captured before. *)
Lemma match_at_none_caps r pv s cs :
  match_at r pv s = None -> rmatch r Some (MState pv s cs) = None.
Proof.
  intros H. apply (rmatch_pos r Some Some (MState pv s [])); [split; reflexivity| |exact H].
  intros; split; discriminate.
Qed.

Lemma no_match_within_spec r : forall e pv tl,
  no_match_within r pv e tl = true ->
  forall w1 c w2, e = w1 ++ c :: w2 ->
    match_at r (after pv w1) (c :: w2 ++ tl) = None.
Proof.
  induction e as [|c0 e IH]; intros pv tl H w1 c w2 E.
  - destruct w1; discriminate.
  - simpl in H. destruct (match_at r pv (c0 :: e ++ tl)) eqn:M; [discriminate|].
    destruct w1 as [|a w1]; simpl in E; injection E as -> E.
    + subst e. exact M.
    + rewrite after_cons. apply (IH (Some a) tl H w1 c w2 E).
Qed.

(** ** The global replace *)

Section ReplaceFacts.
Context {St : Type}.
Variable r : regex.
Variable f : St -> list (nat * jstring) -> jstring * St.

Lemma replace_loop_fuel : forall n m pv s acc,
  (length s < n)%nat -> (length s < m)%nat ->
  replace_loop r f n pv s acc = replace_loop r f m pv s acc.
Proof.
  induction n as [|n IH]; intros m pv s acc Hn Hm; [lia|].
  destruct m as [|m]; [lia|]. simpl.
  destruct (match_at r pv s) as [st'|].
  - destruct (f acc (caps st')) as [rep acc1].
    destruct (Nat.ltb_spec (length (rest st')) (length s)).
    + rewrite (IH m) by lia. reflexivity.
    + destruct s as [|c tl]; [reflexivity|]. simpl in *.
      rewrite (IH m) by lia. reflexivity.
  - destruct s as [|c tl]; [reflexivity|]. simpl in *.
    rewrite (IH m) by lia. reflexivity.
Qed.

(** One step of the scan at a position without a match. *)
Lemma replace_from_skip pv c tl acc :
  match_at r pv (c :: tl) = None ->
  replace_from r f pv (c :: tl) acc =
  (c :: fst (replace_from r f (Some c) tl acc),
   snd (replace_from r f (Some c) tl acc)).
Proof.
  intros M. unfold replace_from. simpl length.
  remember (S (length tl)) as n eqn:En. simpl. rewrite M.
  destruct (replace_loop r f n (Some c) tl acc); reflexivity.
Qed.

(** One step of the scan at a match that reads something. *)
Lemma replace_from_match pv s acc st' :
  match_at r pv s = Some st' ->
  (length (rest st') < length s)%nat ->
  replace_from r f pv s acc =
  (fst (f acc (caps st'))
     ++ fst (replace_from r f (prev st') (rest st') (snd (f acc (caps st')))),
   snd (replace_from r f (prev st') (rest st') (snd (f acc (caps st'))))).
Proof.
  intros M L. unfold replace_from.
  rewrite (replace_loop_fuel (S (length (rest st'))) (length s)) by lia.
  remember (length s) as n eqn:En. simpl. rewrite M.
  destruct (f acc (caps st')) as [rep acc1]. simpl fst; simpl snd.
  destruct (Nat.ltb_spec (length (rest st')) (length s)); [|lia].
  destruct (replace_loop r f n (prev st') (rest st') acc1); reflexivity.
Qed.

Lemma replace_from_nil pv acc :
  match_at r pv [] = None -> replace_from r f pv [] acc = ([], acc).
Proof. intros M. unfold replace_from. simpl. rewrite M. reflexivity. Qed.

(** A text without any match is returned as it is. *)
Lemma replace_from_no_match : forall s pv acc,
  has_match r pv s = false -> replace_from r f pv s acc = (s, acc).
Proof.
  induction s as [|c tl IH]; intros pv acc H; simpl in H.
  - destruct (match_at r pv []) eqn:M; [discriminate|]. apply replace_from_nil, M.
  - destruct (match_at r pv (c :: tl)) eqn:M; [discriminate|].
    rewrite replace_from_skip by exact M. rewrite IH by exact H. reflexivity.
Qed.

(** A prefix inside which no match starts is copied. *)
Lemma replace_from_prefix : forall pre pv s acc,
  no_match_within r pv pre s = true ->
  replace_from r f pv (pre ++ s) acc =
  (pre ++ fst (replace_from r f (after pv pre) s acc),
   snd (replace_from r f (after pv pre) s acc)).
Proof.
  induction pre as [|c pre IH]; intros pv s acc H.
  - simpl. unfold after; simpl. destruct (replace_from r f pv s acc); reflexivity.
  - simpl in H. destruct (match_at r pv (c :: pre ++ s)) eqn:M; [discriminate|].
    simpl app. rewrite replace_from_skip by exact M.
    rewrite IH by exact H. rewrite after_cons. reflexivity.
Qed.

(** What holds of the replacer's state before the scan and is kept by
    every call of the replacer holds after it. *)
Lemma replace_loop_inv (P : St -> Prop) :
  (forall a cs, P a -> P (snd (f a cs))) ->
  forall n pv s acc, P acc -> P (snd (replace_loop r f n pv s acc)).
Proof.
  intros Hf. induction n as [|n IH]; intros pv s acc HP; simpl; [exact HP|].
  destruct (match_at r pv s) as [st'|].
  - pose proof (Hf acc (caps st') HP) as H1.
    destruct (f acc (caps st')) as [rep acc1]. simpl in H1.
    destruct (_ <? _)%nat.
    + specialize (IH (prev st') (rest st') acc1 H1).
      destruct (replace_loop r f n _ _ acc1); exact IH.
    + destruct s as [|c tl]; [exact H1|].
      specialize (IH (Some c) tl acc1 H1).
      destruct (replace_loop r f n _ _ acc1); exact IH.
  - destruct s as [|c tl]; [exact HP|].
    specialize (IH (Some c) tl acc HP).
    destruct (replace_loop r f n _ _ acc); exact IH.
Qed.
End ReplaceFacts.

(** ** Literals *)

Lemma rmatch_lit f : forall l k st,
  l <> [] ->
  rmatch (seqs (map (fun a => Chr (f a)) l)) k st =
  if starts_with f l (rest st)
  then k (MState (after (prev st) (firstn (length l) (rest st)))
                 (skipn (length l) (rest st)) (caps st))
  else None.
Proof.
  induction l as [|a l IH]; intros k st Hl; [congruence|].
  destruct l as [|b l].
  - cbn [map seqs rmatch starts_with length]. destruct st as [pv s cs]. cbn [rest caps prev].
    destruct s as [|c tl]; [reflexivity|].
    destruct (f a c); [|reflexivity]. simpl. destruct tl; reflexivity.
  - change (seqs (map (fun a0 => Chr (f a0)) (a :: b :: l)))
      with (Seq (Chr (f a)) (seqs (map (fun a0 => Chr (f a0)) (b :: l)))).
    cbn [rmatch]. destruct st as [pv s cs]. cbn [rest caps prev].
    destruct s as [|c tl]; [reflexivity|].
    change (starts_with f (a :: b :: l) (c :: tl))
      with (f a c && starts_with f (b :: l) tl).
    destruct (f a c); [|reflexivity].
    rewrite IH by congruence. cbn [rest caps prev andb].
    destruct (starts_with f (b :: l) tl) eqn:E; [|reflexivity].
    f_equal. f_equal.
    change (firstn (length (a :: b :: l)) (c :: tl))
      with (c :: firstn (length (b :: l)) tl).
    rewrite after_cons. reflexivity.
Qed.

Lemma consumed_app pv pv' w tl cs cs' :
  consumed (MState pv (w ++ tl) cs) (MState pv' tl cs') = w.
Proof.
  unfold consumed. cbn [rest]. rewrite length_app.
  replace (length w + length tl - length tl)%nat with (length w) by lia.
  rewrite firstn_app, Nat.sub_diag, firstn_all. simpl. apply app_nil_r.
Qed.

(** ** Occurrences of a literal a pattern starts with *)

Lemma starts_with_app f : forall needle p2 s,
  starts_with f needle (p2 ++ s) = true ->
  starts_with f needle p2 = true \/
  ((length p2 < length needle)%nat /\
   starts_with f (skipn (length p2) needle) s = true).
Proof.
  induction needle as [|a needle IH]; intros p2 s H; [left; reflexivity|].
  destruct p2 as [|c p2].
  - right. split; [simpl; lia | exact H].
  - simpl in H. apply andb_prop in H as [Hc H].
    destruct (IH p2 s H) as [H1 | [H1 H2]].
    + left. simpl. rewrite Hc, H1. reflexivity.
    + right. split; [simpl; lia | exact H2].
Qed.

Lemma straddle_free_spec f needle s j :
  straddle_free f needle s = true ->
  (1 <= j < length needle)%nat ->
  starts_with f (skipn j needle) s = false.
Proof.
  unfold straddle_free. rewrite forallb_forall. intros H Hj.
  apply negb_true_iff, H, in_seq. lia.
Qed.

Lemma no_match_within_of_contains r f needle :
  (forall pv s x, match_at r pv s = Some x -> starts_with f needle s = true) ->
  forall pre pv s,
    contains f needle pre = false -> straddle_free f needle s = true ->
    no_match_within r pv pre s = true.
Proof.
  intros Hr. induction pre as [|c pre IH]; intros pv s Hc Hs; [reflexivity|].
  cbn [no_match_within]. cbn [contains] in Hc.
  apply orb_false_iff in Hc as [Hc1 Hc2].
  destruct (match_at r pv ((c :: pre) ++ s)) eqn:M.
  - apply Hr in M. apply starts_with_app in M as [M | [M1 M2]]; [congruence|].
    rewrite (straddle_free_spec f needle s (length (c :: pre)) Hs) in M2;
      [discriminate | simpl in *; lia].
  - apply IH; assumption.
Qed.

(** ** Stepping a run that succeeds *)

Lemma rmatch_seq r1 r2 k st : rmatch (Seq r1 r2) k st = rmatch r1 (rmatch r2 k) st.
Proof. reflexivity. Qed.

Lemma rmatch_group i r k st :
  rmatch (Group i r) k st = rmatch r (fun st' => k (set_cap i (consumed st st') st')) st.
Proof. reflexivity. Qed.

Lemma rmatch_chr_cons p k pv c tl cs :
  rmatch (Chr p) k (MState pv (c :: tl) cs) =
  if p c then k (MState (Some c) tl cs) else None.
Proof. reflexivity. Qed.

Lemma rmatch_wordb k st :
  rmatch WordB k st = if xorb (word_before st) (word_after st) then k st else None.
Proof. reflexivity. Qed.

Lemma rmatch_alt r1 r2 k st :
  rmatch (Alt r1 r2) k st =
  match rmatch r1 k st with Some x => Some x | None => rmatch r2 k st end.
Proof. reflexivity. Qed.

Lemma chr_ok p k pv c tl cs x :
  p c = true -> k (MState (Some c) tl cs) = Some x ->
  rmatch (Chr p) k (MState pv (c :: tl) cs) = Some x.
Proof. intros Hp Hk. rewrite rmatch_chr_cons, Hp. exact Hk. Qed.

Lemma lit_ok f l k pv w tl cs x :
  l <> [] -> length l = length w -> starts_with f l w = true ->
  k (MState (after pv w) tl cs) = Some x ->
  rmatch (seqs (map (fun a => Chr (f a)) l)) k (MState pv (w ++ tl) cs) = Some x.
Proof.
  intros Hl Hlen Hs Hk. rewrite rmatch_lit by exact Hl. cbn [rest prev caps].
  assert (E : starts_with f l (w ++ tl) = true).
  { clear -Hlen Hs. revert w Hlen Hs. induction l as [|a l IH]; intros w Hlen Hs;
      [reflexivity|].
    destruct w as [|c w]; [discriminate|]. simpl in *.
    apply andb_prop in Hs as [-> Hs]. apply IH; [lia | exact Hs]. }
  rewrite E, Hlen, firstn_app, Nat.sub_diag, firstn_all, skipn_app, Nat.sub_diag,
    skipn_all.
  simpl. rewrite app_nil_r. exact Hk.
Qed.

Lemma wordb_ok k st x :
  xorb (word_before st) (word_after st) = true -> k st = Some x ->
  rmatch WordB k st = Some x.
Proof. intros H Hk. rewrite rmatch_wordb, H. exact Hk. Qed.

End RegexFacts.

Import Js Regex RegexFacts CypherTranslator.

Module CypherTranslatorFacts.

(** Literals are turned into their code units before lists are compared. *)
Ltac norm_js :=
  repeat match goal with
         | |- context [js ?s] =>
             let v := eval vm_compute in (js s) in change (js s) with v
         end.

Section WithRuntime.
Variable Number_toString : R -> jstring.

Lemma translateElementId_id q :
  has_match elementId_re None q = false -> translateElementId q = q.
Proof.
  intros H. unfold translateElementId, replace.
  rewrite replace_from_no_match by exact H. reflexivity.
Qed.

Lemma translateRound_id q :
  has_match round_re None q = false -> translateRound q = q.
Proof.
  intros H. unfold translateRound, replace.
  rewrite replace_from_no_match by exact H. reflexivity.
Qed.

Lemma translateApoc_id q p h :
  has_match apocPattern None q = false ->
  translateApocMergeRelationship Number_toString q p h = (q, h).
Proof.
  intros H. unfold translateApocMergeRelationship, replace.
  apply replace_from_no_match, H.
Qed.

(** The replacer only ever writes the object it was given. *)
Lemma apocReplacer_frame p h cs l :
  l <> p -> snd (apocReplacer Number_toString p h cs) !! l = h !! l.
Proof.
  intros Hl. unfold apocReplacer. simpl.
  destruct (truthy _); [|reflexivity].
  rewrite lookup_insert_ne by congruence. reflexivity.
Qed.

Lemma translateApoc_frame q p h l :
  l <> p ->
  snd (translateApocMergeRelationship Number_toString q p h) !! l = h !! l.
Proof.
  intros Hl. unfold translateApocMergeRelationship, replace, replace_from.
  apply (replace_loop_inv apocPattern (apocReplacer Number_toString p)
           (fun h' => h' !! l = h !! l)); [|reflexivity].
  intros a cs Ha. rewrite apocReplacer_frame by exact Hl. exact Ha.
Qed.

Lemma fresh_loc_not_in (h : heap) : h !! fresh (dom h) = None.
Proof. apply not_elem_of_dom, is_fresh. Qed.

(** C9: a query text in which none of the three patterns occurs (the
    elementId, round and APOC patterns match at no position) comes back
    unchanged from [translate], together with a parameter object that
    holds exactly the entries of the object passed in. *)
Theorem translate_passthrough (query : jstring) (p : loc) (h : heap) (m : params) :
  h !! p = Some m ->
  has_match elementId_re None query = false ->
  has_match round_re None query = false ->
  has_match apocPattern None query = false ->
  exists p' h',
    translate Number_toString query p h = (query, p', h') /\ h' !! p' = Some m.
Proof.
  intros Hp H1 H2 H3. unfold translate.
  rewrite translateElementId_id by exact H1.
  rewrite translateRound_id by exact H2.
  rewrite translateApoc_id by exact H3.
  eexists _, _. split; [reflexivity|].
  rewrite lookup_insert_eq, Hp. reflexivity.
Qed.

(** C10: [translate] never mutates the parameter object it is passed.
    It returns another object; afterwards the caller's object holds its
    original entries, and no object of the heap other than the returned
    one has changed. *)
Theorem translate_keeps_caller_params (query : jstring) (p : loc) (h : heap) (m : params) :
  h !! p = Some m ->
  exists q' p' h',
    translate Number_toString query p h = (q', p', h') /\
    p' <> p /\ h' !! p = Some m /\ (forall l, l <> p' -> h' !! l = h !! l).
Proof.
  intros Hp. unfold translate.
  set (p' := fresh (dom h)).
  set (h0 := <[p' := default ∅ (h !! p)]> h).
  set (q2 := translateRound (translateElementId query)).
  pose proof (translateApoc_frame q2 p' h0) as F.
  destruct (translateApocMergeRelationship Number_toString q2 p' h0) as [q' h'].
  simpl in F.
  assert (Hne : p' <> p).
  { intros E. pose proof (fresh_loc_not_in h) as N. fold p' in N. congruence. }
  exists q', p', h'. split; [reflexivity|]. split; [exact Hne|].
  assert (G : forall l, l <> p' -> h' !! l = h !! l).
  { intros l Hl. rewrite F by exact Hl. unfold h0.
    rewrite lookup_insert_ne by congruence. reflexivity. }
  split; [|exact G]. rewrite G by congruence. exact Hp.
Qed.

(** What the replacer returns for an object [obj] at [p]. *)
Lemma apocReplacer_eq p h obj cs :
  h !! p = Some obj ->
  let v := default VUndefined (obj !! cap 2 cs) in
  apocReplacer Number_toString p h cs =
  (js "MERGE (" ++ cap 1 cs ++ js ")-[" ++ cap 5 cs ++ js ":`"
     ++ (if truthy v then ToString Number_toString v else js "RELATED_TO")
     ++ js "`]->(" ++ cap 4 cs ++ js ")",
   if truthy v then <[p := delete (cap 2 cs) obj]> h else h).
Proof.
  intros Hp v. unfold apocReplacer. rewrite Hp. simpl default. fold v.
  destruct (truthy v); norm_js; repeat (rewrite <- app_assoc; cbn [app]);
    reflexivity.
Qed.

(** The third rewrite at its first match: the text before it is
    copied, the match is replaced, and the scan goes on behind it with
    the object as the replacer left it. *)
Theorem translateApoc_rewrites (pre m post : jstring) (p : loc) (h : heap)
    (obj : params) (st' : mstate) :
  h !! p = Some obj ->
  no_match_within apocPattern None pre (m ++ post) = true ->
  match_at apocPattern (after None pre) (m ++ post) = Some st' ->
  rest st' = post -> m <> [] ->
  let cs := caps st' in
  let v := default VUndefined (obj !! cap 2 cs) in
  let label := if truthy v then ToString Number_toString v else js "RELATED_TO" in
  let h1 := if truthy v then <[p := delete (cap 2 cs) obj]> h else h in
  let r := replace_from apocPattern (apocReplacer Number_toString p) (prev st') post h1 in
  translateApocMergeRelationship Number_toString (pre ++ m ++ post) p h =
  (pre ++ js "MERGE (" ++ cap 1 cs ++ js ")-[" ++ cap 5 cs ++ js ":`" ++ label
     ++ js "`]->(" ++ cap 4 cs ++ js ")" ++ fst r, snd r).
Proof.
  intros Hp Hpre Hm Hrest Hne cs v label h1 r.
  unfold translateApocMergeRelationship, replace.
  rewrite replace_from_prefix by exact Hpre.
  rewrite (replace_from_match _ _ _ _ _ st' Hm).
  2:{ rewrite Hrest, length_app. destruct m; [congruence|simpl; lia]. }
  rewrite (apocReplacer_eq p h obj (caps st') Hp). cbn [fst snd].
  rewrite Hrest. fold cs v label h1 r.
  repeat rewrite <- app_assoc. reflexivity.
Qed.
(** The rewrite never adds a property to the object it works on. *)
Lemma apocReplacer_absent p h cs (k : jstring) :
  (forall o, h !! p = Some o -> o !! k = None) ->
  forall o, snd (apocReplacer Number_toString p h cs) !! p = Some o -> o !! k = None.
Proof.
  intros H o. unfold apocReplacer. cbv zeta. cbn [snd].
  destruct (truthy _); [|apply H].
  rewrite lookup_insert_eq. intros [= <-].
  destruct (h !! p) as [o'|] eqn:E; simpl.
  - destruct (decide (cap 2 cs = k)) as [->|Hne];
      [apply lookup_delete_eq | rewrite lookup_delete_ne by exact Hne; apply (H o' eq_refl)].
  - destruct (decide (cap 2 cs = k)) as [->|Hne];
      [apply lookup_delete_eq | rewrite lookup_delete_ne by exact Hne; apply lookup_empty].
Qed.

End WithRuntime.

End CypherTranslatorFacts.

Import Js Regex RegexFacts CypherTranslator CypherTranslatorFacts.

Module RoundFacts.

Lemma is_digit_not_space c : is_digit c = true -> is_space c = false.
Proof.
  unfold is_digit, is_space, between. intros H.
  apply andb_prop in H as [H1 H2]. apply N.leb_le in H1, H2.
  repeat (apply orb_false_iff; split);
    try (apply andb_false_iff; (left; apply N.leb_gt; lia) || (right; apply N.leb_gt; lia));
    apply N.eqb_neq; lia.
Qed.

Lemma is_space_not_digit c : is_space c = true -> is_digit c = false.
Proof.
  intros H. destruct (is_digit c) eqn:E; [|reflexivity].
  apply is_digit_not_space in E. congruence.
Qed.

Lemma stops_app_run p q w tl :
  (forall c, q c = true -> p c = false) ->
  forallb q w = true -> stops p tl = true -> stops p (w ++ tl) = true.
Proof.
  intros Hpq Hw Ht. destruct w as [|c w]; [exact Ht|].
  simpl in *. apply andb_prop in Hw as [Hc _]. rewrite (Hpq c Hc). reflexivity.
Qed.

Lemma after_nonempty pv w c : after pv (w ++ [c]) = Some c.
Proof. apply after_app. Qed.

Lemma round_re_unfold :
  round_re =
  Seq WordB (Seq (lit "round") (Seq (Star true (Chr is_space)) (Seq (chr "(")
    (Seq (Group 1 (Star false (Chr (fun _ => true)))) round_tail)))).
Proof. reflexivity. Qed.

Lemma round_tail_unfold :
  round_tail =
  Seq (chr ",") (Seq (Star true (Chr is_space)) (Seq (Group 2 (Plus (Chr is_digit)))
    (Seq (Star true (Chr is_space)) (Seq (chr ")") (Seq (Star true (Chr is_space))
      (Seq (lit "AS") WordB)))))).
Proof. reflexivity. Qed.

Lemma chr_comma : chr "," = Chr (N.eqb 44). Proof. reflexivity. Qed.
Lemma chr_lpar : chr "(" = Chr (N.eqb 40). Proof. reflexivity. Qed.
Lemma chr_rpar : chr ")" = Chr (N.eqb 41). Proof. reflexivity. Qed.

(** The tail [, <digits> ) AS] read at its own position. *)
Lemma round_tail_match pv ws2 d ws3 ws4 post cs :
  forallb is_space ws2 = true -> forallb is_space ws3 = true ->
  forallb is_space ws4 = true ->
  d <> [] -> forallb is_digit d = true -> stops is_word post = true ->
  rmatch round_tail Some
    (MState pv (js "," ++ ws2 ++ d ++ ws3 ++ js ")" ++ ws4 ++ js "AS" ++ post) cs)
  = Some (MState (Some 83) post ((2%nat, d) :: cs)).
Proof.
  intros H2 H3 H4 Hd Hdd Hp. rewrite round_tail_unfold. norm_js. cbn [app].
  rewrite chr_comma, chr_rpar.
  rewrite rmatch_seq. apply chr_ok; [reflexivity|].
  rewrite rmatch_seq. apply (star_greedy_run is_space _ _ ws2); [exact H2| |].
  { destruct d as [|d0 d]; [congruence|]. simpl in Hdd. apply andb_prop in Hdd as [Hd0 _].
    simpl. rewrite (is_digit_not_space d0 Hd0). reflexivity. }
  destruct d as [|d0 d]; [congruence|]. simpl in Hdd. apply andb_prop in Hdd as [Hd0 Hdd].
  rewrite rmatch_seq, rmatch_group. unfold Plus. rewrite rmatch_seq.
  cbn [app]. apply chr_ok; [exact Hd0|].
  apply (star_greedy_run is_digit _ _ d); [exact Hdd| |].
  { apply (stops_app_run is_digit is_space); [apply is_space_not_digit|exact H3|reflexivity]. }
  cbv beta.
  change (d0 :: d ++ ws3 ++ 41 :: ws4 ++ 65 :: 83 :: post)
    with ((d0 :: d) ++ ws3 ++ 41 :: ws4 ++ 65 :: 83 :: post).
  rewrite consumed_app. unfold set_cap. cbn [prev rest caps].
  rewrite rmatch_seq. apply (star_greedy_run is_space _ _ ws3); [exact H3|reflexivity|].
  rewrite rmatch_seq. apply chr_ok; [reflexivity|].
  rewrite rmatch_seq. apply (star_greedy_run is_space _ _ ws4); [exact H4|reflexivity|].
  rewrite rmatch_seq. unfold lit.
  apply (lit_ok N.eqb (js "AS") _ _ [65; 83] post); [discriminate|reflexivity|reflexivity|].
  apply wordb_ok; [|reflexivity].
  unfold word_before, word_after. cbn [prev rest after rev app].
  destruct post as [|c post]; [reflexivity|]. simpl in Hp.
  apply negb_true_iff in Hp. rewrite Hp. reflexivity.
Qed.

Lemma round_needs_literal pv s x :
  match_at round_re pv s = Some x -> starts_with N.eqb (js "round") s = true.
Proof.
  unfold match_at. rewrite round_re_unfold, rmatch_seq, rmatch_wordb.
  destruct (xorb _ _); [|discriminate].
  rewrite rmatch_seq. unfold lit. rewrite rmatch_lit by discriminate.
  cbn [rest]. destruct (starts_with N.eqb (js "round") s); [reflexivity|discriminate].
Qed.

(** The whole pattern read at the start of [round ( e , d ) AS]. *)
Lemma round_match pv ws1 e ws2 d ws3 ws4 post :
  match pv with Some c => is_word c | None => false end = false ->
  forallb is_space ws1 = true -> forallb is_space ws2 = true ->
  forallb is_space ws3 = true -> forallb is_space ws4 = true ->
  no_match_within round_tail (Some 40) e
    (js "," ++ ws2 ++ d ++ ws3 ++ js ")" ++ ws4 ++ js "AS" ++ post) = true ->
  d <> [] -> forallb is_digit d = true -> stops is_word post = true ->
  match_at round_re pv
    (js "round" ++ ws1 ++ js "(" ++ e
       ++ js "," ++ ws2 ++ d ++ ws3 ++ js ")" ++ ws4 ++ js "AS" ++ post)
  = Some (MState (Some 83) post [(2%nat, d); (1%nat, e)]).
Proof.
  intros Hpv H1 H2 H3 H4 He Hd Hdd Hp.
  unfold match_at. rewrite round_re_unfold.
  set (T := js "," ++ ws2 ++ d ++ ws3 ++ js ")" ++ ws4 ++ js "AS" ++ post) in *.
  rewrite chr_lpar.
  rewrite rmatch_seq. apply wordb_ok.
  { unfold word_before, word_after. cbn [prev rest]. rewrite Hpv. reflexivity. }
  rewrite rmatch_seq. unfold lit.
  apply (lit_ok N.eqb (js "round") _ _ (js "round")); [discriminate|reflexivity|reflexivity|].
  rewrite rmatch_seq. apply (star_greedy_run is_space _ _ ws1); [exact H1|reflexivity|].
  rewrite rmatch_seq. change (js "(" ++ e ++ T) with (40 :: e ++ T).
  apply chr_ok; [reflexivity|].
  rewrite rmatch_seq, rmatch_group.
  apply star_lazy_run.
  - intros w1 c w2 E. unfold set_cap. cbn [prev rest caps].
    apply match_at_none_caps.
    apply (no_match_within_spec round_tail e (Some 40) T He w1 c w2 E).
  - rewrite consumed_app. unfold set_cap. cbn [prev rest caps].
    unfold T. apply round_tail_match; assumption.
Qed.

(** After [AS], the scan goes on as it would from the start of the rest. *)
Lemma round_scan_after_AS post :
  stops is_word post = true ->
  replace_from round_re
    (fun (u : unit) cs => (js "round(" ++ cap 1 cs ++ js ") AS", u)) (Some 83) post tt
  = replace round_re
      (fun (u : unit) cs => (js "round(" ++ cap 1 cs ++ js ") AS", u)) post tt.
Proof.
  intros Hp. unfold replace.
  assert (N0 : forall pv, match_at round_re pv post = None).
  { intros pv. destruct (match_at round_re pv post) eqn:M; [|reflexivity].
    apply round_needs_literal in M. destruct post as [|c post]; [discriminate|].
    simpl in Hp. apply negb_true_iff in Hp.
    change (starts_with N.eqb (js "round") (c :: post))
      with (N.eqb 114 c && starts_with N.eqb (js "ound") post) in M.
    apply andb_prop in M as [M _]. apply N.eqb_eq in M. subst c. discriminate. }
  destruct post as [|c post].
  - rewrite !replace_from_nil by apply N0. reflexivity.
  - rewrite !replace_from_skip by apply N0. reflexivity.
Qed.

(** C7, as amended: in a query text
    <pre>round<ws>(<expr>,<ws><digits><ws>)<ws>AS<post>, where <pre> holds
    no earlier "round" and does not end in a word character, <expr> holds
    no text of the form ", <digits>) AS" itself, and <post> does not go on
    with a word character, [translateRound] drops the precision argument
    and nothing else of the expression: the result is
    <pre>round(<expr>) AS followed by the translation of <post>, with
    <expr> verbatim, whatever parentheses and newlines it contains. *)
Theorem translateRound_drops_precision (pre ws1 e ws2 d ws3 ws4 post : jstring) :
  contains N.eqb (js "round") pre = false ->
  ends_word pre = false ->
  forallb is_space ws1 = true -> forallb is_space ws2 = true ->
  forallb is_space ws3 = true -> forallb is_space ws4 = true ->
  no_match_within round_tail (Some 40) e
    (js "," ++ ws2 ++ d ++ ws3 ++ js ")" ++ ws4 ++ js "AS" ++ post) = true ->
  d <> [] -> forallb is_digit d = true -> stops is_word post = true ->
  translateRound
    (pre ++ js "round" ++ ws1 ++ js "(" ++ e
       ++ js "," ++ ws2 ++ d ++ ws3 ++ js ")" ++ ws4 ++ js "AS" ++ post)
  = pre ++ js "round(" ++ e ++ js ") AS" ++ translateRound post.
Proof.
  intros Hpre Hend H1 H2 H3 H4 He Hd Hdd Hp.
  unfold translateRound at 1. unfold replace.
  rewrite replace_from_prefix.
  2:{ apply (no_match_within_of_contains round_re N.eqb (js "round"));
        [apply round_needs_literal | exact Hpre | reflexivity]. }
  assert (M := round_match (after None pre) ws1 e ws2 d ws3 ws4 post Hend
                 H1 H2 H3 H4 He Hd Hdd Hp).
  rewrite (replace_from_match _ _ _ _ _ _ M).
  2:{ cbn [rest]. rewrite !length_app. simpl. lia. }
  cbn [fst snd caps rest prev cap Nat.eqb].
  rewrite round_scan_after_AS by exact Hp.
  unfold translateRound. repeat rewrite <- app_assoc. reflexivity.
Qed.

End RoundFacts.

Import Js Regex RegexFacts CypherTranslator CypherTranslatorFacts RoundFacts.

Module TranslatorExamples.

Lemma translate_passthrough_witness :
  exists p' h',
    translate print_number (js "MATCH (n {name: $name}) RETURN n") the_params alice_heap
      = (js "MATCH (n {name: $name}) RETURN n", p', h') /\
    h' !! p' = Some (<[js "name" := VStr (js "Alice")]> ∅).
Proof.
  apply (translate_passthrough print_number _ the_params alice_heap).
  - reflexivity.
  - vm_compute. reflexivity.
  - vm_compute. reflexivity.
  - vm_compute. reflexivity.
Defined.

Lemma translate_keeps_caller_params_witness :
  exists q' p' h',
    translate print_number apoc_call the_params knows_heap = (q', p', h') /\
    p' <> the_params /\
    h' !! the_params = Some (<[js "relType" := VStr (js "KNOWS")]>
                               (<[js "other" := VStr (js "value")]> ∅)) /\
    (forall l, l <> p' -> h' !! l = knows_heap !! l).
Proof.
  apply (translate_keeps_caller_params print_number apoc_call the_params knows_heap).
  reflexivity.
Defined.


(** An expression that itself holds ", 1) AS": the inner text is taken
    for the precision, the string literal is cut and the real precision
    argument stays. *)
Lemma translateRound_inner_tail :
  translateRound (js "RETURN round(size(', 1) AS '), 2) AS r")
  = js "RETURN round(size(') AS '), 2) AS r".
Proof. vm_compute. reflexivity. Qed.

Lemma translateRound_drops_precision_witness :
  translateRound
    (searchSourceNode_pre ++ js "round" ++ [] ++ js "(" ++ searchSourceNode_expr
       ++ js "," ++ js " " ++ js "4" ++ [] ++ js ")" ++ js " " ++ js "AS"
       ++ searchSourceNode_post)
  = searchSourceNode_pre ++ js "round(" ++ searchSourceNode_expr ++ js ") AS"
      ++ translateRound searchSourceNode_post.
Proof.
  apply (translateRound_drops_precision searchSourceNode_pre [] searchSourceNode_expr
           (js " ") (js "4") [] (js " ") searchSourceNode_post).
  - vm_compute; reflexivity.
  - vm_compute; reflexivity.
  - reflexivity.
  - reflexivity.
  - reflexivity.
  - reflexivity.
  - vm_compute; reflexivity.
  - discriminate.
  - reflexivity.
  - reflexivity.
Defined.

(** The text of the witness is the query of [_searchSourceNode]. *)
Lemma searchSourceNode_text_split :
  searchSourceNode_text =
  searchSourceNode_pre ++ js "round" ++ [] ++ js "(" ++ searchSourceNode_expr
    ++ js "," ++ js " " ++ js "4" ++ [] ++ js ")" ++ js " " ++ js "AS"
    ++ searchSourceNode_post.
Proof. vm_compute. reflexivity. Qed.


End TranslatorExamples.

Import Js BM25.

Module BM25Facts.

Local Open Scope R_scope.

(** ** Document frequencies *)

Lemma elem_of_distinct d : forall seen t,
  t ∈ distinct seen d <-> t ∈ d /\ t ∉ seen.
Proof.
  induction d as [|x d IH]; intros seen t; simpl.
  - split; [intros H; inversion H | intros [H _]; inversion H].
  - case_bool_decide as Hx.
    + rewrite IH, elem_of_cons. split; [tauto|].
      intros [[->|H] Hn]; [contradiction | tauto].
    + rewrite elem_of_cons, IH, !elem_of_cons. split.
      * intros [->|[H Hn]]; [tauto|]. split; [tauto|]. tauto.
      * intros [[->|H] Hn]; [tauto|].
        destruct (decide (t = x)) as [->|Hne]; [tauto|]. right. split; [exact H|].
        intros [?|?]; contradiction.
Qed.

Lemma NoDup_distinct d : forall seen, NoDup (distinct seen d).
Proof.
  induction d as [|x d IH]; intros seen; simpl; [constructor|].
  case_bool_decide as Hx; [apply IH|].
  constructor; [|apply IH].
  rewrite elem_of_distinct, elem_of_cons. tauto.
Qed.

Lemma fold_bump_lookup l : forall df t,
  NoDup l ->
  fold_left bump l df !! t =
  if bool_decide (t ∈ l) then Some (default 0%nat (df !! t) + 1)%nat else df !! t.
Proof.
  induction l as [|x l IH]; intros df t Hnd; cbn [fold_left].
  - rewrite bool_decide_eq_false_2; [reflexivity | intros H; inversion H].
  - apply NoDup_cons in Hnd as [Hx Hnd]. rewrite IH by exact Hnd.
    unfold bump. destruct (decide (t = x)) as [->|Hne].
    + rewrite (bool_decide_eq_false_2 (x ∈ l)) by exact Hx.
      rewrite bool_decide_eq_true_2 by (left).
      apply lookup_insert_eq.
    + rewrite lookup_insert_ne by congruence.
      case_bool_decide as H1; case_bool_decide as H2; try reflexivity.
      * exfalso. apply H2. right. exact H1.
      * exfalso. apply elem_of_cons in H2 as [?|?]; contradiction.
Qed.

Lemma df_spec_cons d docs t :
  df_spec (d :: docs) t = ((if bool_decide (t ∈ d) then 1 else 0) + df_spec docs t)%nat.
Proof.
  unfold df_spec. rewrite filter_cons.
  case_bool_decide as H; destruct (decide (t ∈ d)); try contradiction; reflexivity.
Qed.

Lemma docFreq_fold docs : forall df t,
  fold_left (fun df d => fold_left bump (distinct [] d) df) docs df !! t =
  match df_spec docs t with
  | O => df !! t
  | S n => Some (default 0%nat (df !! t) + S n)%nat
  end.
Proof.
  induction docs as [|d docs IH]; intros df t; [reflexivity|].
  cbn [fold_left]. rewrite IH, df_spec_cons.
  rewrite fold_bump_lookup by apply NoDup_distinct.
  assert (E : bool_decide (t ∈ distinct [] d) = bool_decide (t ∈ d)).
  { apply bool_decide_ext. rewrite elem_of_distinct. split; [tauto|].
    intros H; split; [exact H | intros H'; inversion H']. }
  rewrite E. destruct (bool_decide (t ∈ d)); destruct (df_spec docs t); simpl;
    try reflexivity; f_equal; lia.
Qed.

Lemma docFreq_spec docs t :
  fst (computeIdf docs) !! t =
  match df_spec docs t with O => None | S n => Some (S n) end.
Proof.
  unfold computeIdf. cbn [fst]. rewrite docFreq_fold, lookup_empty.
  destruct (df_spec docs t); reflexivity.
Qed.

Lemma idf_lookup docs t :
  default 0 (snd (computeIdf docs) !! t) =
  match df_spec docs t with O => 0 | S n => idf_of (length docs) (S n) end.
Proof.
  pose proof (docFreq_spec docs t) as H. unfold computeIdf in *. cbn [fst snd] in *.
  rewrite lookup_fmap, H. destruct (df_spec docs t); reflexivity.
Qed.

Lemma df_spec_le docs t : (df_spec docs t <= length docs)%nat.
Proof. unfold df_spec. apply length_filter. Qed.

Lemma df_spec_pos docs d t : d ∈ docs -> t ∈ d -> (1 <= df_spec docs t)%nat.
Proof.
  intros Hd Ht. unfold df_spec.
  assert (H : d ∈ filter (fun d => t ∈ d) docs) by (apply list_elem_of_filter; tauto).
  destruct (filter _ docs); [inversion H | simpl; lia].
Qed.

Lemma tf_zero t d : t ∉ d -> tf t d = 0%nat.
Proof.
  intros H. unfold tf. induction d as [|x d IH]; [reflexivity|].
  rewrite filter_cons. destruct (decide (x = t)) as [->|Hne].
  - exfalso. apply H. left.
  - apply IH. intros H'. apply H. right. exact H'.
Qed.

Lemma tf_pos t d : t ∈ d -> (1 <= tf t d)%nat.
Proof.
  intros H. unfold tf.
  assert (H' : t ∈ filter (fun x => x = t) d) by (apply list_elem_of_filter; tauto).
  destruct (filter _ d); [inversion H' | simpl; lia].
Qed.

Lemma tf_le t d : (tf t d <= length d)%nat.
Proof. unfold tf. apply length_filter. Qed.

(** ** The fields of a fresh index *)

Lemma fold_add_sum l : forall a, fold_left Nat.add l a = (a + list_sum l)%nat.
Proof. induction l as [|x l IH]; intros a; simpl; [lia|]. rewrite IH. lia. Qed.

Lemma new_fields docs :
  documents (new docs) = docs /\ k1 (new docs) = 1.5 /\ b (new docs) = 0.75 /\
  docLengths (new docs) = map (@length jstring) docs /\
  avgDocLength (new docs) = avg_spec docs /\
  idf (new docs) = snd (computeIdf docs).
Proof.
  unfold new, new_with. destruct (computeIdf docs) as [df i] eqn:E. cbn.
  repeat split. unfold avg_spec. rewrite fold_add_sum. reflexivity.
Qed.

Lemma fold_score (f : jstring -> R) q : forall a,
  fold_left (fun s term => s + f term) q a = a + sum_R (map f q).
Proof.
  induction q as [|t q IH]; intros a; simpl; [lra|]. rewrite IH. lra.
Qed.

(** ** The score of the code is the score of the specification *)

Lemma term_score_spec docs d t :
  d ∈ docs ->
  term_score (new docs) (length d) d t =
  idf_of (length docs) (df_spec docs t) * INR (tf t d) * (1.5 + 1) /
  (INR (tf t d) + 1.5 * (1 - 0.75 + 0.75 * INR (length d) / avg_spec docs)).
Proof.
  intros Hd. unfold term_score.
  destruct (new_fields docs) as (_ & -> & -> & _ & -> & ->).
  rewrite idf_lookup. destruct (df_spec docs t) as [|n] eqn:E; [|reflexivity].
  assert (T : tf t d = 0%nat).
  { apply tf_zero. intros Ht. pose proof (df_spec_pos docs d t Hd Ht). lia. }
  rewrite T. simpl INR. unfold Rdiv. rewrite !Rmult_0_r, !Rmult_0_l. reflexivity.
Qed.

Lemma score_is_spec docs q idx d :
  docs !! idx = Some d -> score (new docs) q d idx = score_spec docs q d.
Proof.
  intros Hi. unfold score, score_spec.
  assert (L : docLengths (new docs) !! idx = Some (length d)).
  { destruct (new_fields docs) as (_ & _ & _ & -> & _). rewrite list_lookup_fmap, Hi.
    reflexivity. }
  rewrite L. simpl default. rewrite fold_score, Rplus_0_l. f_equal.
  apply map_ext. intros t. apply term_score_spec.
  apply list_elem_of_lookup. eauto.
Qed.

(** ** The stable sort by descending score *)

Lemma Forall_perm {A} (P : A -> Prop) l l' :
  Permutation l l' -> Forall P l -> Forall P l'.
Proof.
  induction 1 as [|x l l' _ IH|x y l|l l' l'' _ IH1 _ IH2]; intros H.
  - exact H.
  - apply Forall_cons in H as [Hx H]. constructor; [exact Hx | apply IH, H].
  - apply Forall_cons in H as [Hy H]. apply Forall_cons in H as [Hx H].
    repeat constructor; assumption.
  - apply IH2, IH1, H.
Qed.

Lemma insert_desc_perm {A} (key : A -> R) x l :
  Permutation (insert_desc key x l) (x :: l).
Proof.
  induction l as [|y l IH]; simpl; [reflexivity|].
  destruct (Rlt_dec (key x) (key y)); [|reflexivity].
  rewrite IH. apply perm_swap.
Qed.

Lemma sort_desc_perm {A} (key : A -> R) l : Permutation (sort_desc key l) l.
Proof.
  induction l as [|x l IH]; simpl; [reflexivity|].
  rewrite insert_desc_perm. constructor. exact IH.
Qed.

Lemma insert_desc_sorted {A} (key : A -> R) x l :
  StronglySorted (fun a c => key c <= key a) l ->
  StronglySorted (fun a c => key c <= key a) (insert_desc key x l).
Proof.
  induction l as [|y l IH]; intros Hs; simpl.
  - constructor; constructor.
  - apply StronglySorted_inv in Hs as [Hs Hy].
    destruct (Rlt_dec (key x) (key y)) as [Hlt|Hge].
    + constructor; [apply IH, Hs|].
      apply (Forall_perm _ (x :: l)); [symmetry; apply insert_desc_perm|].
      constructor; [lra | exact Hy].
    + constructor; [constructor; assumption|].
      constructor; [lra|].
      apply (Forall_impl _ _ _ Hy). intros c Hc. lra.
Qed.

Lemma sort_desc_sorted {A} (key : A -> R) l :
  StronglySorted (fun a c => key c <= key a) (sort_desc key l).
Proof.
  induction l as [|x l IH]; simpl; [constructor|]. apply insert_desc_sorted, IH.
Qed.

(** An element that beats all others comes first. *)
Lemma sort_desc_head {A} (key : A -> R) x l2 : forall l1,
  Forall (fun y => key y < key x) (l1 ++ l2) ->
  exists tl, sort_desc key (l1 ++ x :: l2) = x :: tl.
Proof.
  induction l1 as [|a l1 IH]; intros Hall.
  - simpl in *. 
    assert (Hs : Forall (fun y => key y < key x) (sort_desc key l2)).
    { apply (Forall_perm _ l2); [symmetry; apply sort_desc_perm | exact Hall]. }
    destruct (sort_desc key l2) as [|y tl]; simpl; [eauto|].
    apply Forall_cons in Hs as [Hy _].
    destruct (Rlt_dec (key x) (key y)); [lra | eauto].
  - simpl in Hall. apply Forall_cons in Hall as [Ha Hall].
    destruct (IH Hall) as [tl E]. simpl. rewrite E. simpl.
    destruct (Rlt_dec (key a) (key x)); [eauto | lra].
Qed.

Lemma sort_desc_head_lookup {A} (key : A -> R) (l : list A) i x :
  l !! i = Some x ->
  (forall j y, j <> i -> l !! j = Some y -> key y < key x) ->
  exists tl, sort_desc key l = x :: tl.
Proof.
  intros Hi Hall. rewrite <- (take_drop_middle l i x Hi).
  apply sort_desc_head. apply Forall_app. split; apply Forall_forall; intros y Hy.
  - apply list_elem_of_lookup in Hy as [j Hj].
    pose proof (lookup_lt_Some _ _ _ Hj) as Hlt. rewrite length_take in Hlt.
    rewrite lookup_take_lt in Hj by lia. apply (Hall j y); [lia | exact Hj].
  - apply list_elem_of_lookup in Hy as [j Hj].
    rewrite lookup_drop in Hj. apply (Hall (S i + j)%nat y); [lia | exact Hj].
Qed.

Lemma sorted_map_fst {A} (g : A -> R) (l : list (A * R)) :
  StronglySorted (fun a c => snd c <= snd a) l ->
  Forall (fun x => snd x = g (fst x)) l ->
  StronglySorted (fun a c => g c <= g a) (map fst l).
Proof.
  induction l as [|x l IH]; intros Hs Hf; simpl; [constructor|].
  apply StronglySorted_inv in Hs as [Hs Hx]. apply Forall_cons in Hf as [Hfx Hf].
  constructor; [apply IH; assumption|].
  apply Forall_forall. intros c Hc. apply list_elem_of_fmap in Hc as [y [-> Hy]].
  rewrite Forall_forall in Hx, Hf. rewrite <- Hfx, <- (Hf y Hy). apply Hx, Hy.
Qed.

(** ** [search] *)

Lemma scores_lookup docs q j :
  imap (fun idx d => (d, score (new docs) q d idx)) docs !! j =
  (fun d => (d, score_spec docs q d)) <$> docs !! j.
Proof.
  rewrite list_lookup_imap. destruct (docs !! j) as [d|] eqn:E; [|reflexivity].
  simpl. rewrite score_is_spec by exact E. reflexivity.
Qed.

Lemma map_fst_scores {A B} (f : nat -> A -> B) (l : list A) :
  map fst (imap (fun idx d => (d, f idx d)) l) = l.
Proof.
  revert f. induction l as [|x l IH]; intros f; [reflexivity|].
  simpl. f_equal. apply (IH (fun i => f (S i))).
Qed.

Lemma search_perm docs q : Permutation (search (new docs) q) docs.
Proof.
  unfold search. destruct (new_fields docs) as (-> & _).
  rewrite sort_desc_perm. rewrite map_fst_scores. reflexivity.
Qed.

Lemma search_sorted docs q :
  StronglySorted (fun d1 d2 => score_spec docs q d2 <= score_spec docs q d1)
    (search (new docs) q).
Proof.
  unfold search. destruct (new_fields docs) as (-> & _).
  apply sorted_map_fst; [apply sort_desc_sorted|].
  apply (Forall_perm _ (imap (fun idx d => (d, score (new docs) q d idx)) docs));
    [symmetry; apply sort_desc_perm|].
  apply Forall_forall. intros x Hx. apply list_elem_of_lookup in Hx as [j Hj].
  rewrite scores_lookup in Hj. destruct (docs !! j); [|discriminate].
  simpl in Hj. injection Hj as <-. reflexivity.
Qed.

(** ** Scores of documents that share, or do not share, a query term *)

Lemma idf_of_pos N df : (df <= N)%nat -> 0 < idf_of N df.
Proof.
  intros H. unfold idf_of. rewrite <- ln_1. apply ln_increasing; [lra|].
  apply le_INR in H. pose proof (pos_INR df).
  assert (0 < (INR N - INR df + 0.5) / (INR df + 0.5)); [|lra].
  apply Rdiv_lt_0_compat; lra.
Qed.

Lemma sum_R_zero l : Forall (fun x => x = 0) l -> sum_R l = 0.
Proof.
  induction 1 as [|x l Hx _ IH]; simpl; [reflexivity|]. rewrite Hx, IH. lra.
Qed.

Lemma sum_R_nonneg l : Forall (fun x => 0 <= x) l -> 0 <= sum_R l.
Proof. induction 1 as [|x l Hx _ IH]; simpl; lra. Qed.

Lemma sum_R_pos l x :
  Forall (fun x => 0 <= x) l -> x ∈ l -> 0 < x -> 0 < sum_R l.
Proof.
  intros H Hx Hpos. induction H as [|y l Hy H IH]; [inversion Hx|].
  simpl. pose proof (sum_R_nonneg l H).
  apply elem_of_cons in Hx as [<-|Hx]; [lra|]. specialize (IH Hx). lra.
Qed.

Lemma score_spec_none docs q d :
  (forall t, t ∈ q -> t ∉ d) -> score_spec docs q d = 0.
Proof.
  intros H. unfold score_spec. apply sum_R_zero, Forall_forall.
  intros x Hx. apply list_elem_of_fmap in Hx as [t [-> Ht]].
  rewrite (tf_zero t d (H t Ht)). simpl INR. unfold Rdiv.
  rewrite !Rmult_0_r, !Rmult_0_l. reflexivity.
Qed.

Lemma avg_spec_pos docs d : d ∈ docs -> d <> [] -> 0 < avg_spec docs.
Proof.
  intros Hd Hne. unfold avg_spec. apply Rdiv_lt_0_compat; apply lt_0_INR.
  - induction docs as [|x docs IH]; [inversion Hd|].
    simpl. apply elem_of_cons in Hd as [<-|Hd].
    + destruct d; [congruence | simpl; lia].
    + specialize (IH Hd). lia.
  - destruct docs; [inversion Hd | simpl; lia].
Qed.

Lemma score_spec_some docs q d t :
  d ∈ docs -> t ∈ q -> t ∈ d -> 0 < score_spec docs q d.
Proof.
  intros Hd Hq Ht. unfold score_spec.
  assert (Hne : d <> []) by (intros ->; inversion Ht).
  pose proof (avg_spec_pos docs d Hd Hne) as Havg.
  assert (Hden : forall u, 0 < INR (tf u d)
            + 1.5 * (1 - 0.75 + 0.75 * INR (length d) / avg_spec docs)).
  { intros u. pose proof (pos_INR (tf u d)). pose proof (pos_INR (length d)).
    assert (0 <= 0.75 * INR (length d) / avg_spec docs); [|lra].
    apply Rmult_le_pos; [lra|]. left. apply Rinv_0_lt_compat, Havg. }
  set (g := fun term => _).
  apply (sum_R_pos _ (g t)).
  - apply Forall_forall. intros x Hx. apply list_elem_of_fmap in Hx as [u [-> Hu]].
    unfold g. apply Rmult_le_pos; [|left; apply Rinv_0_lt_compat, Hden].
    apply Rmult_le_pos; [|lra]. apply Rmult_le_pos; [|apply pos_INR].
    left. apply idf_of_pos, df_spec_le.
  - apply list_elem_of_fmap. exists t. split; [reflexivity | exact Hq].
  - unfold g. apply Rdiv_lt_0_compat; [|apply Hden].
    apply Rmult_lt_0_compat; [|lra]. apply Rmult_lt_0_compat.
    + apply idf_of_pos, df_spec_le.
    + apply lt_0_INR. pose proof (tf_pos t d Ht). lia.
Qed.



End BM25Facts.

Import Js BM25 BM25Facts FalkorMemoryGraph.
Import CypherTranslator (print_number).

Module ExtractionFacts.

Section WithCollaborators.
Variable world : Type.
Variable JSON_parse : jstring -> option json.
Variable toLowerCase : jstring -> jstring.
Variable Number_toString : R -> jstring.
Variable String_replace : jstring -> jstring -> jstring -> jstring.
Variable EXTRACT_RELATIONS_PROMPT : jstring.
Variable customPrompt : option jstring.
Variable generateResponse : list message -> tool -> world -> result LLMResponse * world.

(** Entity extraction swallows a parse failure of the first tool call. *)
Lemma retrieveNodes_swallows_bad_json data f w content role call calls w1 :
  generateResponse
    [Msg (js "system") (entity_system_prompt Number_toString (userId_of f));
     Msg (js "user") data] EXTRACT_ENTITIES_TOOL w
  = (Ok (Response content role (Some (call :: calls))), w1) ->
  name call = js "extract_entities" ->
  JSON_parse (arguments call) = None ->
  _retrieveNodesFromData world JSON_parse toLowerCase Number_toString
    generateResponse data f w = (Ok [], w1).
Proof.
  intros Hg Hn Hp. unfold _retrieveNodesFromData, bind. rewrite Hg.
  unfold try_collect. cbn [collect_calls]. rewrite Hn, Hp.
  rewrite bool_decide_eq_true_2 by reflexivity. reflexivity.
Qed.

(** Relation extraction does not: the parse failure is thrown. *)
Lemma establishRelations_throws_bad_json data f m w content role call calls w1 :
  generateResponse
    (relations_messages Number_toString String_replace EXTRACT_RELATIONS_PROMPT
       customPrompt data f m) RELATIONS_TOOL w
  = (Ok (Response content role (Some (call :: calls))), w1) ->
  arguments call <> [] ->
  JSON_parse (arguments call) = None ->
  _establishNodesRelationsFromData world JSON_parse toLowerCase Number_toString
    String_replace EXTRACT_RELATIONS_PROMPT customPrompt generateResponse data f m w
  = (Throw SyntaxError, w1).
Proof.
  intros Hg Hn Hp. unfold _establishNodesRelationsFromData, bind. rewrite Hg.
  unfold lift, parse_relations. destruct (arguments call) as [|c a] eqn:E; [congruence|].
  rewrite Hp. reflexivity.
Qed.
End WithCollaborators.

(** C1: the model answers the relation-extraction request with a tool
    call whose arguments are not JSON.  Relation extraction does not
    return an empty sequence: [JSON.parse] throws out of it, and [add]
    fails as a whole instead of leaving the graph as it is. *)
Lemma add_throws_on_malformed_relations :
  add nat read_json ascii_lower print_number (fun s _ _ => s) [] [] None
    (canned_model (malformed_response "establish_relationships"))
    null_embedder empty_store_query
    (js "Alice works at Acme") alice 0%nat
  = (Throw SyntaxError, 2%nat).
Proof. vm_compute. reflexivity. Qed.

(** The same arguments in entity extraction are swallowed. *)
Lemma search_survives_malformed_entities :
  search nat read_json ascii_lower print_number
    (canned_model (malformed_response "extract_entities"))
    null_embedder empty_store_query
    (js "Where does Alice work?") alice 100%nat 0%nat
  = (Ok [], 1%nat).
Proof. vm_compute. reflexivity. Qed.

End ExtractionFacts.

Module SearchFacts.

Local Open Scope R_scope.

Section WithCollaborators.
Variable world : Type.
Variable JSON_parse : jstring -> option json.
Variable toLowerCase : jstring -> jstring.
Variable Number_toString : R -> jstring.
Variable generateResponse : list message -> tool -> world -> result LLMResponse * world.
Variable embed : jstring -> world -> result (list R) * world.
Variable graph_query :
  Cypher.query -> GraphStore.params -> world -> result (list record) * world.

Lemma rerank_length query hits : (length (rerank query hits) <= 5)%nat.
Proof.
  unfold rerank. destruct hits as [|h hits]; [simpl; lia|].
  rewrite length_map, length_firstn. lia.
Qed.

End WithCollaborators.


End SearchFacts.

Module FalkorDBGraphFacts.
Import FalkorDBGraph.

(** The graph every query runs on is named by the configuration alone. *)
Lemma init_selects_configured_graph (driver : Type)
    (connect : jstring -> driver -> result unit * driver)
    (cfg : FalkorDBConfig) (d d1 : driver) :
  connect (url_of cfg) d = (Ok tt, d1) ->
  exists g,
    init driver connect (new cfg) d = (Ok g, d1) /\
    graph g = Some (str_or (graphName cfg) (js "mem0")) /\
    init driver connect g d1 = (Ok g, d1).
Proof.
  intros H. unfold init, new. cbn [initialized config]. rewrite H.
  eexists. split; [reflexivity|]. split; reflexivity.
Qed.

(** C3: with no graph name configured, the queries of the tenants alice
    and bob both run on the one graph named mem0 (not mem0_alice and
    mem0_bob) and differ by their [user_id] parameter only. *)
Lemma tenants_share_one_graph :
  let run tenant d :=
    snd (query driver_log log_connect log_query print_number (new default_config)
           deleteAll_text (Some 1%positive) (tenant_heap tenant) d) in
  run "bob" (run "alice" []) =
  [(js "mem0", deleteAll_text, {[ js "user_id" := VStr (js "alice") ]});
   (js "mem0", deleteAll_text, {[ js "user_id" := VStr (js "bob") ]})].
Proof. vm_compute. reflexivity. Qed.

End FalkorDBGraphFacts.

Import Js Cypher GraphStore FalkorMemoryGraph.

Module GraphStoreFacts.

(** ** Properties a [SET] does not name are kept *)

Lemma set_props_other ps s k sets : forall p,
  forallb (fun kv => negb (String.eqb (fst kv) k)) sets = true ->
  set_props ps s sets p !! k = p !! k.
Proof.
  induction sets as [|[k' e] sets IH]; intros p H; [reflexivity|].
  simpl in H. apply andb_prop in H as [Hk H].
  unfold set_props in *. cbn [fold_left fst snd]. rewrite IH by exact H.
  apply negb_true_iff, String.eqb_neq in Hk. apply lookup_insert_ne. exact Hk.
Qed.

(** ** Growth of the store *)

Lemma tenant_growth_refl u s : tenant_growth u s s.
Proof.
  split; [|intros e He; left; exact He].
  intros n Hn. left. exists n. repeat split; assumption.
Qed.

Lemma tenant_growth_trans u s s1 s2 :
  tenant_growth u s s1 -> tenant_growth u s1 s2 -> tenant_growth u s s2.
Proof.
  intros [N1 R1] [N2 R2]. split.
  - intros n Hn. destruct (N2 n Hn) as [(n1 & Hn1 & Hid & Hu)|Hu]; [|right; exact Hu].
    destruct (N1 n1 Hn1) as [(n0 & Hn0 & Hid0 & Hu0)|Hu1].
    + left. exists n0. repeat split; [exact Hn0|congruence|congruence].
    + right. congruence.
  - intros e He. destruct (R2 e He) as [H|H]; [apply R1, H | right; exact H].
Qed.

Lemma merge_node_growth ps u pat oc om r s rows s' :
  writes_tenant (Merge pat oc om) = true ->
  ps !! "user_id"%string = Some u ->
  merge_node ps pat oc om r s = (rows, s') ->
  tenant_growth u s s'.
Proof.
  intros Hw Hu Hm. destruct pat as [v lbl props]. cbn [writes_tenant] in Hw.
  destruct props as [|[k e] [|[k2 e2] [|]]]; try discriminate.
  apply andb_prop in Hw as [Hw Hsets]. apply andb_prop in Hw as [Hw He2].
  apply andb_prop in Hw as [Hk Hk2].
  apply String.eqb_eq in Hk2. subst k2.
  destruct e2 as [pn| |]; try discriminate. cbn [expr_is_param] in He2.
  apply String.eqb_eq in He2. subst pn.
  apply negb_true_iff, String.eqb_neq in Hk.
  rewrite forallb_app in Hsets. apply andb_prop in Hsets as [Hoc Hom].
  unfold merge_node in Hm.
  destruct (filter _ (nodes s)) as [|f0 found] eqn:Ef.
  - injection Hm as <- <-. split; cbn [nodes rels].
    + intros n Hn. apply elem_of_app in Hn as [Hn|Hn].
      * left. exists n. repeat split; assumption.
      * apply list_elem_of_singleton in Hn. subst n. right. cbn [node_props np_props].
        rewrite set_props_other by exact Hoc.
        unfold set_props. cbn [fold_left fst snd eval].
        rewrite lookup_insert_eq, Hu. reflexivity.
    + intros e0 He0. left. exact He0.
  - injection Hm as <- <-. split; cbn [nodes rels].
    + intros n Hn. apply list_elem_of_fmap in Hn as [n0 [-> Hn0]].
      left. exists n0. split; [exact Hn0|].
      destruct (node_matches ps s _ n0); [|split; reflexivity].
      cbn [node_id node_props]. split; [reflexivity|].
      rewrite set_props_other by exact Hom. reflexivity.
    + intros e0 He0. left. exact He0.
Qed.

Lemma merge_path_growth ps u a rv ty c oc r s rows s' :
  writes_tenant (MergePath a rv ty c oc) = true ->
  merge_path ps a rv ty c oc r s = Some (rows, s') ->
  tenant_growth u s s'.
Proof.
  intros Hw Hm. cbn [writes_tenant] in Hw. unfold merge_path in Hm.
  destruct (lookup_var a r) as [[ia|]|]; try discriminate.
  destruct (lookup_var c r) as [[ic|]|]; try discriminate.
  destruct (filter _ (rels s)) as [|f0 found].
  - injection Hm as <- <-. split; cbn [nodes rels].
    + intros n Hn. left. exists n. repeat split; assumption.
    + intros e He. apply elem_of_app in He as [He|He]; [left; exact He|].
      apply list_elem_of_singleton in He. subst e. right. cbn [rel_props].
      rewrite set_props_other by exact Hw. apply lookup_empty.
  - injection Hm as <- <-. apply tenant_growth_refl.
Qed.

Lemma per_row_growth u f : 
  (forall r s out s', f r s = Some (out, s') -> tenant_growth u s s') ->
  forall rows s outs s',
    per_row f rows s = Some (outs, s') -> tenant_growth u s s'.
Proof.
  intros Hf. induction rows as [|r rows IH]; intros s outs s' H; simpl in H.
  - injection H as <- <-. apply tenant_growth_refl.
  - destruct (f r s) as [[out s1]|] eqn:E1; [|discriminate].
    destruct (per_row f rows s1) as [[outs2 s2]|] eqn:E2; [|discriminate].
    injection H as <- <-.
    eapply tenant_growth_trans; [eapply Hf, E1 | eapply IH, E2].
Qed.

Section WithStore.
Variable id_matches : N -> value -> bool.

Lemma exec_clause_growth ps u c rows s rows' s' :
  writes_tenant c = true ->
  ps !! "user_id"%string = Some u ->
  exec_clause id_matches ps c (rows, s) = Some (rows', s') ->
  tenant_growth u s s'.
Proof.
  intros Hw Hu H. destruct c; cbn [exec_clause] in H; try discriminate.
  - destruct n as [v [l|] [|]]; cbn in H; try discriminate.
    simplify_eq. apply tenant_growth_refl.
  - destruct (filter_rows _ _ _ _ _); [|discriminate].
    injection H as <- <-. apply tenant_growth_refl.
  - eapply per_row_growth; [|exact H].
    intros r0 s0 out s1 E. injection E as E.
    eapply merge_node_growth; [exact Hw | exact Hu | exact E].
  - eapply per_row_growth; [|exact H].
    intros r0 s0 out s1 E. eapply merge_path_growth; [exact Hw | exact E].
  - injection H as <- <-. apply tenant_growth_refl.
Qed.

Lemma exec_clauses_growth ps u q : forall rows s rows' s',
  forallb writes_tenant q = true ->
  ps !! "user_id"%string = Some u ->
  exec_clauses id_matches ps q (rows, s) = Some (rows', s') ->
  tenant_growth u s s'.
Proof.
  induction q as [|c q IH]; intros rows s rows' s' Hw Hu H;
    cbn [exec_clauses] in H.
  - injection H as <- <-. apply tenant_growth_refl.
  - simpl in Hw. apply andb_prop in Hw as [Hc Hq].
    destruct (exec_clause id_matches ps c (rows, s)) as [[rows1 s1]|] eqn:E;
      [|discriminate].
    eapply tenant_growth_trans;
      [eapply exec_clause_growth; eassumption | eapply IH; eassumption].
Qed.
End WithStore.

(** ** The adding queries always run *)

Lemma binds_cons_node seen v id r :
  binds seen r -> binds (v :: seen) ((v, ENode id) :: r).
Proof.
  intros H w Hw. cbn [existsb] in Hw. cbn [lookup_var].
  destruct (String.eqb v w) eqn:E; [eauto|].
  rewrite String.eqb_sym, E in Hw. apply H, Hw.
Qed.

Lemma binds_cons_rel seen rv id r :
  existsb (String.eqb rv) seen = false ->
  binds seen r -> binds seen ((rv, ERel id) :: r).
Proof.
  intros Hrv H w Hw. cbn [lookup_var].
  destruct (String.eqb rv w) eqn:E; [|apply H, Hw].
  apply String.eqb_eq in E. subst w. congruence.
Qed.

Lemma Forall_map_all {A B} (Q : B -> Prop) (g : A -> B) (l : list A) :
  (forall x, Q (g x)) -> Forall Q (map g l).
Proof. intros H. induction l; simpl; constructor; auto. Qed.

Lemma per_row_total (P Q : row -> Prop) f :
  (forall r s, P r -> exists out s', f r s = Some (out, s') /\ Forall Q out) ->
  forall rows s, Forall P rows ->
    exists outs s', per_row f rows s = Some (outs, s') /\ Forall Q outs.
Proof.
  intros Hf. induction rows as [|r rows IH]; intros s HP.
  - exists [], s. split; [reflexivity | constructor].
  - apply Forall_cons in HP as [Hr HP].
    destruct (Hf r s Hr) as (out & s1 & E1 & Q1).
    destruct (IH s1 HP) as (outs & s2 & E2 & Q2).
    exists (out ++ outs), s2. simpl. rewrite E1, E2. split; [reflexivity|].
    apply Forall_app. split; assumption.
Qed.

Section Totality.
Variable id_matches : N -> value -> bool.

Lemma filter_rows_total ps s seen cs :
  forallb (fun c => match c with
                    | IdEq v _ => existsb (String.eqb v) seen
                    | _ => false
                    end) cs = true ->
  forall rows, Forall (binds seen) rows ->
    exists out, filter_rows id_matches ps s cs rows = Some out
                /\ Forall (binds seen) out.
Proof.
  intros Hcs. induction rows as [|r rows IH]; intros HB.
  - exists []. split; [reflexivity | constructor].
  - apply Forall_cons in HB as [Hr HB]. destruct (IH HB) as (out & E & Ho).
    assert (C : exists b, conds_hold id_matches ps s r cs = Some b).
    { clear -Hcs Hr. induction cs as [|c cs IHc]; [eexists; reflexivity|].
      simpl in Hcs. apply andb_prop in Hcs as [Hc Hcs].
      destruct (IHc Hcs) as [b Eb]. destruct c; try discriminate.
      destruct (Hr var Hc) as [id Eid].
      cbn [conds_hold cond_holds]. rewrite Eid, Eb. eexists; reflexivity. }
    destruct C as [b Eb]. cbn [filter_rows]. rewrite Eb, E.
    destruct b; eexists; (split; [reflexivity|]); [constructor; assumption | exact Ho].
Qed.

Lemma exec_clauses_total ps q : forall seen rows s,
  well_bound seen q = true -> Forall (binds seen) rows ->
  exists st', exec_clauses id_matches ps q (rows, s) = Some st'.
Proof.
  induction q as [|c q IH]; intros seen rows s Hw HB; [eexists; reflexivity|].
  cbn [exec_clauses]. destruct c; cbn [well_bound] in Hw; try discriminate.
  - destruct n as [v [l|] [|]]; try discriminate. cbn [exec_clause].
    apply (IH (v :: seen)); [exact Hw|].
    apply Forall_forall. intros r' Hr'. apply list_elem_of_In, in_flat_map in Hr'.
    destruct Hr' as (r & Hr & Hin). apply in_map_iff in Hin as (n & <- & _).
    apply binds_cons_node. rewrite Forall_forall in HB. apply HB, list_elem_of_In, Hr.
  - apply andb_prop in Hw as [Hcs Hw].
    destruct (filter_rows_total ps s seen cs Hcs rows HB) as (out & E & Ho).
    cbn [exec_clause]. rewrite E. apply (IH seen); assumption.
  - cbn [exec_clause].
    destruct (per_row_total (binds seen) (binds (np_var n :: seen))
                (fun r s => Some (merge_node ps n on_create on_match r s)))
      with (rows := rows) (s := s) as (outs & s1 & E & Ho); [|exact HB|].
    + intros r s0 Hr. destruct (merge_node ps n on_create on_match r s0) as [out s1] eqn:E.
      exists out, s1. split; [reflexivity|]. unfold merge_node in E.
      destruct (filter _ (nodes s0)) as [|f0 found]; injection E as <- <-.
      * constructor; [|constructor]. apply binds_cons_node, Hr.
      * apply (Forall_map_all (binds (np_var n :: seen))
                 (fun n0 => (np_var n, ENode (node_id n0)) :: r) (f0 :: found)).
        intros n0. apply binds_cons_node, Hr.
    + rewrite E. apply (IH (np_var n :: seen)); assumption.
  - cbn [exec_clause].
    apply andb_prop in Hw as [Hw Hq]. apply andb_prop in Hw as [Hw Hrv].
    apply andb_prop in Hw as [Ha Hc]. apply negb_true_iff in Hrv.
    destruct (per_row_total (binds seen) (binds seen)
                (merge_path ps src r rtype dst on_create))
      with (rows := rows) (s := s) as (outs & s1 & E & Ho); [|exact HB|].
    + intros r0 s0 Hr. destruct (Hr src Ha) as [ia Ea]. destruct (Hr dst Hc) as [ic Ec].
      unfold merge_path. rewrite Ea, Ec.
      destruct (filter _ (rels s0)) as [|f0 found]; eexists _, _;
        (split; [reflexivity|]).
      * constructor; [|constructor]. apply binds_cons_rel; assumption.
      * apply (Forall_map_all (binds seen)
                 (fun e0 => (r, ERel (rel_id e0)) :: r0) (f0 :: found)).
        intros e0. apply binds_cons_rel; assumption.
    + rewrite E. apply (IH seen); assumption.
  - cbn [exec_clause]. apply (IH seen); assumption.
Qed.
End Totality.

End GraphStoreFacts.

Import Js Cypher GraphStore GraphStoreFacts FalkorMemoryGraph.

Module AddFacts.

Lemma add_request_user_id item userId m sE dE sRes dRes :
  snd (add_request item userId m sE dE sRes dRes) !! "user_id"%string = Some userId.
Proof.
  unfold add_request. destruct (branch_of sRes dRes); cbn [snd];
    repeat (rewrite lookup_insert_ne by discriminate); apply lookup_insert_eq.
Qed.

Lemma add_request_writes_tenant item userId m sE dE sRes dRes :
  forallb writes_tenant (fst (add_request item userId m sE dE sRes dRes)) = true.
Proof. unfold add_request. destruct (branch_of sRes dRes); reflexivity. Qed.

Lemma add_request_well_bound item userId m sE dE sRes dRes :
  well_bound [] (fst (add_request item userId m sE dE sRes dRes)) = true.
Proof. unfold add_request. destruct (branch_of sRes dRes); reflexivity. Qed.



(** ** Merges are idempotent *)

Lemma value_eqb_refl : forall v, value_eqb v v = true.
Proof.
  fix IH 1. intros [| |b|r|s|l|fs]; cbn [value_eqb]; try reflexivity.
  - destruct b; reflexivity.
  - destruct (Req_dec_T r r); [reflexivity | congruence].
  - apply bool_decide_eq_true_2. reflexivity.
  - induction l as [|x l IHl]; [reflexivity|]. rewrite (IH x), IHl. reflexivity.
  - induction fs as [|[k x] fs IHl]; [reflexivity|].
    rewrite (IH x), IHl, bool_decide_eq_true_2 by reflexivity. reflexivity.
Qed.

Lemma filter_nil_false {A} (P : A -> bool) (l : list A) x :
  filter (fun y => P y = true) l = [] -> x ∈ l -> P x = false.
Proof.
  intros H Hx. destruct (P x) eqn:E; [|reflexivity].
  assert (x ∈ filter (fun y => P y = true) l) by (apply list_elem_of_filter; tauto).
  rewrite H in *. inversion H0.
Qed.

Lemma map_id_on {A} (g : A -> A) (l : list A) :
  (forall x, x ∈ l -> g x = x) -> map g l = l.
Proof.
  induction l as [|x l IH]; intros H; [reflexivity|]. simpl.
  rewrite H by left. rewrite IH; [reflexivity|]. intros y Hy. apply H. right. exact Hy.
Qed.

Lemma merge_node_idem_gen ps pat oc om :
  (forall s s' n, node_matches ps s pat n = node_matches ps s' pat n) ->
  (forall s s' n,
     node_matches ps s pat
       (Node (node_id n) (node_labels n) (set_props ps s' om (node_props n)))
     = node_matches ps s pat n) ->
  (forall s id,
     let n0 := Node id (match np_label pat with Some l => [l] | None => [] end)
                    (set_props ps s oc (set_props ps s (np_props pat) ∅)) in
     node_matches ps s pat n0 = true /\
     forall s', set_props ps s' om (node_props n0) = node_props n0) ->
  (forall s s' p, set_props ps s' om (set_props ps s om p) = set_props ps s om p) ->
  forall r s rows1 s1,
    merge_node ps pat oc om r s = (rows1, s1) ->
    forall t, exists rows2,
      merge_node ps pat oc om r (at_time t s1) = (rows2, at_time t s1).
Proof.
  intros H1 H2 H3 H4 r s rows1 s1 Hm t. unfold merge_node in Hm.
  destruct (filter (fun n => node_matches ps s pat n = true) (nodes s))
    as [|f0 found] eqn:Ef.
  - injection Hm as <- <-.
    set (n0 := Node (next_id s) (match np_label pat with Some l => [l] | None => [] end)
                    (set_props ps s oc (set_props ps s (np_props pat) ∅))).
    destruct (H3 s (next_id s)) as [Hn0 Hom]. fold n0 in Hn0, Hom.
    unfold merge_node, at_time. cbn [nodes rels next_id now].
    set (s1 := Store (nodes s ++ [n0]) (rels s) (next_id s + 1) t).
    rewrite (list_filter_iff _ (fun n => node_matches ps s pat n = true))
      by (intros n; rewrite (H1 s1 s); tauto).
    rewrite filter_app, Ef. cbn [app]. rewrite filter_cons.
    destruct (decide (node_matches ps s pat n0 = true)) as [_|Hc]; [|congruence].
    rewrite filter_nil. eexists. f_equal. f_equal.
    rewrite map_app. cbn [map]. rewrite (H1 s1 s), Hn0.
    rewrite map_id_on.
    + f_equal. f_equal. rewrite (Hom s1). reflexivity.
    + intros x Hx. rewrite (H1 s1 s).
      rewrite (filter_nil_false (fun n => node_matches ps s pat n) (nodes s) x Ef Hx).
      reflexivity.
  - injection Hm as <- <-.
    set (upd := fun n => if node_matches ps s pat n
                         then Node (node_id n) (node_labels n)
                                   (set_props ps s om (node_props n))
                         else n).
    unfold merge_node, at_time. cbn [nodes rels next_id now].
    set (s1 := Store (map upd (nodes s)) (rels s) (next_id s) t).
    assert (Hupd : forall n, node_matches ps s1 pat (upd n) = node_matches ps s pat n).
    { intros n. unfold upd. destruct (node_matches ps s pat n) eqn:E.
      - rewrite H2, (H1 s1 s). exact E.
      - rewrite (H1 s1 s). exact E. }
    assert (Hf0 : f0 ∈ filter (fun n => node_matches ps s pat n = true) (nodes s))
      by (rewrite Ef; left).
    apply list_elem_of_filter in Hf0 as [Hf0 Hin].
    assert (Hne : upd f0 ∈ filter (fun n => node_matches ps s1 pat n = true)
                                  (map upd (nodes s))).
    { apply list_elem_of_filter. split; [rewrite Hupd; exact Hf0|].
      apply list_elem_of_fmap. eauto. }
    destruct (filter (fun n => node_matches ps s1 pat n = true) (map upd (nodes s)))
      as [|g0 found1] eqn:Ef1; [inversion Hne|].
    eexists. f_equal. f_equal.
    rewrite map_map. apply map_ext. intros n.
    rewrite Hupd. unfold upd. destruct (node_matches ps s pat n) eqn:E; [|reflexivity].
    cbn [node_id node_labels node_props]. rewrite H4. reflexivity.
Qed.

(** The node merges of [_addEntities]:
    [MERGE (v:L {kn: $a, ku: $pu}) ON CREATE SET v.kc = timestamp(), v.ke = $e]
    with or without [ON MATCH SET v.ke = $e]. *)
Lemma merge_node_idem v lbl kn a ku pu kc ke e om :
  kn <> ku -> kc <> kn -> kc <> ku -> ke <> kn -> ke <> ku ->
  om = [] \/ om = [(ke, EParam e)] ->
  idempotent (Merge (NodeP v lbl [(kn, EParam a); (ku, EParam pu)])
                    [(kc, ETimestamp); (ke, EParam e)] om).
Proof.
  intros Hnu Hcn Hcu Hen Heu Hom ps.
  assert (Hk : forall k1 k2 : string, k1 <> k2 -> negb (String.eqb k1 k2) = true).
  { intros k1 k2 H. apply negb_true_iff, String.eqb_neq, H. }
  assert (Homk : forall k, k = kn \/ k = ku ->
            forallb (fun kv => negb (String.eqb (fst kv) k)) om = true).
  { intros k Hkk. destruct Hom as [->| ->]; [reflexivity|]. cbn.
    destruct Hkk as [->| ->]; rewrite Hk by assumption; reflexivity. }
  apply merge_node_idem_gen.
  - intros s s' n. reflexivity.
  - intros s s' n. unfold node_matches. cbn [np_label np_props node_labels node_props forallb fst snd].
    rewrite !set_props_other by (apply Homk; tauto). reflexivity.
  - intros s id n0. split.
    + unfold n0, node_matches. cbn [np_label np_props node_labels node_props forallb fst snd].
      assert (L : (match lbl with
                   | Some l => bool_decide (l ∈ match lbl with Some l0 => [l0] | None => [] end)
                   | None => true
                   end) = true).
      { destruct lbl; [apply bool_decide_eq_true_2; left | reflexivity]. }
      rewrite L. unfold set_props. cbn [fold_left fst snd].
      rewrite (lookup_insert_ne _ ke kn), (lookup_insert_ne _ kc kn),
        (lookup_insert_ne _ ku kn), (lookup_insert_ne _ ke ku),
        (lookup_insert_ne _ kc ku) by congruence.
      rewrite !lookup_insert_eq, !value_eqb_refl. reflexivity.
    + intros s'. destruct Hom as [->| ->]; [reflexivity|].
      unfold n0, set_props. cbn [fold_left fst snd node_props eval].
      apply insert_insert_eq.
  - intros s s' p. destruct Hom as [->| ->]; [reflexivity|].
    unfold set_props. cbn [fold_left fst snd eval]. apply insert_insert_eq.
Qed.

Lemma merge_path_idem a rv ty c oc : idempotent (MergePath a rv ty c oc).
Proof.
  intros ps r s rows1 s1 Hm t. unfold merge_path in *.
  destruct (lookup_var a r) as [[ia|]|]; try discriminate.
  destruct (lookup_var c r) as [[ic|]|]; try discriminate.
  unfold at_time. cbn [nodes rels next_id now].
  destruct (filter _ (rels s)) as [|f0 found] eqn:Ef.
  - injection Hm as <- <-. cbn [nodes rels next_id now].
    rewrite filter_app, Ef. cbn [app]. rewrite filter_cons. cbn [rel_type rel_src rel_dst].
    rewrite bool_decide_eq_true_2 by reflexivity. rewrite !N.eqb_refl. cbn [andb].
    destruct (decide (true = true)); [|congruence]. eexists. reflexivity.
  - injection Hm as <- <-. rewrite Ef. eexists. reflexivity.
Qed.

Lemma add_request_idempotent item userId m sE dE sRes dRes :
  Forall idempotent (fst (add_request item userId m sE dE sRes dRes)).
Proof.
  unfold add_request. destruct (branch_of sRes dRes); cbn [fst];
    repeat (constructor; try exact I);
    try apply merge_path_idem;
    (apply merge_node_idem; [discriminate..| tauto]).
Qed.

Section WithCollaborators.
Variable world : Type.
Variable Number_toString : R -> jstring.
Variable embed : jstring -> world -> result (list R) * world.
Variable graph_query :
  Cypher.query -> GraphStore.params -> world -> result (list record) * world.

End WithCollaborators.


End AddFacts.

Import Js BM25 BM25Facts FalkorMemoryGraph.
Import CypherTranslator (print_number).

Module EngineFacts.

(** ** Normalised names *)

Lemma spaceless_spaces_to_underscores s :
  spaceless (spaces_to_underscores s) = true.
Proof.
  induction s as [|c s IH]; [reflexivity|].
  unfold spaceless, spaces_to_underscores in *. cbn [map forallb].
  rewrite IH, andb_true_r.
  destruct (c =? 32) eqn:E; [reflexivity | rewrite E; reflexivity].
Qed.

Lemma obj_set_keys {A} (k : jstring) (v : A) o k' :
  k' ∈ keys (obj_set k v o) <-> k' = k \/ k' ∈ keys o.
Proof.
  induction o as [|[k0 v0] o IH]; unfold keys in *; cbn [obj_set map fst].
  - rewrite list_elem_of_singleton. split; [tauto|].
    intros [H|H]; [exact H | inversion H].
  - case_bool_decide as E; cbn [map fst]; rewrite !elem_of_cons.
    + subst k0. tauto.
    + rewrite IH. tauto.
Qed.

Lemma obj_set_NoDup {A} (k : jstring) (v : A) o :
  NoDup (keys o) -> NoDup (keys (obj_set k v o)).
Proof.
  induction o as [|[k0 v0] o IH]; intros H; unfold keys in *; cbn [obj_set map fst].
  - apply NoDup_singleton.
  - apply NoDup_cons in H as [Hk H].
    case_bool_decide as E; cbn [map fst]; apply NoDup_cons.
    + subst k0. split; assumption.
    + split; [|apply IH, H].
      intros Hin. apply (obj_set_keys k v o k0) in Hin as [->|Hin]; [congruence|].
      apply Hk, Hin.
Qed.

Lemma obj_set_Forall {A} (P : jstring * A -> Prop) k v o :
  P (k, v) -> Forall P o -> Forall P (obj_set k v o).
Proof.
  intros Hkv. induction 1 as [|[k0 v0] o H0 H IH]; cbn [obj_set].
  - repeat constructor. exact Hkv.
  - case_bool_decide; constructor; assumption.
Qed.

Section WithCollaborators.
Variable world : Type.
Variable JSON_parse : jstring -> option json.
Variable toLowerCase : jstring -> jstring.
Variable Number_toString : R -> jstring.
Variable String_replace : jstring -> jstring -> jstring -> jstring.
Variable EXTRACT_RELATIONS_PROMPT : jstring.
Variable DELETE_RELATIONS_SYSTEM_PROMPT : jstring.
Variable customPrompt : option jstring.
Variable generateResponse : list message -> tool -> world -> result LLMResponse * world.
Variable embed : jstring -> world -> result (list R) * world.
Variable graph_query :
  Cypher.query -> GraphStore.params -> world -> result (list record) * world.

Lemma normalize_spaceless s : spaceless (normalize toLowerCase s) = true.
Proof. apply spaceless_spaces_to_underscores. Qed.

Lemma normalize_json_inv x :
  match normalize_json toLowerCase x with
  | Ok s => is_string x = true /\ spaceless s = true
  | Throw e => is_string x = false /\ e = TypeError
  end.
Proof.
  destruct x as [[| | |s| |]|]; cbn; try (split; reflexivity).
  split; [reflexivity | apply normalize_spaceless].
Qed.

Lemma triple_of_json_inv item :
  match triple_of_json toLowerCase item with
  | Ok t => is_triple_json item = true /\ triple_spaceless t = true
  | Throw e => is_triple_json item = false /\ e = TypeError
  end.
Proof.
  unfold triple_of_json, get_prop, is_triple_json.
  destruct item as [| | | | |fs]; try (split; reflexivity).
  pose proof (normalize_json_inv (field (js "source") fs)) as Hs.
  pose proof (normalize_json_inv (field (js "relationship") fs)) as Hr.
  pose proof (normalize_json_inv (field (js "destination") fs)) as Hd.
  destruct (normalize_json toLowerCase (field (js "source") fs)) as [s1|e1];
    destruct Hs as [-> Hs];
    destruct (normalize_json toLowerCase (field (js "relationship") fs)) as [r1|e2];
    destruct Hr as [-> Hr];
    destruct (normalize_json toLowerCase (field (js "destination") fs)) as [d1|e3];
    destruct Hd as [-> Hd]; split; try reflexivity.
  unfold triple_spaceless. cbn [source relationship destination].
  rewrite Hs, Hr, Hd. reflexivity.
Qed.

(** [_removeSpacesFromEntities] returns exactly when every item is an
    object whose source, relationship and destination are strings: it
    then returns one triple per item, none of whose fields holds a
    space.  On any other list it throws a TypeError. *)
Theorem removeSpaces_total (entityList : list json) :
  match _removeSpacesFromEntities toLowerCase entityList with
  | Ok ts =>
      forallb is_triple_json entityList = true /\
      length ts = length entityList /\
      forallb triple_spaceless ts = true
  | Throw e => forallb is_triple_json entityList = false /\ e = TypeError
  end.
Proof.
  induction entityList as [|item tl IH]; cbn [_removeSpacesFromEntities forallb].
  - repeat split.
  - pose proof (triple_of_json_inv item) as Hi.
    destruct (triple_of_json toLowerCase item) as [t|e]; destruct Hi as [-> Hi].
    + destruct (_removeSpacesFromEntities toLowerCase tl) as [ts|e].
      * destruct IH as (-> & L & S). cbn [length forallb]. rewrite Hi, S, L.
        repeat split.
      * destruct IH as [-> ->]. split; reflexivity.
    + split; [reflexivity | exact Hi].
Qed.

Lemma removeSpaces_spaceless (entityList : list json) : forall ts,
  _removeSpacesFromEntities toLowerCase entityList = Ok ts ->
  forallb triple_spaceless ts = true.
Proof.
  induction entityList as [|item tl IH]; intros ts H;
    cbn [_removeSpacesFromEntities] in H.
  - injection H as <-. reflexivity.
  - pose proof (triple_of_json_inv item) as Hi.
    destruct (triple_of_json toLowerCase item) as [t|e]; [|discriminate].
    destruct (_removeSpacesFromEntities toLowerCase tl) as [ts0|e]; [|discriminate].
    injection H as <-. cbn [forallb]. rewrite (proj2 Hi), (IH ts0 eq_refl).
    reflexivity.
Qed.

(** ** Entity extraction *)

Lemma normalize_entries_inv es : forall out m,
  normalize_entries toLowerCase es out = Ok m ->
  NoDup (keys out) ->
  Forall (fun kv => spaceless (fst kv) && spaceless (snd kv) = true) out ->
  NoDup (keys m) /\
  Forall (fun kv => spaceless (fst kv) && spaceless (snd kv) = true) m.
Proof.
  induction es as [|[k v] es IH]; intros out m H Hnd Hall; cbn [normalize_entries] in H.
  - injection H as <-. split; assumption.
  - pose proof (normalize_json_inv v) as Hv.
    destruct (normalize_json toLowerCase v) as [v1|e]; [|discriminate].
    destruct Hv as [_ Hv].
    apply (IH _ _ H).
    + apply obj_set_NoDup, Hnd.
    + apply obj_set_Forall; [|exact Hall].
      cbn [fst snd]. rewrite normalize_spaceless, Hv. reflexivity.
Qed.

Lemma normalize_entries_throw es : forall out k v,
  obj_get k es = Some v -> is_string v = false ->
  normalize_entries toLowerCase es out = Throw TypeError.
Proof.
  induction es as [|[k0 v0] es IH]; intros out k v Hk Hv; [discriminate|].
  cbn [normalize_entries obj_get] in *.
  pose proof (normalize_json_inv v0) as H0.
  destruct (normalize_json toLowerCase v0) as [v1|e]; destruct H0 as [H0 H1].
  - case_bool_decide as E.
    + injection Hk as ->. congruence.
    + apply (IH _ k v Hk Hv).
  - rewrite H1. reflexivity.
Qed.

(** The map [_retrieveNodesFromData] returns has one entry per name, and
    neither a name nor a type in it holds a space. *)
Theorem retrieveNodes_normalized (data : jstring) (f : filters) (w w1 : world)
    (entityTypeMap : object jstring) :
  _retrieveNodesFromData world JSON_parse toLowerCase Number_toString
    generateResponse data f w = (Ok entityTypeMap, w1) ->
  NoDup (keys entityTypeMap) /\
  Forall (fun kv => spaceless (fst kv) && spaceless (snd kv) = true) entityTypeMap.
Proof.
  unfold _retrieveNodesFromData, bind, lift. intros H.
  destruct (generateResponse _ _ w) as [[resp|e] w0]; [|discriminate].
  injection H as H _.
  apply (normalize_entries_inv _ _ _ H); constructor.
Qed.

(** The names are normalised after the [try] block: an entity collected
    with a type that is not a string (missing, null, a number) makes
    [_retrieveNodesFromData] throw a TypeError, and with it [search] and
    [add], before the embedder or the store is called.  (The name
    [__proto__] is left aside: assigning to it adds no entry to a
    JavaScript object.) *)
Theorem retrieveNodes_throws_on_untyped_entity (data : jstring) (f : filters)
    (limit : nat) (w w1 : world) (searchResults : LLMResponse)
    (k : jstring) (v : option json) :
  generateResponse
    [Msg (js "system") (entity_system_prompt Number_toString (userId_of f));
     Msg (js "user") data] EXTRACT_ENTITIES_TOOL w = (Ok searchResults, w1) ->
  obj_get k (try_collect JSON_parse Number_toString searchResults) = Some v ->
  k <> js "__proto__" ->
  is_string v = false ->
  _retrieveNodesFromData world JSON_parse toLowerCase Number_toString
    generateResponse data f w = (Throw TypeError, w1) /\
  search world JSON_parse toLowerCase Number_toString generateResponse embed
    graph_query data f limit w = (Throw TypeError, w1) /\
  add world JSON_parse toLowerCase Number_toString String_replace
    EXTRACT_RELATIONS_PROMPT DELETE_RELATIONS_SYSTEM_PROMPT customPrompt
    generateResponse embed graph_query data f w = (Throw TypeError, w1).
Proof.
  intros Hg Hk _ Hv.
  assert (H : _retrieveNodesFromData world JSON_parse toLowerCase Number_toString
                generateResponse data f w = (Throw TypeError, w1)).
  { unfold _retrieveNodesFromData, bind, lift. rewrite Hg.
    rewrite (normalize_entries_throw _ _ k v Hk Hv). reflexivity. }
  split; [exact H|]. split.
  - unfold search, bind. rewrite H. reflexivity.
  - unfold add, bind. rewrite H. reflexivity.
Qed.

Lemma collect_calls_throw_app pre more : forall m m1 e,
  collect_calls JSON_parse Number_toString pre m = (m1, Throw e) ->
  collect_calls JSON_parse Number_toString (pre ++ more) m = (m1, Throw e).
Proof.
  induction pre as [|call pre IH]; intros m m1 e H; [discriminate|].
  cbn [collect_calls app] in *.
  case_bool_decide; [|apply IH, H].
  destruct (JSON_parse (arguments call)) as [args|]; [|exact H].
  destruct (get_prop (Some args) "entities") as [ents|e0]; [|exact H].
  destruct (iterate ents) as [items|e0]; [|exact H].
  destruct (collect_items Number_toString items m) as [m2 [[]|e0]]; [|exact H].
  apply IH, H.
Qed.

(** What the [try] block of [_retrieveNodesFromData] keeps of a failure:
    once reading a tool call has thrown, the calls after it are never
    read, and the entities collected up to the failure stay in the map. *)
Theorem try_collect_stops_at_failure (content role : jstring)
    (pre more : list ToolCall) (e : exn) :
  snd (collect_calls JSON_parse Number_toString pre []) = Throw e ->
  try_collect JSON_parse Number_toString
    (Response content role (Some (pre ++ more)))
  = fst (collect_calls JSON_parse Number_toString pre []).
Proof.
  intros H. unfold try_collect.
  destruct (collect_calls JSON_parse Number_toString pre []) as [m1 r] eqn:E.
  cbn [snd] in H. subst r.
  rewrite (collect_calls_throw_app pre more _ _ _ E). reflexivity.
Qed.

(** ** Deletions *)

Lemma parse_deletions_throws calls e :
  parse_deletions JSON_parse calls = Throw e -> e = SyntaxError.
Proof.
  induction calls as [|c calls IH]; cbn [parse_deletions]; [discriminate|].
  case_bool_decide; [|exact IH].
  destruct (JSON_parse (arguments c)); [|congruence].
  destruct (parse_deletions JSON_parse calls); [discriminate|].
  intros [= <-]. apply IH. reflexivity.
Qed.

Lemma parse_deletions_bad calls call :
  In call calls -> name call = js "delete_graph_memory" ->
  JSON_parse (arguments call) = None ->
  parse_deletions JSON_parse calls = Throw SyntaxError.
Proof.
  intros Hin Hn Hp. induction calls as [|c calls IH]; [destruct Hin|].
  cbn [parse_deletions]. destruct Hin as [->|Hin].
  - rewrite bool_decide_eq_true_2 by exact Hn. rewrite Hp. reflexivity.
  - specialize (IH Hin). case_bool_decide; [|exact IH].
    destruct (JSON_parse (arguments c)); [|reflexivity].
    rewrite IH. reflexivity.
Qed.

(** Nothing guards the parsing of the deletion instructions: one
    [delete_graph_memory] call whose arguments are not JSON, anywhere
    among the tool calls, makes [_getDeleteEntitiesFromSearchOutput]
    throw the SyntaxError, whatever the other calls hold. *)
Theorem getDeleteEntities_throws_bad_json (searchOutput : list SearchOutputItem)
    (data : jstring) (f : filters) (w w1 : world)
    (content role : jstring) (calls : list ToolCall) (call : ToolCall) :
  (forall ms, generateResponse ms DELETE_MEMORY_TOOL_GRAPH w
     = (Ok (Response content role (Some calls)), w1)) ->
  In call calls ->
  name call = js "delete_graph_memory" ->
  JSON_parse (arguments call) = None ->
  _getDeleteEntitiesFromSearchOutput world JSON_parse toLowerCase Number_toString
    String_replace DELETE_RELATIONS_SYSTEM_PROMPT generateResponse
    searchOutput data f w = (Throw SyntaxError, w1).
Proof.
  intros Hg Hin Hn Hp. unfold _getDeleteEntitiesFromSearchOutput, bind, lift.
  rewrite Hg. rewrite (parse_deletions_bad calls call Hin Hn Hp). reflexivity.
Qed.

(** ** Search *)

(** When the model names no entity, [search] returns no triple, and it
    has called neither the embedder nor the store: the world is the one
    the model left. *)
Theorem search_without_entities (query : jstring) (f : filters) (limit : nat)
    (w w1 : world) (searchResults : LLMResponse) :
  generateResponse
    [Msg (js "system") (entity_system_prompt Number_toString (userId_of f));
     Msg (js "user") query] EXTRACT_ENTITIES_TOOL w = (Ok searchResults, w1) ->
  try_collect JSON_parse Number_toString searchResults = [] ->
  search world JSON_parse toLowerCase Number_toString generateResponse embed
    graph_query query f limit w = (Ok [], w1).
Proof.
  intros Hg Hc. unfold search, _retrieveNodesFromData, bind, lift.
  rewrite Hg, Hc. reflexivity.
Qed.

Lemma for_each_length {A B} (g : A -> M world B) l : forall w ys w',
  for_each world g l w = (Ok ys, w') -> length ys = length l.
Proof.
  induction l as [|x l IH]; intros w ys w' H; cbn [for_each] in H.
  - unfold ret in H. injection H as <- _. reflexivity.
  - unfold bind in H. destruct (g x w) as [[y|e] w0]; [|discriminate].
    destruct (for_each world g l w0) as [[ys0|e] w2] eqn:E; [|discriminate].
    unfold ret in H. injection H as <- _. cbn [length]. f_equal. apply (IH _ _ _ E).
Qed.

Lemma parse_relations_spaceless resp ts :
  parse_relations JSON_parse toLowerCase resp = Ok ts ->
  forallb triple_spaceless ts = true.
Proof.
  assert (G : forall l, _removeSpacesFromEntities toLowerCase l = Ok ts ->
                        forallb triple_spaceless ts = true).
  { intros l H. apply (removeSpaces_spaceless l ts H). }
  unfold parse_relations.
  destruct resp as [s|c r [[|tc tl]|]]; try apply G.
  destruct (arguments tc); [apply G|].
  destruct (JSON_parse _) as [args|]; [|discriminate].
  destruct (get_prop (Some args) "entities") as [ents|]; [|discriminate].
  destruct (entities_or_empty ents) as [l0|]; [apply G | discriminate].
Qed.

(** What [add] returns when it returns: the relations it reports are the
    extracted triples with no space left in any field, and the store
    was asked to persist each of them: there is one store result per
    relation. *)
Theorem add_result_shape (data : jstring) (f : filters) (w w' : world)
    (res : AddResult) :
  add world JSON_parse toLowerCase Number_toString String_replace
    EXTRACT_RELATIONS_PROMPT DELETE_RELATIONS_SYSTEM_PROMPT customPrompt
    generateResponse embed graph_query data f w = (Ok res, w') ->
  length (added_entities res) = length (relations res) /\
  forallb triple_spaceless (relations res) = true.
Proof.
  unfold add, bind. intros H.
  destruct (_retrieveNodesFromData _ _ _ _ _ data f w) as [[m|e] w1]; [|discriminate].
  unfold _establishNodesRelationsFromData, bind, lift in H.
  destruct (generateResponse _ RELATIONS_TOOL w1) as [[resp|e] w2]; [|discriminate].
  destruct (parse_relations JSON_parse toLowerCase resp) as [toBeAdded|e] eqn:Er;
    [|discriminate].
  destruct (_searchGraphDb _ _ _ _ _ f 100 w2) as [[so|e] w3]; [|discriminate].
  destruct (_getDeleteEntitiesFromSearchOutput _ _ _ _ _ _ _ so data f w3)
    as [[del|e] w4]; [|discriminate].
  destruct (_deleteEntities _ _ del _ w4) as [[dres|e] w5]; [|discriminate].
  destruct (_addEntities world Number_toString embed graph_query toBeAdded
              (userId_of f) m w5) as [[ares|e] w6] eqn:Ea; [|discriminate].
  unfold ret in H. injection H as <- _. cbn [added_entities relations].
  split.
  - unfold _addEntities in Ea. apply (for_each_length _ _ _ _ _ Ea).
  - apply (parse_relations_spaceless _ _ Er).
Qed.

End WithCollaborators.

(** ** Re-ranking *)

Lemma rerank_eq query hits :
  hits <> [] ->
  rerank query hits =
  map (fun d => Triple (nth 0 d []) (nth 1 d []) (nth 2 d []))
      (firstn 5 (BM25.search (BM25.new (map doc3 hits)) (split_space query))).
Proof. destruct hits; [congruence | reflexivity]. Qed.

Lemma triple_of_doc3 hits :
  map (fun d => Triple (nth 0 d []) (nth 1 d []) (nth 2 d [])) (map doc3 hits)
  = map triple_of_item hits.
Proof. rewrite map_map. reflexivity. Qed.

(** [search] never invents a triple: what the re-ranking returns are
    min(5, n) of the n hits of the recall phase, each taken once. *)
Theorem rerank_returns_hits (query : jstring) (hits : list SearchOutputItem) :
  length (rerank query hits) = Nat.min 5 (length hits) /\
  exists others,
    Permutation (map triple_of_item hits) (rerank query hits ++ others).
Proof.
  destruct hits as [|h hits]; [split; [reflexivity | exists []; reflexivity]|].
  rewrite rerank_eq by discriminate.
  set (docs := map doc3 (h :: hits)).
  set (ranked := BM25.search (BM25.new docs) (split_space query)).
  pose proof (search_perm docs (split_space query)) as P. fold ranked in P.
  split.
  - rewrite length_map, length_firstn, (Permutation_length P).
    unfold docs. rewrite length_map. reflexivity.
  - exists (map (fun d => Triple (nth 0 d []) (nth 1 d []) (nth 2 d []))
                (skipn 5 ranked)).
    rewrite <- map_app, firstn_skipn, <- triple_of_doc3. fold docs.
    apply Permutation_map. symmetry. exact P.
Qed.

Lemma insert_desc_const {A} (key : A -> R) x l :
  Forall (fun y => key y = key x) l -> insert_desc key x l = x :: l.
Proof.
  destruct 1 as [|y l Hy _]; [reflexivity|]. cbn [insert_desc].
  destruct (Rlt_dec (key x) (key y)) as [Hlt|_]; [|reflexivity].
  rewrite Hy in Hlt. exfalso. exact (Rlt_irrefl _ Hlt).
Qed.

Lemma sort_desc_const {A} (key : A -> R) (c : R) l :
  Forall (fun y => key y = c) l -> sort_desc key l = l.
Proof.
  induction 1 as [|x l Hx H IH]; [reflexivity|].
  unfold sort_desc in *. cbn [fold_right]. rewrite IH.
  apply insert_desc_const. apply (Forall_impl _ _ _ H). intros y Hy. congruence.
Qed.

(** When no piece of the query, split at its spaces, is the source, the
    relationship or the destination of a hit, every score is 0 and the
    stable sort changes nothing: [search] returns the first five hits
    in the order the store returned them. *)
Theorem rerank_without_shared_token (query : jstring)
    (hits : list SearchOutputItem) :
  (forall t item, t ∈ split_space query -> item ∈ hits -> t ∉ doc3 item) ->
  rerank query hits = map triple_of_item (firstn 5 hits).
Proof.
  intros H. destruct hits as [|h hits]; [reflexivity|].
  rewrite rerank_eq by discriminate.
  set (docs := map doc3 (h :: hits)). set (q := split_space query).
  assert (S : BM25.search (BM25.new docs) q = docs).
  { unfold BM25.search. destruct (new_fields docs) as (-> & _).
    rewrite (sort_desc_const snd 0%R).
    - apply map_fst_scores.
    - apply Forall_forall. intros [d s] Hin.
      apply list_elem_of_lookup in Hin as [j Hj].
      rewrite scores_lookup in Hj.
      destruct (docs !! j) as [d0|] eqn:E; [|discriminate].
      injection Hj as <- <-. cbn [snd].
      apply score_spec_none. intros t Ht.
      assert (Hd : d0 ∈ docs) by (apply list_elem_of_lookup; eauto).
      unfold docs in Hd. apply list_elem_of_fmap in Hd as [item [-> Hitem]].
      apply (H t item Ht Hitem). }
  rewrite S. unfold docs. rewrite <- firstn_map, triple_of_doc3, firstn_map.
  reflexivity.
Qed.

End EngineFacts.

Module EngineExamples.
Import EngineFacts.

Lemma retrieveNodes_normalized_witness :
  NoDup (keys [(js "alice", js "person")]) /\
  Forall (fun kv => spaceless (fst kv) && spaceless (snd kv) = true)
         [(js "alice", js "person")].
Proof.
  apply (retrieveNodes_normalized nat read_json ascii_lower print_number
           (canned_model alice_entities_response)
           (js "Where does Alice work?") alice 0%nat 1%nat).
  vm_compute. reflexivity.
Defined.

Lemma retrieveNodes_throws_on_untyped_entity_witness :
  search nat read_json ascii_lower print_number
    (canned_model untyped_entity_response) null_embedder empty_store_query
    (js "Where does Alice work?") alice 100%nat 0%nat = (Throw TypeError, 1%nat).
Proof.
  apply (retrieveNodes_throws_on_untyped_entity nat read_json ascii_lower
           print_number (fun s _ _ => s) [] [] None
           (canned_model untyped_entity_response) null_embedder empty_store_query
           (js "Where does Alice work?") alice 100%nat 0%nat 1%nat
           untyped_entity_response (js "Alice") None).
  - vm_compute. reflexivity.
  - vm_compute. reflexivity.
  - vm_compute. discriminate.
  - reflexivity.
Defined.

Lemma try_collect_stops_at_failure_witness :
  try_collect read_json print_number
    (Response [] (js "assistant")
       (Some ([Call (js "extract_entities") alice_entities_text;
               Call (js "extract_entities") (js "{not json")]
              ++ [Call (js "extract_entities") alice_entities_text])))
  = [(js "Alice", Some (JStr (js "person")))].
Proof.
  rewrite (try_collect_stops_at_failure read_json print_number [] (js "assistant")
             [Call (js "extract_entities") alice_entities_text;
              Call (js "extract_entities") (js "{not json")]
             [Call (js "extract_entities") alice_entities_text] SyntaxError).
  - vm_compute. reflexivity.
  - vm_compute. reflexivity.
Defined.

Lemma getDeleteEntities_throws_bad_json_witness :
  _getDeleteEntitiesFromSearchOutput nat read_json ascii_lower print_number
    (fun s _ _ => s) []
    (canned_model
       (Response [] (js "assistant")
          (Some [Call (js "delete_graph_memory") works_at_text;
                 Call (js "delete_graph_memory") (js "{not json")])))
    [] (js "Alice left Acme") alice 0%nat = (Throw SyntaxError, 1%nat).
Proof.
  apply (getDeleteEntities_throws_bad_json nat read_json ascii_lower print_number
           (fun s _ _ => s) [] _ [] (js "Alice left Acme") alice 0%nat 1%nat
           [] (js "assistant")
           [Call (js "delete_graph_memory") works_at_text;
            Call (js "delete_graph_memory") (js "{not json")]
           (Call (js "delete_graph_memory") (js "{not json"))).
  - intros ms. reflexivity.
  - right. left. reflexivity.
  - reflexivity.
  - vm_compute. reflexivity.
Defined.

Lemma search_without_entities_witness :
  search nat read_json ascii_lower print_number (canned_model no_tool_calls)
    null_embedder empty_store_query (js "hello") alice 100%nat 0%nat
  = (Ok [], 1%nat).
Proof.
  apply (search_without_entities nat read_json ascii_lower print_number
           (canned_model no_tool_calls) null_embedder empty_store_query
           (js "hello") alice 100%nat 0%nat 1%nat no_tool_calls).
  - reflexivity.
  - reflexivity.
Defined.

Lemma add_result_shape_witness :
  exists res w',
    add nat read_json ascii_lower print_number (fun s _ _ => s) [] [] None
      (model_by_tool works_at_answers)
      null_embedder empty_store_query (js "Alice Smith works at Acme") alice 0%nat
    = (Ok res, w') /\
    relations res = [Triple (js "alice_smith") (js "works_at") (js "acme")] /\
    length (added_entities res) = length (relations res).
Proof.
  eexists _, _. split; [vm_compute; reflexivity|]. split; [reflexivity|].
  apply (add_result_shape nat read_json ascii_lower print_number (fun s _ _ => s)
           [] [] None
           (model_by_tool works_at_answers)
           null_embedder empty_store_query (js "Alice Smith works at Acme") alice
           0%nat 10%nat).
  vm_compute. reflexivity.
Defined.

Lemma rerank_without_shared_token_witness :
  rerank (js "hello world")
    [Item (js "alice") (js "1") (js "works_at") (js "7") (js "acme") (js "2") VNull;
     Item (js "bob") (js "3") (js "likes") (js "8") (js "pizza") (js "4") VNull]
  = [Triple (js "alice") (js "works_at") (js "acme");
     Triple (js "bob") (js "likes") (js "pizza")].
Proof.
  rewrite rerank_without_shared_token; [reflexivity|].
  intros t item Ht Hi Hd.
  apply list_elem_of_In in Ht. apply list_elem_of_In in Hi.
  apply list_elem_of_In in Hd.
  vm_compute in Ht. destruct Ht as [<-|[<-|[]]];
    cbn [In] in Hi; destruct Hi as [<-|[<-|[]]]; vm_compute in Hd;
    repeat (destruct Hd as [Hd|Hd]; [discriminate|]); exact Hd.
Defined.

End EngineExamples.

Import Js Regex RegexFacts CypherTranslator CypherTranslatorFacts FalkorDBGraph.

Module WrapperFacts.

Section WithDriver.
Variable driver : Type.
Variable connect : jstring -> driver -> result unit * driver.
Variable graph_query :
  jstring -> jstring -> CypherTranslator.params -> driver
  -> result (option (list (gmap jstring value))) * driver.
Variable client_close : driver -> result unit * driver.
Variable Number_toString : R -> jstring.

Lemma init_connected cfg g d g1 d1 :
  connected_as cfg g ->
  init driver connect g d = (Ok g1, d1) ->
  connected_as cfg g1 /\ initialized g1 = true.
Proof.
  intros [Hc Hs] H. unfold init in H.
  destruct (initialized g) eqn:Ei.
  - injection H as <- _. split; [|exact Ei]. split; [exact Hc|].
    destruct Hs as [(_ & _ & F)|Hs]; [discriminate | right; exact Hs].
  - destruct (connect (url_of (config g)) d) as [[u|e] d0]; [|discriminate].
    injection H as <- _. rewrite Hc. split; [|reflexivity].
    split; [reflexivity|]. right. split; reflexivity.
Qed.

Lemma query_wrapper g cypher ps h d r g1 h1 d1 :
  query driver connect graph_query Number_toString g cypher ps h d = (r, g1, h1, d1) ->
  (g1 = g /\ exists e, r = Throw e /\ init driver connect g d = (Throw e, d1)) \/
  (exists d0, init driver connect g d = (Ok g1, d0)).
Proof.
  unfold query. destruct (init driver connect g d) as [[g0|e] d0].
  - intros H. right. exists d0.
    destruct (match ps with
              | Some p => (p, h)
              | None => (fresh (dom h), <[fresh (dom h) := ∅]> h)
              end) as [p h0].
    destruct (translate Number_toString cypher p h0) as [[q tp] h2].
    destruct (graph_query _ q _ d0) as [[data|e] d2]; injection H as _ <- _ _;
      reflexivity.
  - intros H. injection H as <- <- _ <-. left. split; [reflexivity|].
    exists e. split; reflexivity.
Qed.

(** Whatever was called on a wrapper since it was constructed for a
    configuration, it still holds that configuration, and it is either
    not connected yet or connected to the URL of the configuration with
    the graph named by the configuration (graphName, or mem0) selected. *)
Theorem reachable_connected_as (cfg : FalkorDBConfig) (g : t) :
  reachable driver connect graph_query client_close Number_toString cfg g ->
  connected_as cfg g.
Proof.
  induction 1 as [|g d g1 d1 _ IH H|g cypher ps h d r g1 h1 d1 _ IH H
                  |g d g1 d1 _ IH H].
  - split; [reflexivity|]. left. repeat split.
  - apply (init_connected _ _ _ _ _ IH H).
  - apply query_wrapper in H as [[-> _]|[d0 H]]; [exact IH|].
    apply (init_connected _ _ _ _ _ IH H).
  - unfold close in H. destruct IH as [Hc Hs].
    destruct (client g) as [c|] eqn:Ec.
    + destruct (client_close d) as [[u|e] d0]; [|discriminate].
      injection H as <- _. split; [exact Hc|]. right.
      destruct Hs as [(Hn & _)|[Hu Hg]]; [discriminate|].
      cbn [client graph]. split; [congruence | exact Hg].
    + injection H as <- _. split; [exact Hc|]. left.
      destruct Hs as [(_ & Hg & Hi)|[Hu _]]; [|discriminate].
      repeat split; assumption.
Qed.

(** A wrapper that is not connected, or is connected as its
    configuration says, consults the driver on the graph named by the
    configuration and on no other: what the driver would answer for any
    other graph name cannot change the outcome of a query. *)
Theorem query_only_configured_graph (cfg : FalkorDBConfig) (g : t)
    (graph_query' :
       jstring -> jstring -> CypherTranslator.params -> driver
       -> result (option (list (gmap jstring value))) * driver)
    (cypher : jstring) (ps : option loc) (h : heap) (d : driver) :
  connected_as cfg g ->
  (forall q m d0,
     graph_query' (selected_name cfg) q m d0 = graph_query (selected_name cfg) q m d0) ->
  query driver connect graph_query' Number_toString g cypher ps h d
  = query driver connect graph_query Number_toString g cypher ps h d.
Proof.
  intros Hr Hq.
  unfold query. destruct (init driver connect g d) as [[g0|e] d0] eqn:Ei; [|reflexivity].
  destruct (init_connected _ _ _ _ _ Hr Ei) as [[_ Hs] Hi].
  assert (Hg : graph g0 = Some (selected_name cfg)).
  { destruct Hs as [(_ & _ & Hf)|[_ Hg]]; [congruence | exact Hg]. }
  destruct (match ps with
            | Some p => (p, h)
            | None => (fresh (dom h), <[fresh (dom h) := ∅]> h)
            end) as [p h0].
  destruct (translate Number_toString cypher p h0) as [[q tp] h2].
  rewrite Hg. cbn [default]. rewrite Hq. reflexivity.
Qed.

(** The connection is made once: a query that found the wrapper
    connected, or connected it, leaves it connected, and no later query
    calls [connect], so that its outcome is the same whatever [connect]
    would do. *)
Theorem query_connects_once (g g1 : t) (cypher : jstring) (ps : option loc)
    (h h1 : heap) (d d1 : driver) (r : result (list (gmap jstring value))) :
  (initialized g = true \/ exists d0, connect (url_of (config g)) d = (Ok tt, d0)) ->
  query driver connect graph_query Number_toString g cypher ps h d
    = (r, g1, h1, d1) ->
  initialized g1 = true /\
  forall (connect' : jstring -> driver -> result unit * driver) cypher' ps' h' d',
    query driver connect' graph_query Number_toString g1 cypher' ps' h' d'
    = query driver connect graph_query Number_toString g1 cypher' ps' h' d'.
Proof.
  intros Hc H.
  assert (Hi : initialized g1 = true).
  { apply query_wrapper in H as [[-> (e & _ & Hi)]|[d0 Hi]]; unfold init in Hi.
    - destruct (initialized g); [discriminate|].
      destruct Hc as [Hc|[d0 Hc]]; [discriminate|]. rewrite Hc in Hi. discriminate.
    - destruct (initialized g) eqn:E.
      + injection Hi as <- _. exact E.
      + destruct (connect (url_of (config g)) d) as [[u|e] d2]; [|discriminate].
        injection Hi as <- _. reflexivity. }
  split; [exact Hi|]. intros connect' cypher' ps' h' d'.
  unfold query, init. rewrite Hi. reflexivity.
Qed.

(** How a query fails.  When the connection cannot be made, the
    driver's exception is rethrown as it is and the wrapper stays
    unconnected, so that the next query tries again.  When the server
    refuses the query, the exception thrown is an Error whose message is
    "FalkorDB query failed: ", the driver's message, a line break and
    "Query: " followed by the translated text (not the text the caller
    passed); the wrapper stays connected. *)
Theorem query_failures (g : t) (cypher : jstring) (p : loc) (h : heap)
    (d : driver) :
  (forall e d1,
     init driver connect g d = (Throw e, d1) ->
     query driver connect graph_query Number_toString g cypher (Some p) h d
     = (Throw e, g, h, d1)) /\
  (forall g1 d1 translatedQuery translatedParams h1 e d2,
     init driver connect g d = (Ok g1, d1) ->
     translate Number_toString cypher p h
       = (translatedQuery, translatedParams, h1) ->
     graph_query (default [] (graph g1)) translatedQuery
       (default ∅ (h1 !! translatedParams)) d1 = (Throw e, d2) ->
     query driver connect graph_query Number_toString g cypher (Some p) h d
     = (Throw (Exn (js "Error")
                 (js "FalkorDB query failed: " ++ exn_text e ++ [10]
                    ++ js "Query: " ++ translatedQuery)),
        g1, h1, d2) /\
     initialized g1 = true).
Proof.
  split.
  - intros e d1 Hi. unfold query. rewrite Hi. reflexivity.
  - intros g1 d1 q tp h1 e d2 Hi Et Hq. split.
    + unfold query. rewrite Hi, Et, Hq. reflexivity.
    + unfold init in Hi. destruct (initialized g) eqn:E.
      * injection Hi as <- _. exact E.
      * destruct (connect (url_of (config g)) d) as [[u|e0] d0]; [|discriminate].
        injection Hi as <- _. reflexivity.
Qed.

Lemma translate_frame (query : jstring) (p : loc) (h : heap) (l : loc) (o : params) :
  h !! l = Some o ->
  snd (translate Number_toString query p h) !! l = Some o.
Proof.
  intros Hl. unfold translate.
  set (p' := fresh (dom h)).
  set (h0 := <[p' := default ∅ (h !! p)]> h).
  set (q2 := translateRound (translateElementId query)).
  pose proof (translateApoc_frame Number_toString q2 p' h0 l) as F.
  destruct (translateApocMergeRelationship Number_toString q2 p' h0) as [q' h'].
  cbn [snd] in *.
  assert (Hne : l <> p').
  { intros ->. pose proof (fresh_loc_not_in h) as N. fold p' in N. congruence. }
  rewrite (F Hne). unfold h0. rewrite lookup_insert_ne by congruence. exact Hl.
Qed.

(** A query never changes an object the caller holds: whether it
    returns or throws, every object of the heap, the parameters it was
    passed among them, has the entries it had before. *)
Theorem query_keeps_heap (g g1 : t) (cypher : jstring) (ps : option loc)
    (h h1 : heap) (d d1 : driver) (r : result (list (gmap jstring value)))
    (l : loc) (o : params) :
  query driver connect graph_query Number_toString g cypher ps h d
    = (r, g1, h1, d1) ->
  h !! l = Some o -> h1 !! l = Some o.
Proof.
  unfold query. intros H Hl.
  destruct (init driver connect g d) as [[g0|e] d0].
  - assert (G : forall p h0, h0 !! l = Some o ->
                let '(q, tp, h2) := translate Number_toString cypher p h0 in
                h2 !! l = Some o).
    { intros p h0 H0. pose proof (translate_frame cypher p h0 l o H0) as F.
      destruct (translate Number_toString cypher p h0) as [[q tp] h2]. exact F. }
    destruct ps as [p|].
    + specialize (G p h Hl).
      destruct (translate Number_toString cypher p h) as [[q tp] h2].
      destruct (graph_query _ q _ d0) as [[data|e] d2]; injection H as _ _ <- _;
        exact G.
    + assert (H0 : (<[fresh (dom h) := ∅]> h : heap) !! l = Some o).
      { rewrite lookup_insert_ne; [exact Hl|].
        intros <-. pose proof (fresh_loc_not_in h). congruence. }
      specialize (G (fresh (dom h)) _ H0).
      destruct (translate Number_toString cypher (fresh (dom h)) _) as [[q tp] h2].
      destruct (graph_query _ q _ d0) as [[data|e] d2]; injection H as _ _ <- _;
        exact G.
  - injection H as _ _ <- _. exact Hl.
Qed.

End WithDriver.

End WrapperFacts.

Module WrapperExamples.
Import WrapperFacts.

Lemma reachable_connected_as_witness :
  connected_as default_config
    (snd (fst (fst (query (list event) trace_connect trace_query print_number
                      (new default_config) (js "RETURN 1") None ∅ [])))).
Proof.
  destruct (query (list event) trace_connect trace_query print_number
              (new default_config) (js "RETURN 1") None ∅ [])
    as [[[r g1] h1] d1] eqn:E. cbn [fst snd].
  apply (reachable_connected_as (list event) trace_connect trace_query trace_close
           print_number).
  apply (reach_query _ _ _ _ _ _ _ _ _ _ _ _ _ _ _ (reach_new _ _ _ _ _ _) E).
Defined.

Lemma query_only_configured_graph_witness :
  query (list event) trace_connect mem0_only_query print_number
    (new default_config) (js "RETURN 1") None ∅ []
  = query (list event) trace_connect trace_query print_number
      (new default_config) (js "RETURN 1") None ∅ [].
Proof.
  apply (query_only_configured_graph (list event) trace_connect trace_query
           print_number default_config).
  - split; [reflexivity|]. left. repeat split.
  - intros q m d0. reflexivity.
Defined.

Lemma query_connects_once_witness :
  initialized
    (snd (fst (fst (query (list event) trace_connect trace_query print_number
                      (new default_config) (js "RETURN 1") None ∅ [])))) = true.
Proof.
  destruct (query (list event) trace_connect trace_query print_number
              (new default_config) (js "RETURN 1") None ∅ [])
    as [[[r g1] h1] d1] eqn:E. cbn [fst snd].
  refine (proj1 (query_connects_once (list event) trace_connect trace_query
                   print_number (new default_config) g1 (js "RETURN 1") None
                   ∅ h1 [] d1 r _ E)).
  right. eexists. reflexivity.
Defined.

Lemma query_failures_witness :
  fst (fst (fst (query (list event) trace_connect failing_query print_number
                   (new default_config) (js "RETURN elementId(n)")
                   (Some the_params) alice_heap [])))
  = Throw (Exn (js "Error")
             (js "FalkorDB query failed: syntax error" ++ [10]
                ++ js "Query: RETURN id(n)")).
Proof.
  destruct (query_failures (list event) trace_connect failing_query print_number
              (new default_config) (js "RETURN elementId(n)") the_params
              alice_heap []) as [_ H].
  specialize (H _ _ _ _ _ _ _ eq_refl eq_refl eq_refl) as [H _].
  rewrite H. vm_compute. reflexivity.
Defined.

Lemma query_keeps_heap_witness :
  snd (fst (query (list event) trace_connect trace_query print_number
              (new default_config) apoc_call (Some the_params) knows_heap []))
    !! the_params
  = Some (<[js "relType" := VStr (js "KNOWS")]>
            (<[js "other" := VStr (js "value")]> ∅)).
Proof.
  destruct (query (list event) trace_connect trace_query print_number
              (new default_config) apoc_call (Some the_params) knows_heap [])
    as [[[r g1] h1] d1] eqn:E. cbn [fst snd].
  apply (query_keeps_heap (list event) trace_connect trace_query print_number
           _ _ _ _ _ _ _ _ _ _ _ E).
  vm_compute. reflexivity.
Defined.

End WrapperExamples.

Import Js Regex RegexFacts CypherTranslator CypherTranslatorFacts RoundFacts.

Module ElementIdFacts.

Lemma open_paren_spec s tl :
  open_paren s = Some tl <->
  exists sp, s = sp ++ 40 :: tl /\ forallb is_space sp = true.
Proof.
  revert tl. induction s as [|c s IH]; intros tl; cbn [open_paren].
  - split; [discriminate|]. intros (sp & E & _). destruct sp; discriminate.
  - destruct (is_space c) eqn:Es.
    + rewrite IH. split.
      * intros (sp & -> & H). exists (c :: sp). split; [reflexivity|].
        cbn [forallb]. rewrite Es, H. reflexivity.
      * intros (sp & E & H). destruct sp as [|c0 sp].
        -- injection E as -> _. discriminate.
        -- injection E as <- ->. cbn [forallb] in H. apply andb_prop in H as [_ H].
           exists sp. split; [reflexivity | exact H].
    + destruct (c =? 40) eqn:Ec.
      * apply N.eqb_eq in Ec. subst c. split.
        -- intros [= <-]. exists []. split; reflexivity.
        -- intros (sp & E & H). destruct sp as [|c0 sp].
           ++ injection E as ->. reflexivity.
           ++ injection E as <- _. cbn [forallb] in H. rewrite Es in H. discriminate.
      * split; [discriminate|]. intros (sp & E & H). destruct sp as [|c0 sp].
        -- injection E as -> _. discriminate.
        -- injection E as <- _. cbn [forallb] in H. rewrite Es in H. discriminate.
Qed.

Lemma star_open_paren s : forall pv cs,
  rmatch (Star true (Chr is_space)) (rmatch (Chr (N.eqb 40)) Some) (MState pv s cs)
  = option_map (fun tl => MState (Some 40) tl cs) (open_paren s).
Proof.
  induction s as [|c s IH]; intros pv cs.
  - rewrite star_chr_nil. reflexivity.
  - rewrite star_chr_cons, rmatch_chr_cons, IH. cbn [open_paren].
    destruct (is_space c) eqn:Es.
    + destruct (open_paren s); [reflexivity|]. cbn [option_map].
      destruct (40 =? c) eqn:E; [|reflexivity].
      apply N.eqb_eq in E. subst c. discriminate.
    + rewrite (N.eqb_sym c 40). destruct (40 =? c) eqn:E; [|reflexivity].
      apply N.eqb_eq in E. subst c. reflexivity.
Qed.

Lemma elementId_re_unfold :
  elementId_re =
  Seq WordB (Seq (lit "elementId")
    (Seq (Star true (Chr is_space)) (Chr (N.eqb 40)))).
Proof. reflexivity. Qed.

Lemma starts_with_head f a n c s :
  starts_with f (a :: n) (c :: s) = true -> f a c = true.
Proof. cbn [starts_with]. intros H. apply andb_prop in H as [H _]. exact H. Qed.

(** The pattern matches at a position exactly where [elementId_at]
    finds a call. *)
Lemma match_at_elementId pv s :
  match_at elementId_re pv s
  = option_map (fun tl => MState (Some 40) tl []) (elementId_at pv s).
Proof.
  unfold match_at, elementId_at. rewrite elementId_re_unfold.
  rewrite rmatch_seq, rmatch_wordb. unfold word_before, word_after. cbn [prev rest].
  fold (word_opt pv).
  destruct (starts_with N.eqb (js "elementId") s) eqn:Est.
  - assert (Hw : match s with c :: _ => is_word c | [] => false end = true).
    { destruct s as [|c s]; [discriminate|].
      apply starts_with_head in Est. apply N.eqb_eq in Est. subst c. reflexivity. }
    rewrite Hw. rewrite xorb_true_r, andb_true_r.
    destruct (negb (word_opt pv)); [|reflexivity].
    rewrite rmatch_seq. unfold lit. rewrite rmatch_lit by discriminate.
    cbn [rest prev caps]. rewrite Est. rewrite rmatch_seq.
    apply star_open_paren.
  - rewrite andb_false_r.
    destruct (xorb _ _); [|reflexivity].
    rewrite rmatch_seq. unfold lit. rewrite rmatch_lit by discriminate.
    cbn [rest]. rewrite Est. reflexivity.
Qed.

Lemma starts_with_eq needle : forall s,
  starts_with N.eqb needle s = true <-> exists tl, s = needle ++ tl.
Proof.
  induction needle as [|a n IH]; intros s.
  - split; [intros _; exists s; reflexivity | reflexivity].
  - destruct s as [|c s]; cbn [starts_with].
    + split; [discriminate | intros [tl E]; discriminate].
    + rewrite andb_true_iff, N.eqb_eq, IH. split.
      * intros [-> [tl ->]]. exists tl. reflexivity.
      * intros [tl E]. injection E as -> ->. split; [reflexivity | eauto].
Qed.

Lemma elementId_at_spec pv s tl :
  elementId_at pv s = Some tl <->
  word_opt pv = false /\
  exists sp, s = js "elementId" ++ sp ++ 40 :: tl /\ forallb is_space sp = true.
Proof.
  unfold elementId_at. split.
  - destruct (negb (word_opt pv)) eqn:Ew; [|discriminate].
    destruct (starts_with N.eqb (js "elementId") s) eqn:Est; [|discriminate].
    cbn [andb]. intros H. apply negb_true_iff in Ew. split; [exact Ew|].
    apply starts_with_eq in Est as [t ->].
    change (skipn 9 (js "elementId" ++ t)) with t in H.
    apply open_paren_spec in H as (sp & -> & Hsp). exists sp. split; [reflexivity|exact Hsp].
  - intros (Hw & sp & -> & Hsp). rewrite Hw. cbn [negb andb].
    assert (Est : starts_with N.eqb (js "elementId")
                    (js "elementId" ++ sp ++ 40 :: tl) = true).
    { apply starts_with_eq. eauto. }
    rewrite Est.
    change (skipn 9 (js "elementId" ++ sp ++ 40 :: tl)) with (sp ++ 40 :: tl).
    apply open_paren_spec. exists sp. split; [reflexivity | exact Hsp].
Qed.

(** ** The rewriting, step by step *)

Lemma from_start q : translateElementId q = translateElementId_from None q.
Proof. reflexivity. Qed.

Lemma elementId_at_nil pv : elementId_at pv [] = None.
Proof.
  unfold elementId_at.
  change (starts_with N.eqb (js "elementId") []) with false.
  rewrite andb_false_r. reflexivity.
Qed.

Lemma from_nil pv : translateElementId_from pv [] = [].
Proof.
  unfold translateElementId_from. rewrite replace_from_nil; [reflexivity|].
  rewrite match_at_elementId, elementId_at_nil. reflexivity.
Qed.

Lemma from_skip pv c tl :
  elementId_at pv (c :: tl) = None ->
  translateElementId_from pv (c :: tl) = c :: translateElementId_from (Some c) tl.
Proof.
  intros H. unfold translateElementId_from. rewrite replace_from_skip; [reflexivity|].
  rewrite match_at_elementId, H. reflexivity.
Qed.

Lemma elementId_at_shorter pv s tl :
  elementId_at pv s = Some tl -> (length tl < length s)%nat.
Proof.
  intros H. apply elementId_at_spec in H as (_ & sp & -> & _).
  rewrite !length_app. cbn [length]. lia.
Qed.

Lemma from_match pv s tl :
  elementId_at pv s = Some tl ->
  translateElementId_from pv s = js "id(" ++ translateElementId_from (Some 40) tl.
Proof.
  intros H. unfold translateElementId_from.
  rewrite (replace_from_match _ _ pv s tt (MState (Some 40) tl [])).
  - reflexivity.
  - rewrite match_at_elementId, H. reflexivity.
  - cbn [rest]. apply (elementId_at_shorter _ _ _ H).
Qed.

(** Only the class of the code unit before a position matters. *)
Lemma from_word_opt s : forall pv pv',
  word_opt pv = word_opt pv' ->
  translateElementId_from pv s = translateElementId_from pv' s.
Proof.
  induction s as [|c s IH]; intros pv pv' H; [rewrite !from_nil; reflexivity|].
  assert (E : elementId_at pv (c :: s) = elementId_at pv' (c :: s)).
  { unfold elementId_at. rewrite H. reflexivity. }
  destruct (elementId_at pv' (c :: s)) as [tl|] eqn:M.
  - rewrite (from_match _ _ _ E), (from_match _ _ _ M). reflexivity.
  - rewrite (from_skip _ _ _ E), (from_skip _ _ _ M). reflexivity.
Qed.

(** Text that holds no letter i and comes out of the rewriting was
    copied from the input. *)
Lemma copied_prefix u : forall pv s out,
  Forall (fun c => c <> 105) u ->
  translateElementId_from pv s = u ++ out ->
  exists s', s = u ++ s'.
Proof.
  induction u as [|a u IH]; intros pv s out Hu H; [exists s; reflexivity|].
  apply Forall_cons in Hu as [Ha Hu].
  destruct (elementId_at pv s) as [tl|] eqn:M.
  - rewrite (from_match _ _ _ M) in H.
    change (js "id(") with [105; 100; 40] in H. cbn [app] in H.
    injection H as H _. congruence.
  - destruct s as [|c s]; [rewrite from_nil in H; discriminate|].
    rewrite (from_skip _ _ _ M) in H. injection H as <- H.
    destruct (IH _ _ _ Hu H) as [s' ->]. exists s'. reflexivity.
Qed.

Lemma has_match_nil r pv :
  has_match r pv [] = match match_at r pv [] with Some _ => true | None => false end.
Proof. reflexivity. Qed.

Lemma has_match_cons r pv c tl :
  has_match r pv (c :: tl)
  = match match_at r pv (c :: tl) with
    | Some _ => true
    | None => has_match r (Some c) tl
    end.
Proof. reflexivity. Qed.

Lemma spaces_without_i sp :
  forallb is_space sp = true -> Forall (fun c => c <> 105) sp.
Proof.
  intros H. apply Forall_forall. intros c Hc ->.
  rewrite forallb_forall in H. specialize (H 105).
  assert (Hin : In 105 sp) by (apply list_elem_of_In; exact Hc).
  specialize (H Hin). discriminate.
Qed.

Lemma no_call_left n : forall s pv,
  (length s <= n)%nat ->
  has_match elementId_re pv (translateElementId_from pv s) = false.
Proof.
  induction n as [|n IH]; intros s pv Hn.
  - destruct s; [|cbn [length] in Hn; lia].
    rewrite from_nil, has_match_nil, match_at_elementId, elementId_at_nil.
    reflexivity.
  - destruct (elementId_at pv s) as [tl|] eqn:M.
    + rewrite (from_match _ _ _ M).
      pose proof (elementId_at_shorter _ _ _ M) as L.
      change (js "id(" ++ translateElementId_from (Some 40) tl)
        with (105 :: 100 :: 40 :: translateElementId_from (Some 40) tl).
      rewrite !has_match_cons, !match_at_elementId.
      unfold elementId_at at 1 2 3.
      cbn [starts_with js map list_ascii_of_string N_of_ascii N.eqb andb].
      rewrite !andb_false_r. cbn [option_map].
      apply IH. lia.
    + destruct s as [|c s].
      * rewrite from_nil, has_match_nil, match_at_elementId, elementId_at_nil.
        reflexivity.
      * rewrite (from_skip _ _ _ M), has_match_cons, match_at_elementId.
        destruct (elementId_at pv (c :: translateElementId_from (Some c) s))
          as [tl|] eqn:M'.
        -- exfalso. apply elementId_at_spec in M' as (Hw & sp & E & Hsp).
           rewrite <- (from_skip _ _ _ M) in E.
           assert (E' : translateElementId_from pv (c :: s)
                        = (js "elementId" ++ sp ++ [40]) ++ tl).
           { rewrite E. rewrite <- !app_assoc. reflexivity. }
           apply copied_prefix in E' as [s' E'].
           ++ assert (M2 : elementId_at pv (c :: s) = Some s').
              { apply elementId_at_spec. split; [exact Hw|]. exists sp.
                split; [|exact Hsp]. rewrite E', <- !app_assoc. reflexivity. }
              congruence.
           ++ apply Forall_app. split.
              ** vm_compute. repeat constructor; discriminate.
              ** apply Forall_app. split; [apply spaces_without_i, Hsp|].
                 repeat constructor. discriminate.
        -- cbn [option_map]. apply IH. cbn [length] in Hn. lia.
Qed.

(** After [translateElementId] no call of elementId is left in the text
    (the pattern matches at no position of the result), so that
    translating a second time changes nothing. *)
Theorem translateElementId_idempotent (query : jstring) :
  has_match elementId_re None (translateElementId query) = false /\
  translateElementId (translateElementId query) = translateElementId query.
Proof.
  assert (H : has_match elementId_re None (translateElementId query) = false).
  { rewrite from_start. apply (no_call_left (length query)). lia. }
  split; [exact H|]. apply translateElementId_id, H.
Qed.

Lemma elementId_needs_literal pv s x :
  match_at elementId_re pv s = Some x ->
  starts_with N.eqb (js "elementId") s = true.
Proof.
  rewrite match_at_elementId. unfold elementId_at.
  destruct (starts_with N.eqb (js "elementId") s); [reflexivity|].
  rewrite andb_false_r. discriminate.
Qed.

(** In a text <pre>elementId<spaces>(<post>, where <pre> holds no
    earlier "elementId" and does not end in a word character,
    [translateElementId] replaces the call by id( and goes on with
    <post>: the result is <pre>id( followed by the translation of
    <post>. *)
Theorem translateElementId_rewrites_call (pre sp post : jstring) :
  contains N.eqb (js "elementId") pre = false ->
  ends_word pre = false ->
  forallb is_space sp = true ->
  translateElementId (pre ++ js "elementId" ++ sp ++ js "(" ++ post)
  = pre ++ js "id(" ++ translateElementId post.
Proof.
  intros Hpre Hend Hsp.
  unfold translateElementId at 1. unfold replace.
  rewrite replace_from_prefix.
  2:{ apply (no_match_within_of_contains elementId_re N.eqb (js "elementId"));
        [apply elementId_needs_literal | exact Hpre | reflexivity]. }
  cbn [fst]. f_equal.
  fold (translateElementId_from (after None pre)
          (js "elementId" ++ sp ++ js "(" ++ post)).
  rewrite (from_match _ _ post).
  - apply (f_equal (app (js "id("))).
    rewrite from_start. apply from_word_opt. reflexivity.
  - apply elementId_at_spec. split.
    + unfold ends_word in Hend. unfold word_opt. exact Hend.
    + exists sp. split; [reflexivity | exact Hsp].
Qed.

End ElementIdFacts.

Module ElementIdExamples.
Import ElementIdFacts.

Lemma translateElementId_rewrites_call_witness :
  translateElementId (js "RETURN elementId (n) AS nid, elementId(m) AS mid")
  = js "RETURN id(n) AS nid, id(m) AS mid".
Proof.
  change (js "RETURN elementId (n) AS nid, elementId(m) AS mid")
    with (js "RETURN " ++ js "elementId" ++ js " " ++ js "("
            ++ js "n) AS nid, elementId(m) AS mid").
  rewrite (translateElementId_rewrites_call (js "RETURN ") (js " ")
             (js "n) AS nid, elementId(m) AS mid"));
    [|vm_compute; reflexivity..].
  change (js "n) AS nid, elementId(m) AS mid")
    with (js "n) AS nid, " ++ js "elementId" ++ [] ++ js "(" ++ js "m) AS mid").
  rewrite (translateElementId_rewrites_call (js "n) AS nid, ") []
             (js "m) AS mid"));
    [|vm_compute; reflexivity..].
  vm_compute. reflexivity.
Defined.

End ElementIdExamples.

Import Js Regex RegexFacts CypherTranslator CypherTranslatorFacts RoundFacts.

Module ApocFacts.

Lemma is_word_not_space c : is_word c = true -> is_space c = false.
Proof.
  unfold is_word, is_space, is_digit, between. intros H.
  repeat rewrite orb_true_iff in H.
  repeat rewrite andb_true_iff in H.
  repeat rewrite N.leb_le in H. rewrite N.eqb_eq in H.
  repeat (apply orb_false_iff; split);
    try (apply andb_false_iff; rewrite !N.leb_gt; lia);
    apply N.eqb_neq; lia.
Qed.

Lemma apocPattern_unfold :
  apocPattern =
  Seq (lit_ci "CALL") (Seq ws1 (Seq (lit_ci "apoc.merge.relationship") (Seq ws
    (Seq (Chr (N.eqb 40)) (Seq ws (Seq (Group 1 ident) (Seq ws (Seq (Chr (N.eqb 44))
    (Seq ws (Seq (Chr (N.eqb 36)) (Seq (Group 2 ident) (Seq ws (Seq (Chr (N.eqb 44))
    (Seq ws (Seq braces (Seq ws (Seq (Chr (N.eqb 44))
    (Seq ws (Seq (Group 3 (Alt braces (Seq (Chr (N.eqb 36)) ident))) (Seq ws
    (Seq (Chr (N.eqb 44)) (Seq ws (Seq (Group 4 ident)
    (Seq (Opt (Seq ws (Seq (Chr (N.eqb 44)) (Seq ws braces))))
    (Seq ws (Seq (Chr (N.eqb 41)) (Seq ws (Seq (lit_ci "YIELD") (Seq ws1
    (Group 5 ident)))))))))))))))))))))))))))))).
Proof. reflexivity. Qed.

(** ** Reading the pieces of the pattern *)

Lemma ws_none k pv tl cs x :
  stops is_space tl = true -> k (MState pv tl cs) = Some x ->
  rmatch ws k (MState pv tl cs) = Some x.
Proof.
  intros Hs Hk. apply (star_greedy_run is_space k x [] pv tl cs);
    [reflexivity | exact Hs | exact Hk].
Qed.

Lemma ws_one k pv tl cs x :
  stops is_space tl = true -> k (MState (Some 32) tl cs) = Some x ->
  rmatch ws k (MState pv (32 :: tl) cs) = Some x.
Proof.
  intros Hs Hk. apply (star_greedy_run is_space k x [32] pv tl cs);
    [reflexivity | exact Hs | exact Hk].
Qed.

Lemma ws1_one k pv tl cs x :
  stops is_space tl = true -> k (MState (Some 32) tl cs) = Some x ->
  rmatch ws1 k (MState pv (32 :: tl) cs) = Some x.
Proof.
  intros Hs Hk. unfold ws1, Plus. rewrite rmatch_seq.
  apply chr_ok; [reflexivity|]. apply ws_none; assumption.
Qed.

Lemma is_ident_inv x :
  is_ident x = true ->
  exists c w, x = c :: w /\ is_word c = true /\ forallb is_word w = true.
Proof.
  destruct x as [|c w]; [discriminate|]. cbn [is_ident forallb].
  intros H. apply andb_prop in H as [Hc Hw]. eauto.
Qed.

Lemma ident_ok k pv x tl cs r :
  is_ident x = true -> stops is_word tl = true ->
  k (MState (after pv x) tl cs) = Some r ->
  rmatch ident k (MState pv (x ++ tl) cs) = Some r.
Proof.
  intros Hx Hs Hk. apply is_ident_inv in Hx as (c & w & -> & Hc & Hw).
  unfold ident, Plus. rewrite rmatch_seq. cbn [app].
  apply chr_ok; [exact Hc|].
  apply (star_greedy_run is_word _ _ w); [exact Hw | exact Hs|].
  rewrite after_cons in Hk. exact Hk.
Qed.

Lemma group_ident_ok i k pv x tl cs r :
  is_ident x = true -> stops is_word tl = true ->
  k (MState (after pv x) tl ((i, x) :: cs)) = Some r ->
  rmatch (Group i ident) k (MState pv (x ++ tl) cs) = Some r.
Proof.
  intros Hx Hs Hk. rewrite rmatch_group.
  apply ident_ok; [exact Hx | exact Hs|].
  rewrite consumed_app. exact Hk.
Qed.

Lemma braces_unfold :
  braces = Seq (Chr (N.eqb 123))
             (Seq (Star true (Chr (fun c => negb (c =? 125)))) (Chr (N.eqb 125))).
Proof. reflexivity. Qed.

Lemma braces_empty k pv tl cs r :
  k (MState (Some 125) tl cs) = Some r ->
  rmatch braces k (MState pv (123 :: 125 :: tl) cs) = Some r.
Proof.
  intros Hk. rewrite braces_unfold, rmatch_seq. apply chr_ok; [reflexivity|].
  rewrite rmatch_seq.
  apply (star_greedy_run (fun c => negb (c =? 125)) _ _ []); [reflexivity..|].
  apply chr_ok; [reflexivity | exact Hk].
Qed.

Lemma braces_none k pv c tl cs :
  c <> 123 -> rmatch braces k (MState pv (c :: tl) cs) = None.
Proof.
  intros Hc. rewrite braces_unfold, rmatch_seq, rmatch_chr_cons.
  destruct (123 =? c) eqn:E; [|reflexivity].
  apply N.eqb_eq in E. congruence.
Qed.

Lemma param_ok k pv x tl cs r :
  is_ident x = true -> stops is_word tl = true ->
  k (MState (after pv (36 :: x)) tl ((3%nat, 36 :: x) :: cs)) = Some r ->
  rmatch (Group 3 (Alt braces (Seq (Chr (N.eqb 36)) ident))) k
    (MState pv (36 :: x ++ tl) cs) = Some r.
Proof.
  intros Hx Hs Hk. rewrite rmatch_group, rmatch_alt.
  rewrite braces_none by discriminate.
  rewrite rmatch_seq. apply chr_ok; [reflexivity|].
  apply ident_ok; [exact Hx | exact Hs|].
  change (36 :: x ++ tl) with ((36 :: x) ++ tl). rewrite consumed_app.
  rewrite after_cons in Hk. exact Hk.
Qed.

Lemma sixth_argument_absent k pv tl cs :
  rmatch (Opt (Seq ws (Seq (Chr (N.eqb 44)) (Seq ws braces)))) k
    (MState pv (41 :: tl) cs)
  = k (MState pv (41 :: tl) cs).
Proof.
  unfold Opt. rewrite rmatch_alt, rmatch_seq. unfold ws at 1.
  rewrite star_chr_cons. cbn [is_space between N.leb N.eqb orb andb N.compare
                              Pos.compare Pos.compare_cont].
  rewrite rmatch_seq, rmatch_chr_cons. reflexivity.
Qed.

Lemma stops_space_ident x tl : is_ident x = true -> stops is_space (x ++ tl) = true.
Proof.
  intros Hx. apply is_ident_inv in Hx as (c & w & -> & Hc & _).
  cbn [app stops]. rewrite (is_word_not_space c Hc). reflexivity.
Qed.

(** The call
    [CALL apoc.merge.relationship(a, $t, {}, $pr, b) YIELD y]
    read at its start: the captures are the identifiers. *)
Lemma apoc_call_match pv a t pr b y post :
  is_ident a = true -> is_ident t = true -> is_ident pr = true ->
  is_ident b = true -> is_ident y = true -> stops is_word post = true ->
  match_at apocPattern pv
    (js "CALL" ++ [32] ++ js "apoc.merge.relationship" ++ [40] ++ a
       ++ [44; 32; 36] ++ t ++ [44; 32; 123; 125; 44; 32; 36] ++ pr
       ++ [44; 32] ++ b ++ [41; 32] ++ js "YIELD" ++ [32] ++ y ++ post)
  = Some (MState (after None y) post
            [(5%nat, y); (4%nat, b); (3%nat, 36 :: pr); (2%nat, t); (1%nat, a)]).
Proof.
  intros Ha Ht Hpr Hb Hy Hp. unfold match_at. rewrite apocPattern_unfold.
  rewrite rmatch_seq. unfold lit_ci at 1.
  apply (lit_ok eq_ci (js "CALL") _ _ (js "CALL")); [discriminate|reflexivity..|].
  rewrite rmatch_seq. apply ws1_one; [reflexivity|].
  rewrite rmatch_seq. unfold lit_ci at 1.
  apply (lit_ok eq_ci (js "apoc.merge.relationship") _ _
           (js "apoc.merge.relationship")); [discriminate|reflexivity..|].
  rewrite rmatch_seq. apply ws_none; [reflexivity|].
  rewrite rmatch_seq. apply chr_ok; [reflexivity|].
  rewrite rmatch_seq. apply ws_none; [apply stops_space_ident, Ha|].
  rewrite rmatch_seq. apply group_ident_ok; [exact Ha | reflexivity|].
  rewrite rmatch_seq. apply ws_none; [reflexivity|].
  rewrite rmatch_seq. apply chr_ok; [reflexivity|].
  rewrite rmatch_seq. apply ws_one; [reflexivity|].
  rewrite rmatch_seq. apply chr_ok; [reflexivity|].
  rewrite rmatch_seq. apply group_ident_ok; [exact Ht | reflexivity|].
  rewrite rmatch_seq. apply ws_none; [reflexivity|].
  rewrite rmatch_seq. apply chr_ok; [reflexivity|].
  rewrite rmatch_seq. apply ws_one; [reflexivity|].
  rewrite rmatch_seq. apply braces_empty.
  rewrite rmatch_seq. apply ws_none; [reflexivity|].
  rewrite rmatch_seq. apply chr_ok; [reflexivity|].
  rewrite rmatch_seq. apply ws_one; [reflexivity|].
  rewrite rmatch_seq. apply param_ok; [exact Hpr | reflexivity|].
  rewrite rmatch_seq. apply ws_none; [reflexivity|].
  rewrite rmatch_seq. apply chr_ok; [reflexivity|].
  rewrite rmatch_seq. apply ws_one; [apply stops_space_ident, Hb|].
  rewrite rmatch_seq. apply group_ident_ok; [exact Hb | reflexivity|].
  rewrite rmatch_seq. cbn [app]. rewrite sixth_argument_absent.
  rewrite rmatch_seq. apply ws_none; [reflexivity|].
  rewrite rmatch_seq. apply chr_ok; [reflexivity|].
  rewrite rmatch_seq. apply ws_one; [reflexivity|].
  rewrite rmatch_seq. unfold lit_ci.
  apply (lit_ok eq_ci (js "YIELD") _ _ (js "YIELD")); [discriminate|reflexivity..|].
  rewrite rmatch_seq. apply ws1_one; [apply stops_space_ident, Hy|].
  apply group_ident_ok; [exact Hy | exact Hp|].
  apply is_ident_inv in Hy as (c & w & -> & _). rewrite !after_cons. reflexivity.
Qed.

Lemma apoc_needs_CALL pv s x :
  match_at apocPattern pv s = Some x -> starts_with eq_ci (js "CALL") s = true.
Proof.
  unfold match_at. rewrite apocPattern_unfold, rmatch_seq. unfold lit_ci at 1.
  rewrite rmatch_lit by discriminate. cbn [rest].
  destruct (starts_with eq_ci (js "CALL") s); [reflexivity | discriminate].
Qed.

Lemma has_match_of_contains r f needle :
  (forall pv s x, match_at r pv s = Some x -> starts_with f needle s = true) ->
  forall s pv, contains f needle s = false -> has_match r pv s = false.
Proof.
  intros Hr. induction s as [|c s IH]; intros pv H; cbn [contains] in H;
    apply orb_false_iff in H as [H1 H2].
  - cbn [has_match]. destruct (match_at r pv []) as [x|] eqn:M; [|reflexivity].
    apply Hr in M. congruence.
  - cbn [has_match]. destruct (match_at r pv (c :: s)) as [x|] eqn:M.
    + apply Hr in M. congruence.
    + apply IH, H2.
Qed.

Section WithRuntime.
Variable Number_toString : R -> jstring.


End WithRuntime.

End ApocFacts.

Module ApocExamples.
Import ApocFacts.


End ApocExamples.

Import Js Regex RegexFacts Cypher GraphStore GraphStoreFacts FalkorMemoryGraph AddFacts.

Module IsolationFacts.

Lemma others_kept_refl u s : others_kept u s s.
Proof. split; intros x Hx; try intros _; exact Hx. Qed.

Lemma others_kept_trans u s s1 s2 :
  others_kept u s s1 -> others_kept u s1 s2 -> others_kept u s s2.
Proof.
  intros [N1 R1] [N2 R2]. split.
  - intros n Hn Hf. apply N2; [apply N1; assumption | exact Hf].
  - intros e He. apply R2, R1, He.
Qed.

(** A node of another tenant does not fit a pattern that holds
    [user_id: $user_id]. *)
Lemma foreign_no_match ps s u v lbl k e n :
  ps !! "user_id"%string = Some u ->
  foreign u n = true ->
  node_matches ps s (NodeP v lbl [(k, e); ("user_id"%string, EParam "user_id")]) n
  = false.
Proof.
  intros Hu Hf. unfold node_matches. cbn [np_props forallb fst snd eval].
  rewrite Hu. cbn [default]. unfold foreign in Hf.
  destruct (node_props n !! "user_id"%string) as [x|].
  - apply negb_true_iff in Hf. unfold Datatypes.id. rewrite Hf.
    cbn [andb]. rewrite !andb_false_r. reflexivity.
  - rewrite !andb_false_r. reflexivity.
Qed.

Lemma merge_node_keeps ps u pat oc om r s rows s' :
  writes_tenant (Merge pat oc om) = true ->
  ps !! "user_id"%string = Some u ->
  merge_node ps pat oc om r s = (rows, s') ->
  others_kept u s s'.
Proof.
  intros Hw Hu Hm. destruct pat as [v lbl props]. cbn [writes_tenant] in Hw.
  destruct props as [|[k e] [|[k2 e2] [|]]]; try discriminate.
  apply andb_prop in Hw as [Hw _]. apply andb_prop in Hw as [Hw He2].
  apply andb_prop in Hw as [_ Hk2].
  apply String.eqb_eq in Hk2. subst k2.
  destruct e2 as [pn| |]; try discriminate. cbn [expr_is_param] in He2.
  apply String.eqb_eq in He2. subst pn.
  unfold merge_node in Hm.
  destruct (filter _ (nodes s)) as [|f0 found] eqn:Ef.
  - injection Hm as <- <-. split; cbn [nodes rels].
    + intros n Hn _. apply elem_of_app. left. exact Hn.
    + intros e0 He0. exact He0.
  - injection Hm as <- <-. split; cbn [nodes rels].
    + intros n Hn Hf. apply list_elem_of_fmap. exists n. split; [|exact Hn].
      rewrite (foreign_no_match ps s u v lbl k e n Hu Hf). reflexivity.
    + intros e0 He0. exact He0.
Qed.

Lemma merge_path_keeps ps u a rv ty c oc r s rows s' :
  merge_path ps a rv ty c oc r s = Some (rows, s') ->
  others_kept u s s'.
Proof.
  intros Hm. unfold merge_path in Hm.
  destruct (lookup_var a r) as [[ia|]|]; try discriminate.
  destruct (lookup_var c r) as [[ic|]|]; try discriminate.
  destruct (filter _ (rels s)) as [|f0 found].
  - injection Hm as <- <-. split; cbn [nodes rels].
    + intros n Hn _. exact Hn.
    + intros e He. apply elem_of_app. left. exact He.
  - injection Hm as <- <-. apply others_kept_refl.
Qed.

Lemma per_row_keeps u f :
  (forall r s out s', f r s = Some (out, s') -> others_kept u s s') ->
  forall rows s outs s',
    per_row f rows s = Some (outs, s') -> others_kept u s s'.
Proof.
  intros Hf. induction rows as [|r rows IH]; intros s outs s' H; cbn [per_row] in H.
  - injection H as <- <-. apply others_kept_refl.
  - destruct (f r s) as [[out s1]|] eqn:E1; [|discriminate].
    destruct (per_row f rows s1) as [[outs2 s2]|] eqn:E2; [|discriminate].
    injection H as <- <-.
    eapply others_kept_trans; [eapply Hf, E1 | eapply IH, E2].
Qed.

Section WithStore.
Variable id_matches : N -> value -> bool.

Lemma exec_clause_keeps ps u c rows s rows' s' :
  writes_tenant c = true ->
  ps !! "user_id"%string = Some u ->
  exec_clause id_matches ps c (rows, s) = Some (rows', s') ->
  others_kept u s s'.
Proof.
  intros Hw Hu H. destruct c; cbn [exec_clause] in H; try discriminate.
  - destruct n as [v [l|] [|]]; cbn in H; try discriminate.
    simplify_eq. apply others_kept_refl.
  - destruct (filter_rows _ _ _ _ _); [|discriminate].
    injection H as <- <-. apply others_kept_refl.
  - eapply per_row_keeps; [|exact H].
    intros r0 s0 out s1 E. injection E as E.
    eapply merge_node_keeps; [exact Hw | exact Hu | exact E].
  - eapply per_row_keeps; [|exact H].
    intros r0 s0 out s1 E. eapply merge_path_keeps. exact E.
  - injection H as <- <-. apply others_kept_refl.
Qed.

Lemma exec_clauses_keeps ps u q : forall rows s rows' s',
  forallb writes_tenant q = true ->
  ps !! "user_id"%string = Some u ->
  exec_clauses id_matches ps q (rows, s) = Some (rows', s') ->
  others_kept u s s'.
Proof.
  induction q as [|c q IH]; intros rows s rows' s' Hw Hu H;
    cbn [exec_clauses] in H.
  - injection H as <- <-. apply others_kept_refl.
  - cbn [forallb] in Hw. apply andb_prop in Hw as [Hc Hq].
    destruct (exec_clause id_matches ps c (rows, s)) as [[rows1 s1]|] eqn:E;
      [|discriminate].
    eapply others_kept_trans;
      [eapply exec_clause_keeps; eassumption | eapply IH; eassumption].
Qed.


End WithStore.

End IsolationFacts.

Module ConstructionFacts.
Import Construction.

Section WithFactories.
Variable Options : Type.
Variable Embedder : Type.
Variable LLM : Type.
Variable EmbedderFactory_create : jstring -> Options -> result Embedder.
Variable LLMFactory_create : jstring -> Options -> result LLM.

Lemma llmProvider_with_options o cfg :
  llmProvider Options (with_store_llm_options Options o cfg)
  = llmProvider Options cfg.
Proof.
  unfold llmProvider, with_store_llm_options. cbn [llm graphStore].
  destruct (graphStore Options cfg) as [[db [l|] cp]|]; reflexivity.
Qed.

(** The constructor never reads the options given under
    [graphStore.llm]: only the provider named there is used, and both
    models are created with the options of [config.llm].  With any other
    options under [graphStore.llm] the constructor fails in the same way
    or builds the same graph wrapper, embedder and models. *)
Theorem store_llm_options_ignored (o : Options)
    (cfg : FalkorMemoryConfig Options) :
  match new Options Embedder LLM EmbedderFactory_create LLMFactory_create
          (with_store_llm_options Options o cfg),
        new Options Embedder LLM EmbedderFactory_create LLMFactory_create cfg with
  | Ok g', Ok g =>
      graph _ _ _ g' = graph _ _ _ g /\
      embeddingModel _ _ _ g' = embeddingModel _ _ _ g /\
      the_llm _ _ _ g' = the_llm _ _ _ g /\
      structuredLlm _ _ _ g' = structuredLlm _ _ _ g /\
      exists l, llm Options cfg = Some l /\
                LLMFactory_create (llmProvider Options cfg) (options Options l)
                = Ok (the_llm _ _ _ g)
  | Throw e', Throw e => e' = e
  | _, _ => False
  end.
Proof.
  unfold new. rewrite llmProvider_with_options.
  destruct cfg as [em l cp [[db sl scp]|]];
    cbn [graphStore store_config with_store_llm_options embedder llm
         customPrompt store_llm store_customPrompt]; [|reflexivity].
  destruct db as [db|]; [|reflexivity].
  destruct (EmbedderFactory_create _ _) as [e1|e]; [|reflexivity].
  destruct l as [l|]; [|reflexivity].
  destruct (LLMFactory_create _ (options Options l)) as [m|e] eqn:E; [|reflexivity].
  cbn. repeat split. exists l. split; [reflexivity | exact E].
Qed.

(** Without a graph store, or without the connection settings under
    it, the constructor throws "FalkorDB configuration is missing"
    before it creates anything. *)
Theorem new_needs_store_config (cfg : FalkorMemoryConfig Options) :
  match graphStore Options cfg with
  | Some gs => store_config Options gs = None
  | None => True
  end ->
  new Options Embedder LLM EmbedderFactory_create LLMFactory_create cfg
  = Throw (Exn (js "Error") (js "FalkorDB configuration is missing")).
Proof.
  unfold new. destruct (graphStore Options cfg) as [gs|]; [|reflexivity].
  intros ->. reflexivity.
Qed.

End WithFactories.

End ConstructionFacts.

Module InspectFacts.
Import InspectGraphs FalkorDBGraph.

Lemma starts_with_app_same needle : forall tl,
  starts_with N.eqb needle (needle ++ tl) = true.
Proof.
  induction needle as [|a n IH]; intros tl; [reflexivity|].
  cbn [app starts_with]. rewrite N.eqb_refl, IH. reflexivity.
Qed.

Lemma starts_with_split needle : forall s,
  starts_with N.eqb needle s = true -> s = needle ++ skipn (length needle) s.
Proof.
  induction needle as [|a n IH]; intros s H; [reflexivity|].
  destruct s as [|c s]; [discriminate|]. cbn [starts_with] in H.
  apply andb_prop in H as [Hc H]. apply N.eqb_eq in Hc. subst c.
  cbn [length skipn app]. f_equal. apply IH, H.
Qed.

(** The inspector's naming of graphs goes both ways: the user
    identifier it extracts from <prefix>_<userId> is <userId>, and every
    graph it lists is <prefix>_ followed by the identifier it extracts
    from it. *)
Theorem extractUserId_round_trip (db : Type)
    (db_list : db -> result (list jstring) * db) (prefix : jstring) :
  (forall userId, extractUserId (prefix ++ js "_" ++ userId) prefix = userId) /\
  (forall d listed d1 g,
     getAllMem0Graphs db db_list prefix d = (Ok listed, d1) ->
     In g listed ->
     prefix ++ js "_" ++ extractUserId g prefix = g).
Proof.
  split.
  - intros userId. unfold extractUserId. rewrite app_assoc.
    rewrite starts_with_app_same. rewrite skipn_app, skipn_all, Nat.sub_diag.
    reflexivity.
  - intros d listed d1 g H Hg. unfold getAllMem0Graphs in H.
    destruct (db_list d) as [[all|e] d0]; [|discriminate].
    injection H as <- _. apply filter_In in Hg as [_ Hg].
    unfold extractUserId. rewrite Hg. rewrite app_assoc.
    symmetry. apply starts_with_split, Hg.
Qed.

(** With no graph name configured the library keeps every tenant in the
    graph mem0, and that graph is not among those the inspector lists
    (it looks for names that start with mem0_). *)
Theorem inspector_misses_default_graph (db : Type)
    (db_list : db -> result (list jstring) * db) (cfg : FalkorDBConfig)
    (d d1 : db) (listed : list jstring) :
  nonempty (graphName cfg) = false ->
  getAllMem0Graphs db db_list (js "mem0") d = (Ok listed, d1) ->
  ~ In (selected_name cfg) listed.
Proof.
  intros Hn H Hin. unfold getAllMem0Graphs in H.
  destruct (db_list d) as [[all|e] d0]; [|discriminate].
  injection H as <- _. apply filter_In in Hin as [_ Hs].
  unfold selected_name, str_or in Hs. unfold nonempty in Hn.
  destruct (graphName cfg) as [[|c n]|]; try discriminate; vm_compute in Hs;
    discriminate.
Qed.

End InspectFacts.

Module MoreExamples.
Import IsolationFacts ConstructionFacts InspectFacts.
Import Construction InspectGraphs FalkorDBGraph.

Lemma new_needs_store_config_witness :
  Construction.new jstring (jstring * jstring) (jstring * jstring) echo_factory echo_factory
    (MemoryConfig jstring (Provider jstring (js "openai") (js "embedder options"))
       None None None)
  = Throw (Exn (js "Error") (js "FalkorDB configuration is missing")).
Proof.
  apply (new_needs_store_config jstring (jstring * jstring) (jstring * jstring)
           echo_factory echo_factory). exact I.
Defined.

Lemma extractUserId_round_trip_witness :
  js "mem0" ++ js "_" ++ extractUserId (js "mem0_alice") (js "mem0")
  = js "mem0_alice".
Proof.
  apply (proj2 (extractUserId_round_trip unit
                  (list_of [js "mem0"; js "mem0_alice"; js "other"]) (js "mem0"))
           tt [js "mem0_alice"] tt (js "mem0_alice")).
  - vm_compute. reflexivity.
  - left. reflexivity.
Defined.

Lemma inspector_misses_default_graph_witness :
  ~ In (selected_name default_config) [js "mem0_alice"].
Proof.
  apply (inspector_misses_default_graph unit
           (list_of [js "mem0"; js "mem0_alice"; js "other"]) default_config tt tt).
  - reflexivity.
  - vm_compute. reflexivity.
Defined.


End MoreExamples.

Import Js FalkorMemoryGraph EngineFacts.
Import CypherTranslator (print_number).

Module CallFacts.

Lemma spent_refl w : spent 0 0 0 w w.
Proof. unfold spent. lia. Qed.

Lemma spent_trans a e q a' e' q' w w1 w2 :
  spent a e q w w1 -> spent a' e' q' w1 w2 ->
  spent (a + a') (e + e') (q + q') w w2.
Proof. unfold spent. lia. Qed.

Section WithCollaborators.
Variable JSON_parse : jstring -> option json.
Variable toLowerCase : jstring -> jstring.
Variable Number_toString : R -> jstring.
Variable String_replace : jstring -> jstring -> jstring -> jstring.
Variable EXTRACT_RELATIONS_PROMPT : jstring.
Variable DELETE_RELATIONS_SYSTEM_PROMPT : jstring.
Variable customPrompt : option jstring.
Variable answer : list message -> tool -> LLMResponse.
Variable vec : jstring -> list R.
Variable rows : Cypher.query -> GraphStore.params -> list record.

Lemma model_spent ms t w r w1 :
  counting_model answer ms t w = (r, w1) -> spent 1 0 0 w w1.
Proof. unfold counting_model. intros [= _ <-]. unfold spent. cbn. lia. Qed.

Lemma embedder_spent s w r w1 :
  counting_embedder vec s w = (r, w1) -> spent 0 1 0 w w1.
Proof. unfold counting_embedder. intros [= _ <-]. unfold spent. cbn. lia. Qed.

Lemma store_spent q ps w r w1 :
  counting_store rows q ps w = (r, w1) -> spent 0 0 1 w w1.
Proof. unfold counting_store. intros [= _ <-]. unfold spent. cbn. lia. Qed.

Lemma for_each_spent {A B} (g : A -> M calls B) (a e q : nat) :
  (forall x w y w', g x w = (Ok y, w') -> spent a e q w w') ->
  forall l w ys w',
    for_each calls g l w = (Ok ys, w') ->
    spent (a * length l) (e * length l) (q * length l) w w' /\
    length ys = length l.
Proof.
  intros Hg. induction l as [|x l IH]; intros w ys w' H; cbn [for_each] in H.
  - unfold ret in H. injection H as <- <-. split; [|reflexivity].
    cbn [length]. rewrite !Nat.mul_0_r. apply spent_refl.
  - unfold bind in H. destruct (g x w) as [[y|ex] w0] eqn:E; [|discriminate].
    destruct (for_each calls g l w0) as [[ys0|ex] w2] eqn:E2; [|discriminate].
    unfold ret in H. injection H as <- <-.
    destruct (IH _ _ _ E2) as [S2 L]. pose proof (Hg _ _ _ _ E) as S1.
    split; [|cbn [length]; f_equal; exact L].
    cbn [length]. unfold spent in *. lia.
Qed.

Lemma retrieveNodes_spent data f w r w1 :
  _retrieveNodesFromData calls JSON_parse toLowerCase Number_toString
    (counting_model answer) data f w = (r, w1) ->
  spent 1 0 0 w w1.
Proof.
  unfold _retrieveNodesFromData, bind, lift, counting_model.
  intros [= _ <-]. unfold spent. cbn. lia.
Qed.

Lemma establish_spent data f m w r w1 :
  _establishNodesRelationsFromData calls JSON_parse toLowerCase Number_toString
    String_replace EXTRACT_RELATIONS_PROMPT customPrompt (counting_model answer)
    data f m w = (r, w1) ->
  spent 1 0 0 w w1.
Proof.
  unfold _establishNodesRelationsFromData, bind, lift, counting_model.
  intros [= _ <-]. unfold spent. cbn. lia.
Qed.

Lemma getDelete_spent so data f w r w1 :
  _getDeleteEntitiesFromSearchOutput calls JSON_parse toLowerCase Number_toString
    String_replace DELETE_RELATIONS_SYSTEM_PROMPT (counting_model answer)
    so data f w = (r, w1) ->
  spent 1 0 0 w w1.
Proof.
  unfold _getDeleteEntitiesFromSearchOutput, bind, lift, counting_model.
  intros [= _ <-]. unfold spent. cbn. lia.
Qed.

Lemma searchGraphDb_spent f limit : forall l w r w1,
  _searchGraphDb calls Number_toString (counting_embedder vec) (counting_store rows)
    l f limit w = (Ok r, w1) ->
  spent 0 (length l) (length l) w w1.
Proof.
  induction l as [|node l IH]; intros w r w1 H; cbn [_searchGraphDb] in H.
  - unfold ret in H. injection H as _ <-. apply spent_refl.
  - unfold bind in H.
    destruct (counting_embedder vec node w) as [[em|ex] w0] eqn:Ee; [|discriminate].
    destruct (counting_store rows _ _ w0) as [[res|ex] w2] eqn:Es; [|discriminate].
    destruct (_searchGraphDb calls Number_toString (counting_embedder vec)
                (counting_store rows) l f limit w2) as [[more|ex] w3] eqn:E;
      [|discriminate].
    unfold ret in H. injection H as _ <-.
    apply embedder_spent in Ee. apply store_spent in Es. apply IH in E.
    unfold spent in *. cbn [length]. lia.
Qed.

Lemma add_one_spent userId m item w r w1 :
  add_one calls Number_toString (counting_embedder vec) (counting_store rows)
    userId m item w = (r, w1) ->
  spent 0 2 3 w w1.
Proof.
  unfold add_one, _searchSourceNode, _searchDestinationNode,
    _searchSourceNode_at, _searchDestinationNode_at, bind, ret,
    counting_embedder, counting_store.
  destruct (add_request _ _ _ _ _ _ _) as [q ps].
  intros [= _ <-]. unfold spent. cbn. lia.
Qed.

(** What one [add] costs when nothing fails: three requests to the
    model; one embedding for each entity name and two for each
    relation; one store query for each entity name, one for each
    deletion and three for each relation (two look-ups and one write).
    [deleted_entities] holds one store result per deletion. *)
Theorem add_call_counts (data : jstring) (f : filters) (w w' : calls)
    (res : AddResult) :
  add calls JSON_parse toLowerCase Number_toString String_replace
    EXTRACT_RELATIONS_PROMPT DELETE_RELATIONS_SYSTEM_PROMPT customPrompt
    (counting_model answer) (counting_embedder vec) (counting_store rows)
    data f w = (Ok res, w') ->
  exists entityTypeMap w1,
    _retrieveNodesFromData calls JSON_parse toLowerCase Number_toString
      (counting_model answer) data f w = (Ok entityTypeMap, w1) /\
    let E := length entityTypeMap in
    let D := length (deleted_entities res) in
    let R := length (relations res) in
    asked w' = (asked w + 3)%nat /\
    embedded w' = (embedded w + E + 2 * R)%nat /\
    queried w' = (queried w + E + D + 3 * R)%nat.
Proof.
  unfold add, bind. intros H.
  destruct (_retrieveNodesFromData _ _ _ _ _ data f w) as [[m|ex] w1] eqn:E1;
    [|discriminate].
  destruct (_establishNodesRelationsFromData _ _ _ _ _ _ _ _ data f m w1)
    as [[toBeAdded|ex] w2] eqn:E2; [|discriminate].
  destruct (_searchGraphDb _ _ _ _ (keys m) f 100 w2) as [[so|ex] w3] eqn:E3;
    [|discriminate].
  destruct (_getDeleteEntitiesFromSearchOutput _ _ _ _ _ _ _ so data f w3)
    as [[del|ex] w4] eqn:E4; [|discriminate].
  destruct (_deleteEntities _ _ del _ w4) as [[dres|ex] w5] eqn:E5; [|discriminate].
  destruct (_addEntities calls Number_toString (counting_embedder vec)
              (counting_store rows) toBeAdded (userId_of f) m w5)
    as [[ares|ex] w6] eqn:E6; [|discriminate].
  unfold ret in H. injection H as <- <-.
  exists m, w1. split; [reflexivity|].
  cbn [deleted_entities relations].
  apply retrieveNodes_spent in E1. apply establish_spent in E2.
  apply searchGraphDb_spent in E3. apply getDelete_spent in E4.
  unfold _deleteEntities in E5.
  apply (for_each_spent _ 0 0 1) in E5 as [E5 L5];
    [|intros x w0 y w0' Hx; apply (store_spent _ _ _ _ _ Hx)].
  unfold _addEntities in E6.
  apply (for_each_spent _ 0 2 3) in E6 as [E6 L6];
    [|intros x w0 y w0' Hx; apply (add_one_spent _ _ _ _ _ _ Hx)].
  unfold keys in E3. rewrite length_map in E3.
  unfold spent in *. lia.
Qed.

End WithCollaborators.

End CallFacts.

Module CallExamples.
Import CallFacts.

Lemma add_call_counts_witness :
  snd (add calls read_json ascii_lower print_number (fun s _ _ => s) [] [] None
         (counting_model (fun _ => works_at_answers)) (counting_embedder (fun _ => []))
         (counting_store (fun _ _ => []))
         (js "Alice Smith works at Acme") alice (Calls 0 0 0))
  = Calls 3 3 4.
Proof.
  destruct (add calls read_json ascii_lower print_number (fun s _ _ => s) [] [] None
              (counting_model (fun _ => works_at_answers))
              (counting_embedder (fun _ => [])) (counting_store (fun _ _ => []))
              (js "Alice Smith works at Acme") alice (Calls 0 0 0))
    as [[res|ex] w'] eqn:E; [|vm_compute in E; discriminate].
  destruct (add_call_counts read_json ascii_lower print_number (fun s _ _ => s)
              [] [] None (fun _ => works_at_answers) (fun _ => []) (fun _ _ => [])
              (js "Alice Smith works at Acme") alice (Calls 0 0 0) w' res E)
    as (m & w1 & E1 & Ha & He & Hq).
  vm_compute in E. injection E as <- <-.
  vm_compute in E1. injection E1 as <- _.
  reflexivity.
Defined.

End CallExamples.

Import Js Cypher GraphStore GraphStoreFacts FalkorMemoryGraph AddFacts.

Module PersistFacts.

Lemma persists_refl s : persists s s.
Proof.
  split; [|intros e He; exact He].
  intros n Hn. exists n. split; [exact Hn|]. repeat split.
Qed.

Lemma persists_trans s s1 s2 : persists s s1 -> persists s1 s2 -> persists s s2.
Proof.
  intros [N1 R1] [N2 R2]. split; [|intros e He; apply R2, R1, He].
  intros n Hn. destruct (N1 n Hn) as (n1 & H1 & Hi1 & Hl1 & Hp1).
  destruct (N2 n1 H1) as (n2 & H2 & Hi2 & Hl2 & Hp2).
  exists n2. split; [exact H2|]. split; [congruence|]. split; [congruence|].
  intros k Hk. rewrite Hp2, Hp1 by exact Hk. reflexivity.
Qed.

Lemma set_props_only_embedding ps s sets p k :
  only_embedding sets = true -> k <> "embedding"%string ->
  set_props ps s sets p !! k = p !! k.
Proof.
  intros H Hk. apply set_props_other. unfold only_embedding in H.
  rewrite forallb_forall in *. intros kv Hkv. specialize (H kv Hkv).
  apply String.eqb_eq in H. rewrite H.
  apply negb_true_iff, String.eqb_neq. congruence.
Qed.

Lemma named_as_persists name u label n n' :
  node_labels n' = node_labels n ->
  (forall k, k <> "embedding"%string -> node_props n' !! k = node_props n !! k) ->
  named_as name u label n -> named_as name u label n'.
Proof.
  intros Hl Hp (H1 & H2 & v & H3 & H4). unfold named_as.
  rewrite Hl, !Hp by discriminate. eauto.
Qed.

Lemma value_eqb_str v s : value_eqb v (VStr s) = true -> v = VStr s.
Proof.
  destruct v; try discriminate. cbn [value_eqb]. intros H.
  apply bool_decide_eq_true_1 in H. congruence.
Qed.

Section WithStore.
Variable id_matches : N -> value -> bool.
Variable ps : params.

(** ** One row through a merge *)

Lemma merge_node_rows v label pn oc om name u r s rows s' :
  ps !! pn = Some (VStr name) -> ps !! "user_id"%string = Some u ->
  forallb (fun kv => negb (String.eqb (fst kv) "name")
                     && negb (String.eqb (fst kv) "user_id")) oc = true ->
  only_embedding om = true ->
  merge_node ps (NodeP v (Some label)
                   [("name"%string, EParam pn); ("user_id"%string, EParam "user_id")])
    oc om r s = (rows, s') ->
  persists s s' /\ rows <> [] /\
  forall o, o ∈ rows ->
    exists n, n ∈ nodes s' /\ named_as name u label n
              /\ o = (v, ENode (node_id n)) :: r.
Proof.
  intros Hpn Hu Hoc Hom Hm. unfold merge_node in Hm.
  set (pat := NodeP v (Some label)
                [("name"%string, EParam pn); ("user_id"%string, EParam "user_id")]) in *.
  assert (Hfit : forall n, node_matches ps s pat n = true -> named_as name u label n).
  { intros n Hn. unfold node_matches, pat in Hn.
    cbn [np_label np_props forallb fst snd eval] in Hn.
    rewrite Hpn, Hu in Hn. cbn [default] in Hn.
    apply andb_prop in Hn as [Hl Hn]. apply andb_prop in Hn as [Hname Hn].
    apply andb_prop in Hn as [Huid _].
    apply bool_decide_eq_true_1 in Hl.
    destruct (node_props n !! "name"%string) as [x|] eqn:Ex; [|discriminate].
    destruct (node_props n !! "user_id"%string) as [y|] eqn:Ey; [|discriminate].
    apply value_eqb_str in Hname. subst x.
    split; [exact Hl|]. split; [exact Ex|]. exists y. split; [exact Ey | exact Huid]. }
  destruct (filter (fun n => node_matches ps s pat n = true) (nodes s))
    as [|f0 found] eqn:Ef.
  - injection Hm as <- <-. cbn [np_var np_label np_props pat].
    set (n0 := Node (next_id s) [label]
                 (set_props ps s oc
                    (set_props ps s
                       [("name"%string, EParam pn);
                        ("user_id"%string, EParam "user_id")] ∅))).
    split; [|split; [discriminate|]].
    + split; cbn [nodes rels]; [|intros e He; exact He].
      intros n Hn. exists n. split; [apply elem_of_app; left; exact Hn|].
      repeat split.
    + intros o Ho. apply list_elem_of_singleton in Ho. subst o.
      exists n0. split; [cbn [nodes]; apply elem_of_app; right; left|].
      split; [|reflexivity].
      assert (Hk : forall k, k = "name"%string \/ k = "user_id"%string ->
                forallb (fun kv => negb (String.eqb (fst kv) k)) oc = true).
      { intros k Hk. rewrite forallb_forall in *. intros kv Hkv.
        specialize (Hoc kv Hkv). apply andb_prop in Hoc as [H1 H2].
        destruct Hk as [->| ->]; assumption. }
      assert (Hbase : forall k,
                k = "name"%string \/ k = "user_id"%string ->
                node_props n0 !! k
                = (<["user_id"%string := u]>
                     (<["name"%string := VStr name]> (∅ : props))) !! k).
      { intros k Hkk. unfold n0. cbn [node_props].
        rewrite set_props_other by (apply Hk; exact Hkk).
        unfold set_props. cbn [fold_left fst snd eval]. rewrite Hpn, Hu.
        reflexivity. }
      unfold named_as. split; [left|]. split.
      * rewrite Hbase by tauto.
        rewrite lookup_insert_ne by discriminate. apply lookup_insert_eq.
      * exists u. split; [|apply value_eqb_refl].
        rewrite Hbase by tauto. apply lookup_insert_eq.
  - injection Hm as <- <-.
    set (upd := fun n => if node_matches ps s pat n
                         then Node (node_id n) (node_labels n)
                                   (set_props ps s om (node_props n))
                         else n).
    assert (Hupd : forall n,
              node_id (upd n) = node_id n /\ node_labels (upd n) = node_labels n /\
              forall k, k <> "embedding"%string ->
                        node_props (upd n) !! k = node_props n !! k).
    { intros n. unfold upd. destruct (node_matches ps s pat n);
        [|repeat split; reflexivity].
      cbn [node_id node_labels node_props]. repeat split.
      intros k Hk. apply set_props_only_embedding; assumption. }
    split; [|split; [discriminate|]].
    + split; cbn [nodes rels]; [|intros e He; exact He].
      intros n Hn. exists (upd n). split; [apply list_elem_of_fmap; eauto|].
      apply Hupd.
    + intros o Ho.
      assert (Ho' : exists n, o = (v, ENode (node_id n)) :: r /\ n ∈ f0 :: found).
      { apply (list_elem_of_fmap (fun n => (v, ENode (node_id n)) :: r)). exact Ho. }
      destruct Ho' as [n [-> Hn]].
      rewrite <- Ef in Hn. apply list_elem_of_filter in Hn as [Hfn Hn].
      exists (upd n). destruct (Hupd n) as (Hi & Hl & Hp).
      split; [cbn [nodes]; apply list_elem_of_fmap; eauto|].
      split; [|cbn [np_var pat]; rewrite Hi; reflexivity].
      apply (named_as_persists name u label n); [exact Hl | exact Hp|].
      apply Hfit, Hfn.
Qed.

Lemma merge_path_rows a rv ty c oc r s rows s' :
  merge_path ps a rv ty c oc r s = Some (rows, s') ->
  persists s s' /\ rows <> [] /\
  forall o, o ∈ rows ->
    exists e, e ∈ rels s' /\ rel_type e = ty /\
              lookup_var a r = Some (ENode (rel_src e)) /\
              lookup_var c r = Some (ENode (rel_dst e)) /\
              o = (rv, ERel (rel_id e)) :: r.
Proof.
  intros Hm. unfold merge_path in Hm.
  destruct (lookup_var a r) as [[ia|]|]; try discriminate.
  destruct (lookup_var c r) as [[ic|]|]; try discriminate.
  destruct (filter _ (rels s)) as [|f0 found] eqn:Ef.
  - injection Hm as <- <-. split; [|split; [discriminate|]].
    + split; cbn [nodes rels].
      * intros n Hn. exists n. split; [exact Hn|]. repeat split.
      * intros e He. apply elem_of_app. left. exact He.
    + intros o Ho. apply list_elem_of_singleton in Ho. subst o.
      eexists. split; [cbn [rels]; apply elem_of_app; right; left|].
      repeat split.
  - injection Hm as <- <-. split; [apply persists_refl|]. split; [discriminate|].
    intros o Ho.
    assert (Ho' : exists e, o = (rv, ERel (rel_id e)) :: r /\ e ∈ f0 :: found).
    { apply (list_elem_of_fmap (fun e => (rv, ERel (rel_id e)) :: r)). exact Ho. }
    destruct Ho' as [e [-> He]].
    rewrite <- Ef in He. apply list_elem_of_filter in He as [Hf He].
    apply andb_prop in Hf as [Hf Hd]. apply andb_prop in Hf as [Ht Hs].
    apply bool_decide_eq_true_1 in Ht. apply N.eqb_eq in Hs, Hd. subst.
    exists e. repeat split. exact He.
Qed.

(** ** All rows through a clause *)

Lemma per_row_rows (Q : store -> row -> row -> Prop) f :
  (forall r s0 out s1,
     f r s0 = Some (out, s1) ->
     persists s0 s1 /\ out <> [] /\ forall o, o ∈ out -> Q s1 r o) ->
  (forall s1 s2 r o, persists s1 s2 -> Q s1 r o -> Q s2 r o) ->
  forall rows s outs s',
    per_row f rows s = Some (outs, s') ->
    persists s s' /\ (rows <> [] -> outs <> []) /\
    forall o, o ∈ outs -> exists r, r ∈ rows /\ Q s' r o.
Proof.
  intros Hf Hmono. induction rows as [|r rows IH]; intros s outs s' H;
    cbn [per_row] in H.
  - injection H as <- <-. split; [apply persists_refl|]. split; [congruence|].
    intros o Ho. inversion Ho.
  - destruct (f r s) as [[out s1]|] eqn:E1; [|discriminate].
    destruct (per_row f rows s1) as [[outs2 s2]|] eqn:E2; [|discriminate].
    injection H as <- <-.
    destruct (Hf _ _ _ _ E1) as (P1 & Hne & Q1).
    destruct (IH _ _ _ E2) as (P2 & _ & Q2).
    split; [eapply persists_trans; eassumption|]. split.
    + intros _ Hnil. apply app_eq_nil in Hnil as [Hnil _]. contradiction.
    + intros o Ho. apply elem_of_app in Ho as [Ho|Ho].
      * exists r. split; [left|]. apply (Hmono s1 s2); [exact P2 | apply Q1, Ho].
      * destruct (Q2 o Ho) as (r0 & Hr0 & Hq). exists r0. split; [right; exact Hr0 | exact Hq].
Qed.

(** ** The clauses of the adding queries *)

Lemma exec_match v rows s rows' s' :
  exec_clause id_matches ps (Match (bare v)) (rows, s) = Some (rows', s') ->
  s' = s /\
  forall o', o' ∈ rows' ->
    exists o n, o ∈ rows /\ n ∈ nodes s /\ o' = (v, ENode (node_id n)) :: o.
Proof.
  cbn [exec_clause bare]. intros [= <- <-]. split; [reflexivity|].
  intros o' Ho'. apply list_elem_of_In, in_flat_map in Ho' as (o & Ho & Hin).
  apply in_map_iff in Hin as (n & <- & Hn).
  exists o, n. split; [apply list_elem_of_In, Ho|].
  split; [apply list_elem_of_In, Hn | reflexivity].
Qed.

Lemma filter_rows_id v e s : forall rows out,
  filter_rows id_matches ps s [IdEq v e] rows = Some out ->
  forall o, o ∈ out ->
    o ∈ rows /\
    exists i, lookup_var v o = Some (ENode i) /\ id_matches i (eval ps s e) = true.
Proof.
  induction rows as [|r rows IH]; intros out H o Ho; cbn [filter_rows] in H.
  - injection H as <-. inversion Ho.
  - cbn [conds_hold cond_holds] in H.
    destruct (lookup_var v r) as [[i|]|] eqn:El; try discriminate.
    destruct (filter_rows id_matches ps s [IdEq v e] rows) as [out0|] eqn:E;
      [|destruct (id_matches i (eval ps s e) && true); discriminate].
    rewrite andb_true_r in H.
    destruct (id_matches i (eval ps s e)) eqn:Ei; injection H as <-.
    + apply elem_of_cons in Ho as [->|Ho].
      * split; [left|]. exists i. split; assumption.
      * destruct (IH _ eq_refl o Ho) as [Hin Hi]. split; [right; exact Hin | exact Hi].
    + destruct (IH _ eq_refl o Ho) as [Hin Hi]. split; [right; exact Hin | exact Hi].
Qed.

Lemma exec_where_id v e rows s rows' s' :
  exec_clause id_matches ps (Where [IdEq v e]) (rows, s) = Some (rows', s') ->
  s' = s /\
  forall o, o ∈ rows' ->
    o ∈ rows /\
    exists i, lookup_var v o = Some (ENode i) /\ id_matches i (eval ps s e) = true.
Proof.
  cbn [exec_clause]. destruct (filter_rows _ _ _ _ _) as [out|] eqn:E; [|discriminate].
  intros [= <- <-]. split; [reflexivity|]. apply (filter_rows_id v e s rows out E).
Qed.

Lemma exec_merge v label pn oc om name u rows s rows' s' :
  ps !! pn = Some (VStr name) -> ps !! "user_id"%string = Some u ->
  forallb (fun kv => negb (String.eqb (fst kv) "name")
                     && negb (String.eqb (fst kv) "user_id")) oc = true ->
  only_embedding om = true ->
  exec_clause id_matches ps
    (Merge (NodeP v (Some label)
              [("name"%string, EParam pn); ("user_id"%string, EParam "user_id")])
       oc om) (rows, s) = Some (rows', s') ->
  persists s s' /\ (rows <> [] -> rows' <> []) /\
  forall o', o' ∈ rows' ->
    exists o n, o ∈ rows /\ n ∈ nodes s' /\ named_as name u label n
                /\ o' = (v, ENode (node_id n)) :: o.
Proof.
  intros Hpn Hu Hoc Hom H. cbn [exec_clause] in H.
  apply (per_row_rows
           (fun s0 r o => exists n, n ∈ nodes s0 /\ named_as name u label n
                                    /\ o = (v, ENode (node_id n)) :: r)) in H.
  - destruct H as (P & Hne & Q). split; [exact P|]. split; [exact Hne|].
    intros o' Ho'. destruct (Q o' Ho') as (o & Ho & n & Hn & Hnm & ->).
    exists o, n. split; [exact Ho|]. split; [exact Hn|].
    split; [exact Hnm | reflexivity].
  - intros r s0 out s1 E. injection E as E.
    apply (merge_node_rows v label pn oc om name u r s0 out s1 Hpn Hu Hoc Hom E).
  - intros s1 s2 r o [N _] (n & Hn & Hnm & ->).
    destruct (N n Hn) as (n' & Hn' & Hi & Hl & Hp).
    exists n'. split; [exact Hn'|]. split; [|rewrite Hi; reflexivity].
    apply (named_as_persists name u label n); assumption.
Qed.

Lemma exec_path a rv ty c oc rows s rows' s' :
  exec_clause id_matches ps (MergePath a rv ty c oc) (rows, s) = Some (rows', s') ->
  persists s s' /\ (rows <> [] -> rows' <> []) /\
  forall o', o' ∈ rows' ->
    exists o e, o ∈ rows /\ e ∈ rels s' /\ rel_type e = ty /\
                lookup_var a o = Some (ENode (rel_src e)) /\
                lookup_var c o = Some (ENode (rel_dst e)).
Proof.
  intros H. cbn [exec_clause] in H.
  apply (per_row_rows
           (fun s0 r o => exists e, e ∈ rels s0 /\ rel_type e = ty /\
                                    lookup_var a r = Some (ENode (rel_src e)) /\
                                    lookup_var c r = Some (ENode (rel_dst e)))) in H.
  - destruct H as (P & Hne & Q). split; [exact P|]. split; [exact Hne|].
    intros o' Ho'. destruct (Q o' Ho') as (o & Ho & e & He & Ht & Ha & Hc).
    exists o, e. repeat split; assumption.
  - intros r s0 out s1 E.
    destruct (merge_path_rows a rv ty c oc r s0 out s1 E) as (P & Hne & Q).
    split; [exact P|]. split; [exact Hne|].
    intros o Ho. destruct (Q o Ho) as (e & He & Ht & Ha & Hc & _).
    exists e. repeat split; assumption.
  - intros s1 s2 r o [_ Rr] (e & He & Ht & Ha & Hc).
    exists e. repeat split; try assumption. apply Rr, He.
Qed.

(** A node found in a store is found, under its identifier, in a store
    it persists to. *)
Lemma node_persists (phi : node -> Prop) s s' n :
  (forall n1 n2, node_id n2 = node_id n1 -> node_labels n2 = node_labels n1 ->
     (forall k, k <> "embedding"%string -> node_props n2 !! k = node_props n1 !! k) ->
     phi n1 -> phi n2) ->
  persists s s' -> n ∈ nodes s -> phi n ->
  exists n', n' ∈ nodes s' /\ node_id n' = node_id n /\ phi n'.
Proof.
  intros Hphi [N _] Hn Hp. destruct (N n Hn) as (n' & Hn' & Hi & Hl & Hk).
  exists n'. split; [exact Hn'|]. split; [exact Hi|].
  apply (Hphi n n'); assumption.
Qed.

End WithStore.

Tactic Notation "step" hyp(H) ident(E) :=
  cbn [exec_clauses] in H;
  match type of H with
  | match ?x with _ => _ end = _ =>
      let rows := fresh "rows" in
      let s := fresh "s" in
      destruct x as [[rows s]|] eqn:E; [|discriminate]
  end.

Lemma named_as_stable name u label n1 n2 :
  node_id n2 = node_id n1 -> node_labels n2 = node_labels n1 ->
  (forall k, k <> "embedding"%string -> node_props n2 !! k = node_props n1 !! k) ->
  named_as name u label n1 -> named_as name u label n2.
Proof. intros _. apply named_as_persists. Qed.

Lemma by_id_stable (id_matches : N -> value -> bool) v (n1 n2 : node) :
  node_id n2 = node_id n1 -> node_labels n2 = node_labels n1 ->
  (forall k, k <> "embedding"%string -> node_props n2 !! k = node_props n1 !! k) ->
  id_matches (node_id n1) v = true -> id_matches (node_id n2) v = true.
Proof. intros -> _ _ H. exact H. Qed.

Lemma first_row {A} (l : list A) : l <> [] -> exists x, x ∈ l.
Proof. destruct l as [|x l]; [congruence|]. intros _. exists x. left. Qed.


End PersistFacts.

Module PersistExamples.
Import PersistFacts.


End PersistExamples.
